(** * Water quality monitor: turbidity firmware and its specification

    A shallow embedding of the Arduino sketches of the repository:

    - [firmware/water_quality_monitorcode.ino], the Uno R4 firmware (median
      burst sampling, EMA smoothing, two-point calibration kept in EEPROM,
      index mapping, classification, LED, calibration flow, button
      debouncing and long press, LCD address probing);
    - the earlier, simpler sketch for the classic Uno (module [Simple]).

    Conventions.
    - Fixed-width integers are [Z] with the wrap-around written where the
      source can wrap; [uint16_t] values live in [0, 65536).
    - [float] is IEEE 754 binary32, every operation rounded to nearest even
      on its own, as [SpecFloat] specifies it for [prec = 24], [emax = 128].
    - A conversion from [float] to an integer type whose result C++ leaves
      undefined (NaN, infinities, out of range) is [None].
    - File-scope and function-static variables, the EEPROM and the GPIO
      latches form one explicit [State] record threaded through the code.
    - The serial log and the LCD are output sinks only; they are not part of
      the state.  What [loop] prints is returned as a [Row]. *)

From Stdlib Require Import ZArith Bool Lia SpecFloat.
From Stdlib Require Import Strings.Byte.
From stdpp Require Import base list sorting gmap functions strings.

Local Open Scope Z_scope.

(* ====================================================================== *)
(** * Machine arithmetic *)
(* ====================================================================== *)

Definition wrap16 (z : Z) : Z := z mod 65536.
Definition wrap32 (z : Z) : Z := z mod 4294967296.

Definition INT_MIN : Z := -2147483648.
Definition INT_MAX : Z := 2147483647.

(** ** binary32 *)

Abbreviation float := spec_float.

Definition fadd : float -> float -> float := SFadd 24 128.
Definition fsub : float -> float -> float := SFsub 24 128.
Definition fmul : float -> float -> float := SFmul 24 128.
Definition fdiv : float -> float -> float := SFdiv 24 128.
Definition fltb : float -> float -> bool := SFltb.
Definition fleb : float -> float -> bool := SFleb.

(** [(float) n] for an integer [n]; exact whenever [|n| < 2^24]. *)
Definition of_int (n : Z) : float := binary_normalize 24 128 n 0 false.

Definition f_zero    : float := S754_zero false.                 (* 0.0f   *)
Definition f_half    : float := S754_finite false 8388608 (-24). (* 0.5f   *)
Definition f_one     : float := S754_finite false 8388608 (-23). (* 1.0f   *)
Definition f_hundred : float := S754_finite false 13107200 (-17). (* 100.0f *)
Definition f_neg_one : float := S754_finite true 8388608 (-23).  (* -1.0f  *)

(** Truncation toward zero of a finite float. *)
Definition ftrunc (x : float) : option Z :=
  match x with
  | S754_zero _ => Some 0
  | S754_finite s m e =>
      let mag := if 0 <=? e then Zpos m * 2 ^ e else Zpos m / 2 ^ (- e) in
      Some (cond_Zopp s mag)
  | _ => None
  end.

(** [(int) x] and [(long) x] on a 32-bit target. *)
Definition float_to_int (x : float) : option Z :=
  match ftrunc x with
  | Some v => if (INT_MIN <=? v) && (v <=? INT_MAX) then Some v else None
  | None => None
  end.

(** [(uint16_t) x]. *)
Definition float_to_u16 (x : float) : option Z :=
  match ftrunc x with
  | Some v => if (0 <=? v) && (v <? 65536) then Some v else None
  | None => None
  end.

(* ====================================================================== *)
(** * Configuration constants *)
(* ====================================================================== *)

Definition BUTTON_PIN     : Z := 7.
Definition STATUS_LED_PIN : Z := 8.

Definition MEDIAN_SAMPLE_COUNT : nat := 31.

(** [0.20f]: the binary32 number nearest to 1/5. *)
Definition EMA_ALPHA : float := S754_finite false 13421773 (-26).

Definition CAL_MAGIC   : Z := 0x54555242.
Definition EEPROM_ADDR : nat := 0.

Definition THRESH_CLEAR    : Z := 30.
Definition THRESH_MODERATE : Z := 70.

(* ====================================================================== *)
(** * Data model *)
(* ====================================================================== *)

Record CalData := mkCalData {
  magic     : Z;   (* uint32_t *)
  clearRaw  : Z;   (* uint16_t *)
  cloudyRaw : Z;   (* uint16_t *)
  crc       : Z    (* uint16_t *)
}.

Inductive CalStage := CAL_NONE | CAL_WAIT_CLEAR | CAL_WAIT_CLOUDY | CAL_DONE.

Inductive PinMode := INPUT_PULLUP | OUTPUT.

Record State := mkState {
  cal        : CalData;
  calLoaded  : bool;
  emaRaw     : float;
  calStage   : CalStage;
  lastToggle : Z;               (* static in updateLed *)
  ledState   : bool;            (* static in updateLed *)
  eeprom     : nat -> byte;     (* EEPROM cells by address *)
  pinModes   : gmap Z PinMode;
  pinLevels  : gmap Z bool      (* output latch per pin, true = HIGH *)
}.

Definition set_cal (c : CalData) (st : State) : State :=
  mkState c (calLoaded st) (emaRaw st) (calStage st) (lastToggle st) (ledState st)
          (eeprom st) (pinModes st) (pinLevels st).
Definition set_calLoaded (b : bool) (st : State) : State :=
  mkState (cal st) b (emaRaw st) (calStage st) (lastToggle st) (ledState st)
          (eeprom st) (pinModes st) (pinLevels st).
Definition set_emaRaw (x : float) (st : State) : State :=
  mkState (cal st) (calLoaded st) x (calStage st) (lastToggle st) (ledState st)
          (eeprom st) (pinModes st) (pinLevels st).
Definition set_calStage (s : CalStage) (st : State) : State :=
  mkState (cal st) (calLoaded st) (emaRaw st) s (lastToggle st) (ledState st)
          (eeprom st) (pinModes st) (pinLevels st).
Definition set_lastToggle (t : Z) (st : State) : State :=
  mkState (cal st) (calLoaded st) (emaRaw st) (calStage st) t (ledState st)
          (eeprom st) (pinModes st) (pinLevels st).
Definition set_ledState (b : bool) (st : State) : State :=
  mkState (cal st) (calLoaded st) (emaRaw st) (calStage st) (lastToggle st) b
          (eeprom st) (pinModes st) (pinLevels st).
Definition set_eeprom (e : nat -> byte) (st : State) : State :=
  mkState (cal st) (calLoaded st) (emaRaw st) (calStage st) (lastToggle st) (ledState st)
          e (pinModes st) (pinLevels st).

(** The state of a sketch that has just been flashed: the initialisers of
    the file-scope variables, over a given EEPROM content. *)
Definition power_on (e : nat -> byte) : State :=
  mkState (mkCalData 0 0 0 0) false f_neg_one CAL_NONE 0 false e ∅ ∅.

(** ** GPIO *)

Definition pinMode (pin : Z) (m : PinMode) (st : State) : State :=
  mkState (cal st) (calLoaded st) (emaRaw st) (calStage st) (lastToggle st) (ledState st)
          (eeprom st) (<[pin := m]> (pinModes st)) (pinLevels st).

Definition digitalWrite (pin : Z) (level : bool) (st : State) : State :=
  mkState (cal st) (calLoaded st) (emaRaw st) (calStage st) (lastToggle st) (ledState st)
          (eeprom st) (pinModes st) (<[pin := level]> (pinLevels st)).

(** ** EEPROM block access

    [EEPROM.get] and [EEPROM.put] copy the object representation of a
    [CalData]: little-endian fields at offsets 0 (magic), 4 (clearRaw),
    6 (cloudyRaw) and 8 (crc).  The two trailing padding bytes carry no
    field and are left as they are. *)

Definition byte_val (b : byte) : Z := Z.of_N (Byte.to_N b).

Definition byte_of (z : Z) : byte :=
  match Byte.of_N (Z.to_N (z mod 256)) with
  | Some b => b
  | None => Byte.x00
  end.

Definition read16 (e : nat -> byte) (a : nat) : Z :=
  byte_val (e a) + 256 * byte_val (e (S a)).

Definition read32 (e : nat -> byte) (a : nat) : Z :=
  read16 e a + 65536 * read16 e (a + 2)%nat.

Definition write16 (a : nat) (v : Z) (e : nat -> byte) : nat -> byte :=
  <[S a := byte_of (v / 256)]> (<[a := byte_of v]> e).

Definition write32 (a : nat) (v : Z) (e : nat -> byte) : nat -> byte :=
  write16 (a + 2)%nat (v / 65536) (write16 a v e).

Definition EEPROM_get (e : nat -> byte) (addr : nat) : CalData :=
  mkCalData (read32 e addr) (read16 e (addr + 4)%nat)
            (read16 e (addr + 6)%nat) (read16 e (addr + 8)%nat).

Definition EEPROM_put (addr : nat) (d : CalData) (e : nat -> byte) : nat -> byte :=
  write16 (addr + 8)%nat (crc d)
    (write16 (addr + 6)%nat (cloudyRaw d)
      (write16 (addr + 4)%nat (clearRaw d)
        (write32 addr (magic d) e))).

(* ====================================================================== *)
(** * Calibration store *)
(* ====================================================================== *)

Definition checksum16 (d : CalData) : Z :=
  let sum := 0 in
  let sum := wrap32 (sum + wrap16 (Z.land (magic d) 0xFFFF)) in
  let sum := wrap32 (sum + wrap16 (Z.land (Z.shiftr (magic d) 16) 0xFFFF)) in
  let sum := wrap32 (sum + clearRaw d) in
  let sum := wrap32 (sum + cloudyRaw d) in
  wrap16 (Z.land sum 0xFFFF).

Definition loadCalibration (st : State) : State :=
  let st := set_cal (EEPROM_get (eeprom st) EEPROM_ADDR) st in
  if negb (magic (cal st) =? CAL_MAGIC) then set_calLoaded false st
  else if negb (crc (cal st) =? checksum16 (cal st)) then set_calLoaded false st
  else if clearRaw (cal st) =? cloudyRaw (cal st) then set_calLoaded false st
  else set_calLoaded true st.

Definition saveCalibration (clear cloudy : Z) (st : State) : State :=
  let c := cal st in
  let c := mkCalData CAL_MAGIC (clearRaw c) (cloudyRaw c) (crc c) in
  let c := mkCalData (magic c) clear (cloudyRaw c) (crc c) in
  let c := mkCalData (magic c) (clearRaw c) cloudy (crc c) in
  let c := mkCalData (magic c) (clearRaw c) (cloudyRaw c) (checksum16 c) in
  let st := set_cal c st in
  let st := set_eeprom (EEPROM_put EEPROM_ADDR (cal st) (eeprom st)) st in
  set_calLoaded true st.

(* ====================================================================== *)
(** * Sampler *)
(* ====================================================================== *)

(** The inner [while (j >= 0 && arr[j] > key)] loop.  The counter of the
    model is [j + 1], so that the exit value [j = -1] is [0]; the result is
    the array together with the final [j + 1]. *)
Fixpoint shift_right (arr : list Z) (key : Z) (j1 : nat) : list Z * nat :=
  match j1 with
  | O => (arr, O)
  | S j =>
      if key <? arr !!! j
      then shift_right (<[S j := arr !!! j]> arr) key j
      else (arr, S j)
  end.

(** The outer [for (i = ...; i < n; i++)] loop with [fuel = n - i] rounds
    left.  [n] is a [uint8_t] and [i] stops at [n]: no counter wraps. *)
Fixpoint insertion_pass (fuel i : nat) (arr : list Z) : list Z :=
  match fuel with
  | O => arr
  | S fuel' =>
      let key := arr !!! i in
      let '(arr', j1) := shift_right arr key i in
      insertion_pass fuel' (S i) (<[j1 := key]> arr')
  end.

Definition insertionSort (arr : list Z) (n : nat) : list Z :=
  insertion_pass (n - 1) 1 arr.

(** [adc i] is what the [i]-th [analogRead] of the burst returns. *)
Definition readTurbidityMedian (adc : nat -> Z) : Z :=
  let samples := (fun i => wrap16 (adc i)) <$> seq 0 MEDIAN_SAMPLE_COUNT in
  insertionSort samples MEDIAN_SAMPLE_COUNT !!! (MEDIAN_SAMPLE_COUNT / 2)%nat.

(* ====================================================================== *)
(** * Index mapper *)
(* ====================================================================== *)

(** [map] of the Arduino core: integer arithmetic on [long], the division
    truncating toward zero. *)
Definition arduino_map (x in_min in_max out_min out_max : Z) : Z :=
  Z.quot ((x - in_min) * (out_max - out_min)) (in_max - in_min) + out_min.

Definition computeTurbidityIndex (st : State) (raw : Z) : option Z :=
  if negb (calLoaded st) then
    let idx := arduino_map raw 0 4095 100 0 in
    let idx := if idx <? 0 then 0 else idx in
    let idx := if 100 <? idx then 100 else idx in
    Some idx
  else
    let clearV  := of_int (clearRaw (cal st)) in
    let cloudyV := of_int (cloudyRaw (cal st)) in
    let t :=
      if fltb clearV cloudyV
      then fdiv (fsub (of_int raw) clearV) (fsub cloudyV clearV)
      else fdiv (fsub clearV (of_int raw)) (fsub clearV cloudyV) in
    let t := if fltb t f_zero then f_zero else t in
    let t := if fltb f_one t then f_one else t in
    match float_to_int (fadd (fmul t f_hundred) f_half) with
    | None => None
    | Some idx =>
        let idx := if idx <? 0 then 0 else idx in
        let idx := if 100 <? idx then 100 else idx in
        Some idx
    end.

(* ====================================================================== *)
(** * Classifier and LED *)
(* ====================================================================== *)

Definition classifyStatus (idx : Z) : string :=
  if idx <? THRESH_CLEAR then "CLEAR"
  else if idx <? THRESH_MODERATE then "MODERATE"
  else "TURBID".

(** [PIN_LED] is a macro of the board's core, not of the sketch; it is a
    parameter here.  [now] is what [millis()] returns. *)
Definition updateLed (PIN_LED : Z) (idx now : Z) (st : State) : State :=
  if idx <? THRESH_CLEAR then digitalWrite PIN_LED false st
  else if idx <? THRESH_MODERATE then
    if 700 <=? wrap32 (now - lastToggle st) then
      let st := set_lastToggle now st in
      let st := set_ledState (negb (ledState st)) st in
      digitalWrite PIN_LED (ledState st) st
    else st
  else digitalWrite PIN_LED true st.

(* ====================================================================== *)
(** * Setup and main loop *)
(* ====================================================================== *)

Definition setup (st : State) : State :=
  let st := pinMode BUTTON_PIN INPUT_PULLUP st in
  let st := pinMode STATUS_LED_PIN OUTPUT st in
  let st := digitalWrite STATUS_LED_PIN false st in
  loadCalibration st.

(** Steps 1 and 2 of [loop]: the calibration flow.  [longPress] is what
    [buttonLongPressEvent()] returns in this iteration and [adc] the burst
    read if a reference is captured. *)
Definition loop_calibration (longPress : bool) (adc : nat -> Z) (st : State) : State :=
  let st :=
    if negb (calLoaded st) && (if calStage st is CAL_NONE then true else false)
    then set_calStage CAL_WAIT_CLEAR st else st in
  if longPress then
    match calStage st with
    | CAL_WAIT_CLEAR =>
        let clear := readTurbidityMedian adc in
        let c := cal st in
        let st := set_cal (mkCalData (magic c) clear (cloudyRaw c) (crc c)) st in
        set_calStage CAL_WAIT_CLOUDY st
    | CAL_WAIT_CLOUDY =>
        let cloudy := readTurbidityMedian adc in
        let st := saveCalibration (clearRaw (cal st)) cloudy st in
        set_calStage CAL_DONE st
    | _ =>
        let st := set_calLoaded false st in
        set_calStage CAL_WAIT_CLEAR st
    end
  else st.

(** Step 5 of [loop]: the smoother. *)
Definition loop_smooth (rawMedian : Z) (st : State) : State :=
  let st := if fltb (emaRaw st) f_zero then set_emaRaw (of_int rawMedian) st else st in
  set_emaRaw (fadd (fmul EMA_ALPHA (of_int rawMedian))
                   (fmul (fsub f_one EMA_ALPHA) (emaRaw st))) st.

(** What one iteration reads from its environment. *)
Record LoopInput := mkLoopInput {
  longPress : bool;        (* buttonLongPressEvent() *)
  calBurst  : nat -> Z;    (* the burst of a reference capture *)
  burst     : nat -> Z;    (* the burst of step 4 *)
  now       : Z            (* millis() in updateLed *)
}.

(** One CSV line of the serial log. *)
Record Row := mkRow {
  row_raw_median : Z;
  row_ema_raw    : Z;
  row_index      : Z;
  row_status     : string;
  row_cal_loaded : bool;
  row_clear_raw  : Z;
  row_cloudy_raw : Z
}.

Definition loop (PIN_LED : Z) (inp : LoopInput) (st : State) : option (State * Row) :=
  let st := loop_calibration (longPress inp) (calBurst inp) st in
  let rawMedian := readTurbidityMedian (burst inp) in
  let st := loop_smooth rawMedian st in
  match float_to_u16 (fadd (emaRaw st) f_half) with
  | None => None
  | Some emaRounded =>
      match computeTurbidityIndex st emaRounded with
      | None => None
      | Some idx =>
          let status := classifyStatus idx in
          let st := updateLed PIN_LED idx (now inp) st in
          Some (st, mkRow rawMedian emaRounded idx status (calLoaded st)
                          (if calLoaded st then clearRaw (cal st) else 0)
                          (if calLoaded st then cloudyRaw (cal st) else 0))
      end
  end.

(* ====================================================================== *)
(** * Button and LCD probing *)
(* ====================================================================== *)

Definition DEBOUNCE_MS   : Z := 40.
Definition LONG_PRESS_MS : Z := 2000.

(** The function-static variables of [buttonLongPressEvent]. *)
Record ButtonState := mkButton {
  lastRaw     : bool;
  debounced   : bool;
  lastChange  : Z;   (* uint32_t *)
  pressStart  : Z;   (* uint32_t *)
  longFired   : bool
}.

Definition button_init : ButtonState := mkButton false false 0 0 false.

(** [rawPressed] is [digitalRead(BUTTON_PIN) == LOW] and [now] what
    [millis()] returns; the result is the new statics and the value
    returned. *)
Definition buttonLongPressEvent (rawPressed : bool) (now : Z) (b : ButtonState)
  : ButtonState * bool :=
  let b :=
    if negb (Bool.eqb rawPressed (lastRaw b))
    then mkButton rawPressed (debounced b) now (pressStart b) (longFired b)
    else b in
  let b :=
    if DEBOUNCE_MS <? wrap32 (now - lastChange b)
    then mkButton (lastRaw b) (lastRaw b) (lastChange b) (pressStart b) (longFired b)
    else b in
  let b :=
    if debounced b && (pressStart b =? 0)
    then mkButton (lastRaw b) (debounced b) (lastChange b) now false
    else b in
  let b :=
    if negb (debounced b)
    then mkButton (lastRaw b) (debounced b) (lastChange b) 0 false
    else b in
  if debounced b && negb (longFired b) && negb (pressStart b =? 0)
     && (LONG_PRESS_MS <=? wrap32 (now - pressStart b))
  then (mkButton (lastRaw b) (debounced b) (lastChange b) (pressStart b) true, true)
  else (b, false).

(** Successive calls, one per loop iteration: the events returned, oldest
    first, and the final statics. *)
Fixpoint button_run (calls : list (bool * Z)) (b : ButtonState)
  : list bool * ButtonState :=
  match calls with
  | [] => ([], b)
  | (raw, now) :: calls' =>
      let '(b', ev) := buttonLongPressEvent raw now b in
      let '(evs, b'') := button_run calls' b' in
      (ev :: evs, b'')
  end.

(** [bus addr] tells whether the device addressed by
    [Wire.beginTransmission(addr)] acknowledges, i.e. whether
    [Wire.endTransmission()] returns 0. *)
Definition i2cDevicePresent (bus : Z -> bool) (addr : Z) : bool := bus addr.

(** The range-based [for] over the candidate addresses. *)
Fixpoint probe_candidates (bus : Z -> bool) (candidates : list Z) : option Z :=
  match candidates with
  | [] => None
  | addr :: rest =>
      if i2cDevicePresent bus addr then Some addr else probe_candidates bus rest
  end.

(** [for (addr = ...; addr <= 0x3F; addr++)] with [fuel] addresses left. *)
Fixpoint probe_range (bus : Z -> bool) (addr : Z) (fuel : nat) : option Z :=
  match fuel with
  | O => None
  | S fuel' =>
      if i2cDevicePresent bus addr then Some addr else probe_range bus (addr + 1) fuel'
  end.

Definition findLcdAddress (bus : Z -> bool) : Z :=
  match probe_candidates bus [0x27; 0x3F; 0x26; 0x20; 0x21] with
  | Some addr => addr
  | None =>
      match probe_range bus 0x20 32 with
      | Some addr => addr
      | None => 0
      end
  end.

(* ====================================================================== *)
(** * The simpler sketch *)
(* ====================================================================== *)

(** The sketch for the classic Uno: [double] is binary32 there.  Its two
    calibration values are plain globals, parameters here. *)
Module Simple.

Definition EMA_ALPHA : float := S754_finite false 8388608 (-25). (* 0.25 *)

Definition CLEAR_MAX  : Z := 20.
Definition CLOUDY_MAX : Z := 60.

Inductive WaterState := CLEAR | CLOUDY | UNSAFE | SENSOR_ERROR.

Definition computeTurbidityIndex (clearRaw dirtyRaw : Z) (raw : float) : option Z :=
  let minVal := Z.min clearRaw dirtyRaw in
  let maxVal := Z.max clearRaw dirtyRaw in
  if Z.abs (maxVal - minVal) <? 1 then Some 0
  else
    let normalized := fdiv (fsub raw (of_int minVal)) (of_int (maxVal - minVal)) in
    let clearIsHigh := dirtyRaw <? clearRaw in
    let turbidity := if clearIsHigh then fsub f_one normalized else normalized in
    let x := fmul turbidity f_hundred in
    let rounded :=
      if fleb f_zero x then float_to_int (fadd x f_half)
      else float_to_int (fsub x f_half) in
    match rounded with
    | None => None
    | Some r => Some (if r <? 0 then 0 else if 100 <? r then 100 else r)
    end.

Definition classifyWater (index raw : Z) : WaterState :=
  if (raw <=? 5) || (1018 <=? raw) then SENSOR_ERROR
  else if index <=? CLEAR_MAX then CLEAR
  else if index <=? CLOUDY_MAX then CLOUDY
  else UNSAFE.

(** The smoothing statement of [loop]; [filteredRaw] starts as NaN. *)
Definition smooth (filteredRaw : float) (rawAvg : Z) : float :=
  match filteredRaw with
  | S754_nan => of_int rawAvg
  | _ => fadd (fmul EMA_ALPHA (of_int rawAvg))
              (fmul (fsub (of_int 1) EMA_ALPHA) filteredRaw)
  end.

(** [(int) v] for a [long] on the classic Uno: the low 16 bits, signed. *)
Definition to_int16 (z : Z) : Z := (z + 32768) mod 65536 - 32768.

(** The accumulation loop of [readAveragedADC] with [fuel] rounds left;
    [adc i] is what the [i]-th [analogRead] returns. *)
Fixpoint sum_reads (adc : nat -> Z) (i fuel : nat) (sum : Z) : Z :=
  match fuel with
  | O => sum
  | S fuel' => sum_reads adc (S i) fuel' (sum + adc i)
  end.

(** [None] is the division by zero of [samples = 0]. *)
Definition readAveragedADC (adc : nat -> Z) (samples : Z) : option Z :=
  let sum := sum_reads adc 0 (Z.to_nat samples) 0 in
  if samples =? 0 then None else Some (to_int16 (Z.quot sum samples)).

(** [raw * (5.0 / 1023.0)]; the quotient of the two constants is a
    binary32 number as well. *)
Definition adcToVoltage (raw : Z) : float :=
  fmul (of_int raw) (fdiv (of_int 5) (of_int 1023)).

(** Severity order of the four states, for comparing classifications. *)
Definition severity (s : WaterState) : Z :=
  match s with
  | CLEAR => 0
  | CLOUDY => 1
  | UNSAFE => 2
  | SENSOR_ERROR => 3
  end.

End Simple.

(* ====================================================================== *)
(** * Specification vocabulary *)
(* ====================================================================== *)

Definition is_u16 (z : Z) : Prop := 0 <= z < 65536.

(** The invariant of a calibration record. *)
Definition cal_valid (c : CalData) : Prop :=
  magic c = CAL_MAGIC /\ crc c = checksum16 c /\ clearRaw c <> cloudyRaw c.

(** Medians by counting: fewer than half of the samples lie strictly below
    [v] and fewer than half strictly above it. *)
Definition count_below (v : Z) (l : list Z) : nat := length (filter (fun x => x < v) l).
Definition count_above (v : Z) (l : list Z) : nat := length (filter (fun x => v < x) l).

Definition is_median (v : Z) (l : list Z) : Prop :=
  v ∈ l /\ (2 * count_below v l < length l)%nat /\ (2 * count_above v l < length l)%nat.

(** The samples of one burst, as [readTurbidityMedian] stores them. *)
Definition burst_samples (adc : nat -> Z) : list Z :=
  (fun i => wrap16 (adc i)) <$> seq 0 MEDIAN_SAMPLE_COUNT.

(** The EMA recurrence [alpha * s + (1 - alpha) * prev] in binary32. *)
Definition ema_blend (alpha : float) (s : Z) (prev : float) : float :=
  fadd (fmul alpha (of_int s)) (fmul (fsub f_one alpha) prev).

(** Feeding a sequence of medians to the smoother of either sketch. *)
Definition smooth_all (samples : list Z) (st : State) : State :=
  foldl (fun st s => loop_smooth s st) st samples.

Definition simple_smooth_all (samples : list Z) (x : float) : float :=
  foldl Simple.smooth x samples.

(** Iterating the calibration flow over the button events of successive
    loop iterations. *)
Definition run_calibration (inputs : list (bool * (nat -> Z))) (st : State) : State :=
  foldl (fun st i => loop_calibration i.1 i.2 st) st inputs.

Definition no_press (inputs : list (bool * (nat -> Z))) : Prop :=
  Forall (fun i => i.1 = false) inputs.

(** Iterating [updateLed] over successive [(idx, millis())] pairs. *)
Definition run_led (PIN_LED : Z) (calls : list (Z * Z)) (st : State) : State :=
  foldl (fun st c => updateLed PIN_LED c.1 c.2 st) st calls.

(** Floats with a full 24-bit significand, and the binary32 image of a
    small integer. *)
Definition normal24 (m : positive) : Prop := 2 ^ 23 <= Zpos m < 2 ^ 24.

Definition canon (z : Z) : float :=
  match z with
  | Z0 => S754_zero false
  | _ => S754_finite (z <? 0) (Z.to_pos (Z.abs z * 2 ^ (24 - Zdigits2 z))) (Zdigits2 z - 24)
  end.

(** Sign classes: a number (not NaN) with sign bit [s]; and the values the
    test [x < 0.0f] lets through. *)
Definition sign_class (s : bool) (x : float) : Prop :=
  match x with
  | S754_zero s' | S754_infinity s' | S754_finite s' _ _ => s' = s
  | S754_nan => False
  end.

Definition not_negative (x : float) : Prop := fltb x f_zero = false.

(** The tail of the calibrated branch of [computeTurbidityIndex]: clamp
    [t], scale, round, clamp. *)
Definition index_of_ratio (t : float) : option Z :=
  let t := if fltb t f_zero then f_zero else t in
  let t := if fltb f_one t then f_one else t in
  match float_to_int (fadd (fmul t f_hundred) f_half) with
  | None => None
  | Some idx =>
      let idx := if idx <? 0 then 0 else idx in
      let idx := if 100 <? idx then 100 else idx in
      Some idx
  end.

(** Bounded universal quantification by evaluation. *)
Fixpoint all_from (f : Z -> bool) (lo : Z) (n : nat) : bool :=
  match n with
  | O => true
  | S n' => f lo && all_from f (lo + 1) n'
  end.

(** An erased EEPROM. *)
Definition blank_eeprom : nat -> byte := fun _ => Byte.xff.

(** A device calibrated through the firmware's own save operation. *)
Definition calibrated (clear cloudy : Z) : State :=
  saveCalibration clear cloudy (setup (power_on blank_eeprom)).

(** The rounded first state of the smoother is the sample itself. *)
Definition first_round_ok (s : Z) : bool :=
  match float_to_u16 (fadd (ema_blend EMA_ALPHA s (of_int s)) f_half) with
  | Some r => r =? s
  | None => false
  end.

(** The calibration references held in RAM are values of their type. *)
Definition cal_fields_u16 (st : State) : Prop :=
  is_u16 (clearRaw (cal st)) /\ is_u16 (cloudyRaw (cal st)).

(** Case analysis on every conditional of the goal. *)
Ltac case_ifs :=
  repeat match goal with |- context [if ?b then _ else _] => destruct b end.

(** Side conditions on integers of at most 24 bits. *)
Ltac small_int := change (2 ^ 24) with 16777216 in *; unfold is_u16 in *; lia.

(** ** Calibration, status and button *)

(** States the firmware can be in when an iteration starts: [setup] on
    any EEPROM content followed by any number of calibration blocks. *)
Definition reachable (st : State) : Prop :=
  exists e inputs, st = run_calibration inputs (setup (power_on e)).

(** Severity order of the three status strings. *)
Definition status_rank (s : string) : Z :=
  if String.eqb s "CLEAR" then 0 else if String.eqb s "MODERATE" then 1 else 2.

(** The record with its two references exchanged. *)
Definition swap_refs (c : CalData) : CalData :=
  mkCalData (magic c) (cloudyRaw c) (clearRaw c) (crc c).

(** Two records that differ in one field only. *)
Definition one_field_differs (c c' : CalData) : Prop :=
  (magic c <> magic c' /\ clearRaw c = clearRaw c' /\ cloudyRaw c = cloudyRaw c'
     /\ crc c = crc c')
  \/ (magic c = magic c' /\ clearRaw c <> clearRaw c' /\ cloudyRaw c = cloudyRaw c'
     /\ crc c = crc c')
  \/ (magic c = magic c' /\ clearRaw c = clearRaw c' /\ cloudyRaw c <> cloudyRaw c'
     /\ crc c = crc c')
  \/ (magic c = magic c' /\ clearRaw c = clearRaw c' /\ cloudyRaw c = cloudyRaw c'
     /\ crc c <> crc c').

(** What holds of the calibration in every reachable state. *)
Definition calibration_invariant (st : State) : Prop :=
  cal_fields_u16 st
  /\ (calLoaded st = true ->
        EEPROM_get (eeprom st) EEPROM_ADDR = cal st
        /\ magic (cal st) = CAL_MAGIC /\ crc (cal st) = checksum16 (cal st))
  /\ (calStage st = CAL_DONE -> calLoaded st = true)
  /\ (calStage st = CAL_WAIT_CLEAR \/ calStage st = CAL_WAIT_CLOUDY -> calLoaded st = false).

(** The state left by an event: pressed, fired, with a press start. *)
Definition fired (b : ButtonState) : Prop :=
  debounced b = true /\ longFired b = true /\ pressStart b <> 0.

(** ** The simpler sketch *)

(** The first index of the simpler sketch with the calibration it ships
    with, for the averaged reading [r]. *)
Definition simple_first_index (r : Z) : option Z :=
  Simple.computeTurbidityIndex 900 300 (Simple.smooth S754_nan r).

(** What the first index has to satisfy, as a test on [r] and [r + 1]. *)
Definition simple_first_index_ok (r : Z) : bool :=
  match simple_first_index r, simple_first_index (r + 1) with
  | Some i, Some j =>
      (0 <=? i) && (i <=? 100) && (j <=? i)
      && (if r <=? 300 then i =? 100 else true)
      && (if 900 <=? r then i =? 0 else true)
  | _, _ => false
  end.

(** ** Values of binary32 numbers

    The value of a float that is zero or positive and finite, as the
    integer [value * 2^400]; every such float has an exponent of at least
    -149, so nothing is lost. *)
Definition fval (x : float) : Z :=
  match x with
  | S754_finite false m e => Z.shiftl (Zpos m) (e + 400)
  | _ => 0
  end.

(** Zero, or positive and finite with a significand and an exponent that
    binary32 has. *)
Definition finite_nn (x : float) : Prop :=
  match x with
  | S754_zero _ => True
  | S754_finite false m e => -149 <= e <= 104 /\ Zpos m < 2 ^ 24
  | _ => False
  end.

(** [r] is a nearest integer to [V / U], the even one on a tie. *)
Definition rounds_to (V U r : Z) : Prop :=
  - U <= 2 * (r * U - V) <= U
  /\ (2 * (r * U - V) = U -> Z.even r = true)
  /\ (2 * (V - r * U) = U -> Z.even r = true).

(** [Rv] is the scaled value [V] rounded to binary32: to a multiple of
    the unit in the last place of the binade of [V]. *)
Definition rounded_value (V Rv : Z) : Prop :=
  (V = 0 /\ Rv = 0)
  \/ exists mag r, -399 <= mag /\ 2 ^ (mag - 1 + 400) <= V < 2 ^ (mag + 400)
       /\ Rv = r * 2 ^ (Z.max (mag - 24) (-149) + 400)
       /\ rounds_to V (2 ^ (Z.max (mag - 24) (-149) + 400)) r.

(** What [k] right shifts make of the significand [M]: the quotient, the
    round bit and the sticky bit. *)
Definition shr_inv (M k : Z) (r : shr_record) : Prop :=
  shr_m r = M / 2 ^ k
  /\ (shr_r r = true <-> 2 ^ k <= 2 * (M mod 2 ^ k))
  /\ (shr_s r = true <-> 2 * (M mod 2 ^ k) <> 0 /\ 2 * (M mod 2 ^ k) <> 2 ^ k).

(** ** Bounds of the smoother *)

(** [fval x <= fval y], computed on the significands aligned to the
    smaller exponent. *)
Definition fval_leb (x y : float) : bool :=
  match x, y with
  | S754_finite false mx ex, S754_finite false my ey =>
      let ez := Z.min ex ey in
      Z.shiftl (Zpos mx) (ex - ez) <=? Z.shiftl (Zpos my) (ey - ez)
  | S754_finite false _ _, _ => false
  | _, _ => true
  end.

(** A state the recurrence cannot leave upward while the samples are at
    most [M], and one it cannot leave downward while they are at least
    [M]: [M] itself, or its blend with itself where rounding moves that
    past [M]. *)
Definition ema_ceiling (M : Z) : float :=
  let x := of_int M in
  let y := ema_blend EMA_ALPHA M x in
  if fval_leb y x then x else y.

Definition ema_floor (M : Z) : float :=
  let x := of_int M in
  let y := ema_blend EMA_ALPHA M x in
  if fval_leb x y then x else y.

(** The two bounds are closed under the recurrence. *)
Definition ema_bounds_ok (M : Z) : bool :=
  let x := of_int M in
  let y := ema_blend EMA_ALPHA M x in
  if fval_leb y x
  then (if fval_leb x y then true else fval_leb y (ema_blend EMA_ALPHA M y))
  else fval_leb (ema_blend EMA_ALPHA M y) y.

(** A number between the floor of [lo] and the ceiling of [hi]. *)
Definition ema_between (lo hi : Z) (x : float) : Prop :=
  finite_nn x /\ fval (ema_floor lo) <= fval x <= fval (ema_ceiling hi).

(** The smoother's state between two iterations: not yet seeded, or
    within the bounds of [uint16_t]. *)
Definition ema_ok (st : State) : Prop :=
  fltb (emaRaw st) f_zero = true \/ ema_between 0 65535 (emaRaw st).

(** Successive iterations of [loop]: the final state and the rows logged,
    oldest first; [None] as soon as one iteration is undefined. *)
Fixpoint run_loop (PIN_LED : Z) (inputs : list LoopInput) (st : State)
  : option (State * list Row) :=
  match inputs with
  | [] => Some (st, [])
  | inp :: rest =>
      match loop PIN_LED inp st with
      | None => None
      | Some (st', row) =>
          match run_loop PIN_LED rest st' with
          | None => None
          | Some (st'', rows) => Some (st'', row :: rows)
          end
      end
  end.

(** What every logged row satisfies. *)
Definition row_ok (row : Row) : Prop :=
  is_u16 (row_raw_median row) /\ is_u16 (row_ema_raw row)
  /\ 0 <= row_index row <= 100 /\ row_status row = classifyStatus (row_index row).

(** In the simpler sketch an integer state fed with itself stays put. *)
Definition simple_fixed (M : Z) : bool :=
  let x := of_int M in
  let y := Simple.smooth x M in
  fval_leb y x && fval_leb x y.

(** ** Tactics for the button *)

(** Turn the boolean tests recorded by a case analysis into facts. *)
Ltac tests_to_facts :=
  repeat match goal with
         | H : (_ && _) = true |- _ => apply andb_true_iff in H; destruct H
         | H : (_ && _) = false |- _ => apply andb_false_iff in H
         | H : negb _ = true |- _ => apply negb_true_iff in H
         | H : negb _ = false |- _ => apply negb_false_iff in H
         | H : (_ <? _) = true |- _ => apply Z.ltb_lt in H
         | H : (_ <? _) = false |- _ => apply Z.ltb_ge in H
         | H : (_ <=? _) = true |- _ => apply Z.leb_le in H
         | H : (_ <=? _) = false |- _ => apply Z.leb_gt in H
         | H : (_ =? _) = true |- _ => apply Z.eqb_eq in H
         | H : (_ =? _) = false |- _ => apply Z.eqb_neq in H
         | H : Bool.eqb _ _ = true |- _ => apply Bool.eqb_prop in H
         | H : Bool.eqb _ _ = false |- _ => apply Bool.eqb_false_iff in H
         end.

(** Evaluate one call, using the facts [Es] about its tests. *)
Ltac button_eval :=
  unfold buttonLongPressEvent, button_init, DEBOUNCE_MS, LONG_PRESS_MS; cbv zeta;
  repeat first
    [ progress cbn [Bool.eqb negb andb lastRaw debounced lastChange pressStart longFired]
    | rewrite Z.sub_diag
    | progress change (wrap32 0) with 0
    | match goal with
      | H : _ = true |- _ => rewrite H
      | H : _ = false |- _ => rewrite H
      end
    | progress change (0 =? 0) with true
    | progress change (40 <? 0) with false
    | progress change (2000 <=? 0) with false ].

(** The calibrated index as the specification words it, in exact
    arithmetic: the direction is read off the two references (the index
    rises with the raw value when cloudy > clear and falls otherwise),
    [t = (raw - low)/(high - low)] oriented per direction is clamped to
    [0, 1] and scaled to [0, 100] with round-half-up.  With [t = num/den]
    the rounded value [floor (100 t + 1/2)] is [(200 num + den) / (2 den)]. *)
Definition spec_index (clear cloudy raw : Z) : Z :=
  let low := Z.min clear cloudy in
  let high := Z.max clear cloudy in
  let den := high - low in
  let num := if clear <? cloudy then raw - low else high - raw in
  let num := Z.max 0 (Z.min den num) in
  (200 * num + den) / (2 * den).

(* ====================================================================== *)
(** * binary32: rounding lemmas *)
(* ====================================================================== *)

Lemma digits2_pos_log2 p : Zpos (digits2_pos p) = Z.log2 (Zpos p) + 1.
Proof.
  induction p as [p IH|p IH|]; simpl digits2_pos; try reflexivity.
  - rewrite Pos2Z.inj_succ, IH.
    change (Zpos p~1) with (2 * Zpos p + 1). rewrite Z.log2_succ_double by lia. lia.
  - rewrite Pos2Z.inj_succ, IH.
    change (Zpos p~0) with (2 * Zpos p). rewrite Z.log2_double by lia. lia.
Qed.

Lemma digits2_pos_bounds p d :
  Zpos (digits2_pos p) = d <-> 2 ^ (d - 1) <= Zpos p < 2 ^ d.
Proof.
  rewrite digits2_pos_log2. split.
  - intros <-. replace (Z.log2 (Zpos p) + 1 - 1) with (Z.log2 (Zpos p)) by lia.
    pose proof (Z.log2_spec (Zpos p) ltac:(lia)) as H. rewrite <- Z.add_1_r in H. lia.
  - intros H. assert (0 <= d - 1).
    { destruct (Z_lt_le_dec (d - 1) 0) as [Hn|]; [|lia]. exfalso.
      destruct H as [_ H]. destruct (Z.eq_dec d 0) as [->|Hd].
      - change (2 ^ 0) with 1 in H. lia.
      - rewrite Z.pow_neg_r in H by lia. lia. }
    rewrite (Z.log2_unique (Zpos p) (d - 1)); [lia | lia |].
    replace (Z.succ (d - 1)) with d by lia. exact H.
Qed.

Lemma Zdigits2_bounds m d : 0 < m -> 2 ^ (d - 1) <= m < 2 ^ d -> Zdigits2 m = d.
Proof.
  intros Hm H. destruct m as [|p|p]; try lia. simpl. apply digits2_pos_bounds. exact H.
Qed.

Lemma shr_1_m r : 0 <= shr_m r -> shr_m (shr_1 r) = shr_m r / 2.
Proof.
  destruct r as [m rb sb]. simpl. intros Hm.
  destruct m as [|[p|p|]|p]; simpl; try lia; try reflexivity.
  - change (Zpos p~1) with (2 * Zpos p + 1). apply Z.div_unique with 1; lia.
  - change (Zpos p~0) with (2 * Zpos p). apply Z.div_unique with 0; lia.
Qed.

Lemma shr_iter_m p : forall r, 0 <= shr_m r ->
  shr_m (SpecFloat.iter_pos shr_1 p r) = shr_m r / 2 ^ Zpos p.
Proof.
  induction p as [p IH|p IH|]; intros r Hr; cbn [SpecFloat.iter_pos].
  - assert (H1 : 0 <= shr_m (shr_1 r)) by (rewrite shr_1_m by lia; apply Z.div_pos; lia).
    assert (H2 : 0 <= shr_m (SpecFloat.iter_pos shr_1 p (shr_1 r)))
      by (rewrite IH by lia; apply Z.div_pos; lia).
    rewrite IH, IH, shr_1_m by lia.
    rewrite !Z.div_div by lia. f_equal.
    rewrite Pos2Z.inj_xI. replace (2 * Zpos p + 1) with (1 + Zpos p + Zpos p) by lia.
    rewrite !Z.pow_add_r by lia. change (2 ^ 1) with 2. ring.
  - assert (H2 : 0 <= shr_m (SpecFloat.iter_pos shr_1 p r))
      by (rewrite IH by lia; apply Z.div_pos; lia).
    rewrite IH, IH by lia. rewrite !Z.div_div by lia. f_equal.
    rewrite (Pos2Z.inj_xO p). replace (2 * Zpos p) with (Zpos p + Zpos p) by lia.
    rewrite Z.pow_add_r by lia. reflexivity.
  - rewrite shr_1_m by lia. reflexivity.
Qed.

Lemma shr_record_of_loc_m m l : shr_m (shr_record_of_loc m l) = m.
Proof. destruct l as [|[]]; reflexivity. Qed.

Lemma round_nearest_even_cases m l :
  round_nearest_even m l = m \/ round_nearest_even m l = m + 1.
Proof. destruct l as [|[]]; simpl; auto. destruct (Z.even m); auto. Qed.

Lemma shr_fexp_nonneg m ex l : 0 <= m -> 0 <= shr_m (shr_fexp 24 128 m ex l).1.
Proof.
  intros Hm. unfold shr_fexp, shr.
  destruct (fexp 24 128 (Zdigits2 m + ex) - ex) as [|p|p]; cbn [fst];
    rewrite ?shr_iter_m, shr_record_of_loc_m; try lia.
  - apply Z.div_pos; lia.
  - rewrite shr_record_of_loc_m. lia.
Qed.

(** Rounding never produces NaN and keeps the sign it is given. *)
Lemma binary_round_aux_sign s m ex l :
  0 <= m -> sign_class s (binary_round_aux 24 128 s m ex l).
Proof.
  intros Hm. unfold binary_round_aux.
  pose proof (shr_fexp_nonneg m ex l Hm) as H1.
  destruct (shr_fexp 24 128 m ex l) as [r1 e1]. cbn [fst] in H1.
  set (m2 := round_nearest_even (shr_m r1) (loc_of_shr_record r1)).
  assert (H2 : 0 <= m2)
    by (destruct (round_nearest_even_cases (shr_m r1) (loc_of_shr_record r1)) as [E|E];
        fold m2 in E; lia).
  pose proof (shr_fexp_nonneg m2 e1 loc_Exact H2) as H3.
  destruct (shr_fexp 24 128 m2 e1 loc_Exact) as [r2 e2]. cbn [fst] in H3.
  destruct (shr_m r2) as [|q|q]; try lia; simpl; [reflexivity|].
  destruct (e2 <=? 128 - 24); reflexivity.
Qed.

Lemma binary_round_sign s m ex : sign_class s (binary_round 24 128 s m ex).
Proof.
  unfold binary_round. destruct (shl_align m ex _) as [mz ez].
  apply binary_round_aux_sign. lia.
Qed.

Lemma shr_fexp_normal m ex l d :
  0 < m -> Zdigits2 m = d -> 24 <= d -> -149 <= ex + d - 24 ->
  exists r, shr_fexp 24 128 m ex l = (r, ex + d - 24) /\ shr_m r = m / 2 ^ (d - 24).
Proof.
  intros Hm Hd H24 Hmin. unfold shr_fexp, fexp, emin. rewrite Hd.
  replace (Z.max (d + ex - 24) (3 - 128 - 24) - ex) with (d - 24) by lia.
  destruct (d - 24) as [|p|p] eqn:Hn; try lia; simpl shr.
  - eexists; split; [f_equal; lia|]. rewrite shr_record_of_loc_m, Z.div_1_r. reflexivity.
  - eexists; split; [f_equal; lia|].
    rewrite shr_iter_m; rewrite shr_record_of_loc_m; [reflexivity | lia].
Qed.

(** Rounding a significand of [d >= 24] bits in the normal range yields a
    normal float whose exponent is the target exponent, or one more when
    the rounding carries. *)
Lemma binary_round_aux_normal s mx ex l d :
  Zpos (digits2_pos mx) = d -> 24 <= d -> -149 <= ex + d - 24 -> ex + d - 24 < 104 ->
  exists m' e', binary_round_aux 24 128 s (Zpos mx) ex l = S754_finite s m' e'
    /\ normal24 m' /\ (e' = ex + d - 24 \/ e' = ex + d - 23).
Proof.
  intros Hd H24 Hmin Hmax. unfold binary_round_aux, normal24.
  destruct (shr_fexp_normal (Zpos mx) ex l d) as (r1 & -> & Hr1); try lia; [exact Hd|].
  apply digits2_pos_bounds in Hd.
  assert (Hp : 2 ^ (d - 1) = 2 ^ (d - 24) * 2 ^ 23)
    by (rewrite <- Z.pow_add_r by lia; f_equal; lia).
  assert (Hq : 2 ^ d = 2 ^ (d - 24) * 2 ^ 24)
    by (rewrite <- Z.pow_add_r by lia; f_equal; lia).
  assert (H2n : 0 < 2 ^ (d - 24)) by (apply Z.pow_pos_nonneg; lia).
  assert (Hm1 : 2 ^ 23 <= shr_m r1 < 2 ^ 24).
  { rewrite Hr1. split.
    - apply Z.div_le_lower_bound; lia.
    - apply Z.div_lt_upper_bound; lia. }
  set (m2 := round_nearest_even (shr_m r1) (loc_of_shr_record r1)).
  assert (Hm2 : 2 ^ 23 <= m2 <= 2 ^ 24)
    by (destruct (round_nearest_even_cases (shr_m r1) (loc_of_shr_record r1)) as [E|E];
        fold m2 in E; lia).
  destruct (Z.eq_dec m2 (2 ^ 24)) as [He|Hne].
  - destruct (shr_fexp_normal m2 (ex + d - 24) loc_Exact 25) as (r2 & -> & Hr2); try lia.
    { rewrite He. reflexivity. }
    rewrite Hr2, He. change (2 ^ 24 / 2 ^ (25 - 24)) with (Zpos 8388608).
    replace (ex + d - 24 + 25 - 24 <=? 128 - 24) with true by (symmetry; apply Z.leb_le; lia).
    eexists _, _; split; [reflexivity|]. split; [simpl; lia | right; lia].
  - destruct (shr_fexp_normal m2 (ex + d - 24) loc_Exact 24) as (r2 & -> & Hr2); try lia.
    { apply Zdigits2_bounds; [lia|]. change (24 - 1) with 23. lia. }
    rewrite Hr2. change (2 ^ (24 - 24)) with 1. rewrite Z.div_1_r.
    destruct m2 as [|p2|p2]; try lia.
    replace (ex + d - 24 + 24 - 24 <=? 128 - 24) with true by (symmetry; apply Z.leb_le; lia).
    eexists _, _; split; [reflexivity|]. split; [lia | left; lia].
Qed.

Lemma shr_fexp_id mx ex :
  normal24 mx -> -149 <= ex ->
  shr_fexp 24 128 (Zpos mx) ex loc_Exact = (Build_shr_record (Zpos mx) false false, ex).
Proof.
  intros Hm He.
  assert (Hd : Zdigits2 (Zpos mx) = 24) by (apply Zdigits2_bounds; [lia | exact Hm]).
  unfold shr_fexp, fexp, emin. rewrite Hd.
  replace (Z.max (24 + ex - 24) (3 - 128 - 24) - ex) with 0 by lia. reflexivity.
Qed.

Lemma finite_in_range s m e :
  e <= 104 -> (if e <=? 128 - 24 then S754_finite s m e else S754_infinity s) = S754_finite s m e.
Proof. intros H. replace (e <=? 128 - 24) with true by (symmetry; apply Z.leb_le; lia). reflexivity. Qed.

Lemma binary_round_aux_exact s mx ex :
  normal24 mx -> -149 <= ex <= 104 ->
  binary_round_aux 24 128 s (Zpos mx) ex loc_Exact = S754_finite s mx ex.
Proof.
  intros Hm He. unfold binary_round_aux.
  rewrite shr_fexp_id by (auto; lia). cbn [shr_m loc_of_shr_record round_nearest_even].
  rewrite shr_fexp_id by (auto; lia). cbn [shr_m]. apply finite_in_range. lia.
Qed.

Lemma Pos_iter_xO m d : Zpos (Pos.iter xO m d) = Zpos m * 2 ^ Zpos d.
Proof.
  induction d as [|d IH] using Pos.peano_ind.
  - simpl. lia.
  - rewrite Pos.iter_succ, Pos2Z.inj_xO, IH, Pos2Z.inj_succ, Z.pow_succ_r by lia. ring.
Qed.

Lemma shl_align_fst mx ex ez :
  ez <= ex -> Zpos (fst (shl_align mx ex ez)) = Zpos mx * 2 ^ (ex - ez).
Proof.
  intros H. unfold shl_align. destruct (ez - ex) as [|p|p] eqn:E; try lia.
  - replace (ex - ez) with 0 by lia. simpl. lia.
  - simpl fst. rewrite Pos_iter_xO. f_equal. f_equal. lia.
Qed.

Lemma shl_align_snd mx ex ez : ez <= ex -> snd (shl_align mx ex ez) = ez.
Proof.
  intros H. unfold shl_align. destruct (ez - ex) as [|p|p] eqn:E; simpl; lia.
Qed.

(** Shifting a multiple of [2^p] right by [p] bits loses nothing. *)
Lemma shr_iter_exact p : forall m, 0 <= m -> (2 ^ Zpos p | m) ->
  SpecFloat.iter_pos shr_1 p (Build_shr_record m false false)
  = Build_shr_record (m / 2 ^ Zpos p) false false.
Proof.
  assert (H1 : forall m, 0 <= m -> (2 | m) ->
     shr_1 (Build_shr_record m false false) = Build_shr_record (m / 2) false false).
  { intros m Hm [k Hk]. destruct m as [|[q|q|]|q]; try lia; simpl.
    - reflexivity.
    - f_equal. change (Zpos q~0) with (2 * Zpos q).
      apply Z.div_unique with 0; lia. }
  assert (Hdiv : forall a b m, 0 < a -> 0 < b -> (a * b | m) -> (b | m / a)).
  { intros a b m Ha Hb [k Hk]. exists k. subst m.
    replace (k * (a * b)) with (k * b * a) by ring. rewrite Z.div_mul by lia. reflexivity. }
  induction p as [p IH|p IH|]; intros m Hm Hdv; cbn [SpecFloat.iter_pos].
  - assert (E : 2 ^ Zpos p~1 = 2 * (2 ^ Zpos p * 2 ^ Zpos p)).
    { rewrite Pos2Z.inj_xI. replace (2 * Zpos p + 1) with (1 + Zpos p + Zpos p) by lia.
      rewrite !Z.pow_add_r by lia. change (2 ^ 1) with 2. ring. }
    assert (P : 0 < 2 ^ Zpos p) by (apply Z.pow_pos_nonneg; lia).
    rewrite E in Hdv |- *.
    rewrite H1; [| lia | destruct Hdv as [k Hk]; exists (k * (2 ^ Zpos p * 2 ^ Zpos p)); lia].
    rewrite IH; [| apply Z.div_pos; lia | ].
    2:{ apply (Hdiv 2 (2 ^ Zpos p)); try lia. destruct Hdv as [k Hk].
        exists (k * 2 ^ Zpos p). lia. }
    rewrite IH; [| apply Z.div_pos; [apply Z.div_pos|]; lia | ].
    2:{ apply (Hdiv (2 ^ Zpos p) (2 ^ Zpos p)); try lia. apply (Hdiv 2); try nia. exact Hdv. }
    rewrite !Z.div_div by lia. reflexivity.
  - assert (E : 2 ^ Zpos p~0 = 2 ^ Zpos p * 2 ^ Zpos p).
    { rewrite (Pos2Z.inj_xO p). replace (2 * Zpos p) with (Zpos p + Zpos p) by lia.
      rewrite Z.pow_add_r by lia. reflexivity. }
    assert (P : 0 < 2 ^ Zpos p) by (apply Z.pow_pos_nonneg; lia).
    rewrite E in Hdv |- *.
    rewrite IH; [| lia | destruct Hdv as [k Hk]; exists (k * 2 ^ Zpos p); lia].
    rewrite IH; [| apply Z.div_pos; lia | apply Hdiv; try lia; exact Hdv].
    rewrite !Z.div_div by lia. reflexivity.
  - apply H1; [lia | exact Hdv].
Qed.

Lemma binary_round_aux_exact_shift s m1 n ex :
  normal24 m1 -> 0 <= n -> -149 <= ex + n <= 104 ->
  binary_round_aux 24 128 s (Zpos m1 * 2 ^ n) ex loc_Exact = S754_finite s m1 (ex + n).
Proof.
  intros Hm Hn He. unfold normal24 in Hm.
  assert (P : 0 < 2 ^ n) by (apply Z.pow_pos_nonneg; lia).
  assert (Hd : Zdigits2 (Zpos m1 * 2 ^ n) = 24 + n).
  { apply Zdigits2_bounds; [nia|].
    replace (24 + n - 1) with (23 + n) by lia. rewrite !Z.pow_add_r by lia. nia. }
  assert (Hs : shr_fexp 24 128 (Zpos m1 * 2 ^ n) ex loc_Exact
               = (Build_shr_record (Zpos m1) false false, ex + n)).
  { unfold shr_fexp, fexp, emin. rewrite Hd.
    replace (Z.max (24 + n + ex - 24) (3 - 128 - 24) - ex) with n by lia.
    cbn [shr_record_of_loc]. unfold shr. destruct n as [|p|p]; try lia.
    - rewrite Z.mul_1_r, Z.add_0_r. reflexivity.
    - rewrite shr_iter_exact; [ | nia | exists (Zpos m1); reflexivity].
      rewrite Z.div_mul by lia. reflexivity. }
  unfold binary_round_aux. rewrite Hs.
  cbn [shr_m loc_of_shr_record round_nearest_even].
  rewrite shr_fexp_id by (auto; lia). cbn [shr_m]. apply finite_in_range. lia.
Qed.

Lemma binary_round_scaled s p j dg :
  Zpos (digits2_pos p) = dg -> dg <= 24 -> 0 <= j <= 100 ->
  binary_round 24 128 s (Z.to_pos (Zpos p * 2 ^ j)) (- j)
  = S754_finite s (Z.to_pos (Zpos p * 2 ^ (24 - dg))) (dg - 24).
Proof.
  intros Hdg H24 Hj.
  assert (Hdg1 : 1 <= dg) by (rewrite <- Hdg; lia).
  apply digits2_pos_bounds in Hdg.
  assert (Pj : 0 < 2 ^ j) by (apply Z.pow_pos_nonneg; lia).
  assert (Pk : 0 < 2 ^ (24 - dg)) by (apply Z.pow_pos_nonneg; lia).
  set (mx := Z.to_pos (Zpos p * 2 ^ j)).
  assert (Hmx : Zpos mx = Zpos p * 2 ^ j) by (unfold mx; rewrite Z2Pos.id; nia).
  set (m1 := Z.to_pos (Zpos p * 2 ^ (24 - dg))).
  assert (Hm1 : Zpos m1 = Zpos p * 2 ^ (24 - dg)) by (unfold m1; rewrite Z2Pos.id; nia).
  assert (Hn1 : normal24 m1).
  { unfold normal24. rewrite Hm1.
    assert (E23 : 2 ^ 23 = 2 ^ (dg - 1) * 2 ^ (24 - dg))
      by (rewrite <- Z.pow_add_r by lia; f_equal; lia).
    assert (E24 : 2 ^ 24 = 2 ^ dg * 2 ^ (24 - dg))
      by (rewrite <- Z.pow_add_r by lia; f_equal; lia).
    rewrite E23, E24. nia. }
  assert (Hd : Zpos (digits2_pos mx) = dg + j).
  { apply digits2_pos_bounds. rewrite Hmx.
    replace (dg + j - 1) with ((dg - 1) + j) by lia. rewrite !Z.pow_add_r by lia. nia. }
  unfold binary_round. rewrite Hd. unfold fexp, emin.
  replace (Z.max (dg + j + - j - 24) (3 - 128 - 24)) with (dg - 24) by lia.
  destruct (Z_lt_le_dec (dg - 24) (- j)) as [Hlt|Hge].
  - rewrite (surjective_pairing (shl_align mx (- j) (dg - 24))).
    rewrite shl_align_snd by lia.
    assert (Hf : fst (shl_align mx (- j) (dg - 24)) = m1).
    { apply Pos2Z.inj. rewrite shl_align_fst by lia. rewrite Hmx, Hm1.
      rewrite <- Z.mul_assoc, <- Z.pow_add_r by lia. f_equal. f_equal. lia. }
    rewrite Hf. apply binary_round_aux_exact; [exact Hn1 | lia].
  - assert (Hs : shl_align mx (- j) (dg - 24) = (mx, - j)).
    { unfold shl_align. destruct (dg - 24 - - j) eqn:E; try reflexivity. lia. }
    rewrite Hs.
    replace (Zpos mx) with (Zpos m1 * 2 ^ (j - (24 - dg))).
    2:{ rewrite Hmx, Hm1. rewrite <- Z.mul_assoc, <- Z.pow_add_r by lia. f_equal. f_equal. lia. }
    rewrite binary_round_aux_exact_shift; [f_equal; lia | exact Hn1 | lia | lia].
Qed.

Lemma binary_normalize_scaled z j :
  0 < Z.abs z < 2 ^ 24 -> 0 <= j <= 100 ->
  binary_normalize 24 128 (z * 2 ^ j) (- j) false = canon z.
Proof.
  intros Hz Hj.
  assert (Pj : 0 < 2 ^ j) by (apply Z.pow_pos_nonneg; lia).
  destruct z as [|p|p]; try (simpl in Hz; lia).
  - replace (Zpos p * 2 ^ j) with (Zpos (Z.to_pos (Zpos p * 2 ^ j))) by (rewrite Z2Pos.id; nia).
    cbn [binary_normalize]. simpl Z.abs in Hz.
    rewrite (binary_round_scaled false p j (Zpos (digits2_pos p))); try lia; [reflexivity|].
    assert (~ 24 < Zpos (digits2_pos p)); [|lia]. intros Hc.
    pose proof (proj1 (digits2_pos_bounds p _) eq_refl) as [Hb _].
    assert (2 ^ 24 <= 2 ^ (Zpos (digits2_pos p) - 1)) by (apply Z.pow_le_mono_r; lia). lia.
  - replace (Zneg p * 2 ^ j) with (Zneg (Z.to_pos (Zpos p * 2 ^ j))).
    2:{ rewrite <- Pos2Z.opp_pos, Z2Pos.id by nia. rewrite <- Pos2Z.opp_pos. ring. }
    cbn [binary_normalize]. simpl Z.abs in Hz.
    rewrite (binary_round_scaled true p j (Zpos (digits2_pos p))); try lia; [reflexivity|].
    assert (~ 24 < Zpos (digits2_pos p)); [|lia]. intros Hc.
    pose proof (proj1 (digits2_pos_bounds p _) eq_refl) as [Hb _].
    assert (2 ^ 24 <= 2 ^ (Zpos (digits2_pos p) - 1)) by (apply Z.pow_le_mono_r; lia). lia.
Qed.

Lemma of_int_canon z : Z.abs z < 2 ^ 24 -> of_int z = canon z.
Proof.
  intros Hz. destruct (Z.eq_dec z 0) as [->|Hne]; [reflexivity|].
  unfold of_int. rewrite <- (binary_normalize_scaled z 0); [|lia|lia].
  f_equal. change (2 ^ 0) with 1. lia.
Qed.

Lemma Zdigits2_small z : 0 < Z.abs z < 2 ^ 24 -> 1 <= Zdigits2 z <= 24.
Proof.
  intros Hz.
  assert (H : forall p, Zpos p < 2 ^ 24 -> 1 <= Zpos (digits2_pos p) <= 24).
  { intros p Hp. split; [lia|].
    destruct (Z_lt_le_dec 24 (Zpos (digits2_pos p))) as [Hc|]; [|lia].
    pose proof (proj1 (digits2_pos_bounds p _) eq_refl) as [Hb _].
    assert (2 ^ 24 <= 2 ^ (Zpos (digits2_pos p) - 1)) by (apply Z.pow_le_mono_r; lia). lia. }
  destruct z as [|p|p]; simpl in *; try lia; apply H; lia.
Qed.

Lemma canon_finite z :
  0 < Z.abs z < 2 ^ 24 ->
  exists m, canon z = S754_finite (z <? 0) m (Zdigits2 z - 24)
    /\ Zpos m = Z.abs z * 2 ^ (24 - Zdigits2 z) /\ normal24 m.
Proof.
  intros Hz. pose proof (Zdigits2_small z Hz) as Hd.
  assert (Pk : 0 < 2 ^ (24 - Zdigits2 z)) by (apply Z.pow_pos_nonneg; lia).
  assert (Hb : 2 ^ (Zdigits2 z - 1) <= Z.abs z < 2 ^ Zdigits2 z).
  { destruct z as [|p|p]; simpl in Hz; try lia; simpl Zdigits2; simpl Z.abs;
      apply digits2_pos_bounds; reflexivity. }
  exists (Z.to_pos (Z.abs z * 2 ^ (24 - Zdigits2 z))). split; [|split].
  - destruct z; simpl in Hz; try lia; reflexivity.
  - rewrite Z2Pos.id; nia.
  - unfold normal24. rewrite Z2Pos.id by nia.
    assert (E23 : 2 ^ 23 = 2 ^ (Zdigits2 z - 1) * 2 ^ (24 - Zdigits2 z))
      by (rewrite <- Z.pow_add_r by lia; f_equal; lia).
    assert (E24 : 2 ^ 24 = 2 ^ Zdigits2 z * 2 ^ (24 - Zdigits2 z))
      by (rewrite <- Z.pow_add_r by lia; f_equal; lia).
    rewrite E23, E24. nia.
Qed.

Lemma cond_Zopp_abs z k : cond_Zopp (z <? 0) (Z.abs z * k) = z * k.
Proof. unfold cond_Zopp. destruct (Z.ltb_spec z 0); lia. Qed.

(** Subtraction of small integers is exact. *)
Lemma fsub_of_int a b :
  Z.abs a < 2 ^ 24 -> Z.abs b < 2 ^ 24 -> Z.abs (a - b) < 2 ^ 24 ->
  fsub (of_int a) (of_int b) = of_int (a - b).
Proof.
  intros Ha Hb Hab. rewrite !of_int_canon by assumption.
  destruct (Z.eq_dec a 0) as [->|Ha0]; destruct (Z.eq_dec b 0) as [->|Hb0].
  - reflexivity.
  - destruct b as [|p|p]; try lia; reflexivity.
  - rewrite Z.sub_0_r. destruct (canon_finite a) as (ma & -> & _); [lia|]. reflexivity.
  - pose proof (Zdigits2_small a ltac:(lia)) as Hda.
    pose proof (Zdigits2_small b ltac:(lia)) as Hdb.
    destruct (canon_finite a) as (ma & -> & Hma & _); [lia|].
    destruct (canon_finite b) as (mb & -> & Hmb & _); [lia|].
    unfold fsub, SFsub. cbv zeta.
    set (ez := Z.min (Zdigits2 a - 24) (Zdigits2 b - 24)).
    rewrite !shl_align_fst by lia. rewrite Hma, Hmb.
    rewrite <- !Z.mul_assoc, <- !Z.pow_add_r by lia.
    replace (24 - Zdigits2 a + (Zdigits2 a - 24 - ez)) with (- ez) by lia.
    replace (24 - Zdigits2 b + (Zdigits2 b - 24 - ez)) with (- ez) by lia.
    rewrite !cond_Zopp_abs, <- Z.mul_sub_distr_r.
    destruct (Z.eq_dec (a - b) 0) as [->|Hne]; [reflexivity|].
    rewrite <- (Z.opp_involutive ez) at 2.
    apply binary_normalize_scaled; lia.
Qed.

(** Quotient, product and sum of normal floats of moderate exponent are
    normal, with the exponent in a known window. *)
Lemma fdiv_normal sx mx ex sy my ey :
  normal24 mx -> normal24 my -> -60 <= ex - ey <= 60 ->
  exists m e, fdiv (S754_finite sx mx ex) (S754_finite sy my ey) = S754_finite (xorb sx sy) m e
    /\ normal24 m /\ ex - ey - 24 <= e <= ex - ey - 22
    /\ (Zpos my <= Zpos mx -> ex - ey - 23 <= e).
Proof.
  intros Hx Hy He. 
  assert (Hdx : Zdigits2 (Zpos mx) = 24) by (apply Zdigits2_bounds; [lia | exact Hx]).
  assert (Hdy : Zdigits2 (Zpos my) = 24) by (apply Zdigits2_bounds; [lia | exact Hy]).
  unfold normal24 in Hx, Hy.
  unfold fdiv, SFdiv, SFdiv_core_binary. cbv zeta. rewrite Hdx, Hdy. unfold fexp, emin.
  replace (Z.min (Z.max (24 + ex - (24 + ey) - 24) (3 - 128 - 24)) (ex - ey))
    with (ex - ey - 24) by lia.
  replace (ex - ey - (ex - ey - 24)) with 24 by lia.
  rewrite Z.shiftl_mul_pow2 by lia.
  pose proof (Z_div_mod (Zpos mx * 2 ^ 24) (Zpos my) ltac:(lia)) as Hdm.
  destruct (Z.div_eucl (Zpos mx * 2 ^ 24) (Zpos my)) as [q r].
  destruct Hdm as [Hq Hr].
  change (2 ^ 24) with 16777216 in *. change (2 ^ 23) with 8388608 in *.
  assert (Hq1 : 8388608 <= q < 33554432) by nia.
  assert (Hq2 : Zpos my <= Zpos mx -> 16777216 <= q) by (intros; nia).
  destruct q as [|pq|pq]; try lia.
  destruct (Z_lt_le_dec (Zpos pq) 16777216) as [Hlt|Hge].
  - destruct (binary_round_aux_normal (xorb sx sy) pq (ex - ey - 24)
                (new_location (Zpos my) r) 24) as (m & e & -> & Hm & Hee); try lia.
    { apply digits2_pos_bounds. change (2 ^ (24 - 1)) with 8388608.
      change (2 ^ 24) with 16777216. lia. }
    exists m, e. split; [reflexivity|]. split; [exact Hm|]. lia.
  - destruct (binary_round_aux_normal (xorb sx sy) pq (ex - ey - 24)
                (new_location (Zpos my) r) 25) as (m & e & -> & Hm & Hee); try lia.
    { apply digits2_pos_bounds. change (2 ^ (25 - 1)) with 16777216.
      change (2 ^ 25) with 33554432. lia. }
    exists m, e. split; [reflexivity|]. split; [exact Hm|]. lia.
Qed.

Lemma fmul_normal sx mx ex sy my ey :
  normal24 mx -> normal24 my -> -100 <= ex + ey <= 50 ->
  exists m e, fmul (S754_finite sx mx ex) (S754_finite sy my ey) = S754_finite (xorb sx sy) m e
    /\ normal24 m /\ ex + ey + 23 <= e <= ex + ey + 25.
Proof.
  intros Hx Hy He. unfold normal24 in Hx, Hy.
  change (2 ^ 24) with 16777216 in *. change (2 ^ 23) with 8388608 in *.
  unfold fmul, SFmul.
  assert (Hp : 2 ^ 46 <= Zpos (mx * my) < 2 ^ 48).
  { rewrite Pos2Z.inj_mul. change (2 ^ 46) with (8388608 * 8388608).
    change (2 ^ 48) with (16777216 * 16777216). nia. }
  destruct (Z_lt_le_dec (Zpos (mx * my)) (2 ^ 47)) as [Hlt|Hge].
  - destruct (binary_round_aux_normal (xorb sx sy) (mx * my) (ex + ey) loc_Exact 47)
      as (m & e & -> & Hm & Hee); try lia.
    { apply digits2_pos_bounds. change (47 - 1) with 46. lia. }
    exists m, e. split; [reflexivity|]. split; [exact Hm|]. lia.
  - destruct (binary_round_aux_normal (xorb sx sy) (mx * my) (ex + ey) loc_Exact 48)
      as (m & e & -> & Hm & Hee); try lia.
    { apply digits2_pos_bounds. change (48 - 1) with 47. lia. }
    exists m, e. split; [reflexivity|]. split; [exact Hm|]. lia.
Qed.

Lemma binary_round_noshift s ps ez ds :
  Zpos (digits2_pos ps) = ds -> 24 <= ds -> -149 <= ez ->
  binary_round 24 128 s ps ez = binary_round_aux 24 128 s (Zpos ps) ez loc_Exact.
Proof.
  intros Hd H24 He. unfold binary_round. rewrite Hd. unfold fexp, emin, shl_align.
  destruct (Z.max (ds + ez - 24) (3 - 128 - 24) - ez) eqn:E; try reflexivity. lia.
Qed.

Lemma fadd_normal_pos mx ex my ey :
  normal24 mx -> normal24 my -> -100 <= ex <= 50 -> -100 <= ey <= 50 ->
  exists m e, fadd (S754_finite false mx ex) (S754_finite false my ey) = S754_finite false m e
    /\ normal24 m /\ e <= Z.max ex ey + 2.
Proof.
  intros Hx Hy Hex Hey. unfold normal24 in Hx, Hy.
  unfold fadd, SFadd. cbv zeta. set (ez := Z.min ex ey).
  rewrite !shl_align_fst by lia. cbn [cond_Zopp].
  set (M := Z.max ex ey).
  assert (Px : 1 <= 2 ^ (ex - ez)) by (apply (Z.pow_le_mono_r 2 0); lia).
  assert (Py : 1 <= 2 ^ (ey - ez)) by (apply (Z.pow_le_mono_r 2 0); lia).
  assert (PM : 1 <= 2 ^ (M - ez)) by (apply (Z.pow_le_mono_r 2 0); lia).
  assert (Lx : 2 ^ (ex - ez) <= 2 ^ (M - ez)) by (apply Z.pow_le_mono_r; lia).
  assert (Ly : 2 ^ (ey - ez) <= 2 ^ (M - ez)) by (apply Z.pow_le_mono_r; lia).
  set (S := Zpos mx * 2 ^ (ex - ez) + Zpos my * 2 ^ (ey - ez)).
  assert (HS : 2 ^ 23 <= S < 2 ^ (25 + (M - ez))).
  { rewrite Z.pow_add_r by lia. change (2 ^ 25) with (2 * 2 ^ 24). unfold S. nia. }
  destruct S as [|ps|ps] eqn:ES; try lia. cbn [binary_normalize].
  set (ds := Zpos (digits2_pos ps)).
  pose proof (proj1 (digits2_pos_bounds ps ds) eq_refl) as Hb.
  assert (H24 : 24 <= ds).
  { destruct (Z_lt_le_dec ds 24) as [Hc|]; [|lia].
    assert (2 ^ ds <= 2 ^ 23) by (apply Z.pow_le_mono_r; lia). lia. }
  assert (Hup : ds <= 25 + (M - ez)).
  { destruct (Z_lt_le_dec (25 + (M - ez)) ds) as [Hc|]; [|lia].
    assert (2 ^ (25 + (M - ez)) <= 2 ^ (ds - 1)) by (apply Z.pow_le_mono_r; lia). lia. }
  rewrite (binary_round_noshift false ps ez ds) by (try reflexivity; lia).
  destruct (binary_round_aux_normal false ps ez loc_Exact ds)
    as (m & e & -> & Hm & Hee); try lia.
  exists m, e. split; [reflexivity|]. split; [exact Hm|]. lia.
Qed.

(* ====================================================================== *)
(** * Sampler: insertion sort and median *)
(* ====================================================================== *)

Lemma lookup_total_middle (p : list Z) x rest : (p ++ x :: rest) !!! length p = x.
Proof. apply list_lookup_total_middle. reflexivity. Qed.

Lemma insert_middle (p : list Z) x y rest :
  <[length p := y]> (p ++ x :: rest) = p ++ y :: rest.
Proof. rewrite insert_app_r_alt by lia. rewrite Nat.sub_diag. reflexivity. Qed.

(** Run on a prefix [p] followed by the slot being filled, the inner loop
    splits [p] into the part [q1] that stays and the part [q2], all above
    [key], that moves one place right; the freed slot is at [length q1]. *)
Lemma shift_right_spec key (p : list Z) : forall x rest,
  exists q1 q2 y, p = q1 ++ q2 /\ Forall (fun a => key < a) q2
    /\ (forall a, last q1 = Some a -> a <= key)
    /\ shift_right (p ++ x :: rest) key (length p) = (q1 ++ y :: q2 ++ rest, length q1).
Proof.
  induction p as [|a p IH] using rev_ind; intros x rest.
  - exists [], [], x. simpl. repeat split; auto. intros a Ha. discriminate.
  - rewrite length_app. simpl length. rewrite Nat.add_1_r. cbn [shift_right].
    rewrite <- app_assoc. cbn [app].
    rewrite lookup_total_middle.
    destruct (Z.ltb_spec key a) as [Hlt|Hge].
    + replace (<[S (length p) := a]> (p ++ a :: x :: rest)) with (p ++ a :: a :: rest).
      2:{ rewrite insert_app_r_alt by lia.
          replace (S (length p) - length p)%nat with 1%nat by lia. reflexivity. }
      destruct (IH a (a :: rest)) as (q1 & q2 & y & Hp & Hq2 & Hq1 & Hs).
      exists q1, (q2 ++ [a]), y. split; [rewrite Hp, app_assoc; reflexivity|].
      split; [apply Forall_app; split; auto|]. split; [exact Hq1|].
      rewrite Hs. rewrite <- !app_assoc. reflexivity.
    + exists (p ++ [a]), [], x. split; [rewrite app_nil_r; reflexivity|].
      split; [constructor|]. split.
      * intros b Hb. rewrite last_snoc in Hb. injection Hb as <-. lia.
      * rewrite length_app. simpl. rewrite Nat.add_1_r, <- app_assoc. reflexivity.
Qed.

Lemma StronglySorted_insert_split key (q1 q2 : list Z) :
  StronglySorted Z.le (q1 ++ q2) -> Forall (fun a => key < a) q2 ->
  (forall a, last q1 = Some a -> a <= key) ->
  StronglySorted Z.le (q1 ++ key :: q2).
Proof.
  intros Hs Hq2 Hq1.
  apply StronglySorted_app in Hs as (Hcross & Hs1 & Hs2).
  apply StronglySorted_app_2; [| exact Hs1 |].
  - intros x1 x2 Hx1 Hx2.
    assert (Hk : x1 <= key).
    { destruct (last q1) as [a|] eqn:El.
      - specialize (Hq1 a eq_refl).
        apply last_Some in El. destruct El as [q1' ->].
        apply elem_of_app in Hx1. destruct Hx1 as [Hx1|Hx1].
        + pose proof (StronglySorted_app_1_elem_of _ _ _ x1 a Hs1 Hx1 ltac:(apply list_elem_of_here)). lia.
        + apply list_elem_of_singleton in Hx1. subst. lia.
      - apply last_None in El. subst. inversion Hx1. }
    apply elem_of_cons in Hx2. destruct Hx2 as [->|Hx2]; [exact Hk|].
    rewrite Forall_forall in Hq2. specialize (Hq2 x2 Hx2). lia.
  - apply StronglySorted_cons. split; [| exact Hs2].
    eapply Forall_impl; [exact Hq2|]. simpl. intros; lia.
Qed.

(** One round of the outer loop extends the sorted prefix by one. *)
Lemma insertion_step (p : list Z) key rest :
  StronglySorted Z.le p ->
  exists s, (let '(arr', j1) := shift_right (p ++ key :: rest) key (length p) in
             <[j1 := key]> arr') = s ++ rest
    /\ length s = S (length p) /\ StronglySorted Z.le s /\ s ≡ₚ p ++ [key].
Proof.
  intros Hs.
  destruct (shift_right_spec key p key rest) as (q1 & q2 & y & Hp & Hq2 & Hq1 & ->).
  exists (q1 ++ key :: q2). rewrite insert_middle, <- app_assoc. split; [reflexivity|].
  subst p. split; [rewrite !length_app; simpl; lia|]. split.
  - apply StronglySorted_insert_split; assumption.
  - rewrite <- app_assoc. apply Permutation_app_head.
    apply Permutation_cons_append.
Qed.

(** Loop invariant of the outer loop: the first [i] elements are sorted and
    the array is a permutation of the input. *)
Lemma insertion_pass_spec fuel : forall i (arr : list Z),
  (i + fuel)%nat = length arr -> StronglySorted Z.le (take i arr) ->
  StronglySorted Z.le (insertion_pass fuel i arr) /\ insertion_pass fuel i arr ≡ₚ arr.
Proof.
  induction fuel as [|fuel IH]; intros i arr Hlen Hs; cbn [insertion_pass].
  - rewrite take_ge in Hs by lia. split; [exact Hs | reflexivity].
  - assert (Hi : (i < length arr)%nat) by lia.
    destruct (drop i arr) as [|key rest] eqn:Ed.
    { apply (f_equal length) in Ed. rewrite length_drop in Ed. simpl in Ed. lia. }
    assert (Hli : length (take i arr) = i) by (rewrite length_take; lia).
    pose proof (take_drop i arr) as Htd. rewrite Ed in Htd.
    revert Hs Hli Htd. generalize (take i arr). intros p Hs Hli Htd.
    subst arr i. clear Ed Hi.
    rewrite lookup_total_middle.
    destruct (insertion_step p key rest Hs) as (s & Heq & Hls & Hss & Hps).
    destruct (shift_right (p ++ key :: rest) key (length p)) as [arr' j1].
    rewrite Heq.
    assert (Harr : p ++ key :: rest ≡ₚ s ++ rest).
    { rewrite Hps, <- app_assoc. reflexivity. }
    destruct (IH (S (length p)) (s ++ rest)) as [H1 H2].
    + rewrite <- (Permutation_length Harr). lia.
    + rewrite take_app_length' by lia. exact Hss.
    + split; [exact H1|]. rewrite H2. symmetry. exact Harr.
Qed.

Lemma insertionSort_sorted_perm (arr : list Z) :
  StronglySorted Z.le (insertionSort arr (length arr)) /\ insertionSort arr (length arr) ≡ₚ arr.
Proof.
  unfold insertionSort. destruct arr as [|x arr].
  - simpl. split; [constructor | reflexivity].
  - apply insertion_pass_spec.
    + simpl. lia.
    + simpl. rewrite take_0. repeat constructor.
Qed.

Lemma filter_none (P : Z -> Prop) `{!forall x, Decision (P x)} (l : list Z) :
  Forall (fun x => ~ P x) l -> filter P l = [].
Proof.
  induction 1 as [|x l Hx _ IH]; [reflexivity|].
  rewrite filter_cons_False by exact Hx. exact IH.
Qed.

(** The middle of a sorted list of odd length is its median. *)
Lemma sorted_middle_is_median (s : list Z) (h : nat) :
  StronglySorted Z.le s -> length s = (2 * h + 1)%nat -> is_median (s !!! h) s.
Proof.
  intros Hs Hlen.
  assert (Hh : (h < length s)%nat) by lia.
  pose proof (list_lookup_lookup_total_lt s h Hh) as Hv.
  set (v := s !!! h) in *.
  pose proof (take_drop_middle s h v Hv) as Hsplit.
  assert (Hl1 : length (take h s) = h) by (rewrite length_take; lia).
  assert (Hl2 : length (drop (S h) s) = h) by (rewrite length_drop; lia).
  rewrite <- Hsplit in Hs.
  apply StronglySorted_app in Hs as (Hcross & _ & Hs2).
  apply StronglySorted_cons in Hs2 as [Hright _].
  split; [| split].
  - apply list_elem_of_lookup. eauto.
  - unfold count_below. rewrite <- Hsplit at 1. rewrite filter_app, length_app.
    rewrite (filter_none (fun x => x < v) (v :: drop (S h) s)).
    + pose proof (length_filter (fun x => x < v) (take h s)). simpl. lia.
    + constructor; [lia|]. eapply Forall_impl; [exact Hright|]. simpl. intros; lia.
  - unfold count_above. rewrite <- Hsplit at 1.
    change (v :: drop (S h) s) with ([v] ++ drop (S h) s).
    rewrite !filter_app, !length_app.
    rewrite (filter_none (fun x => v < x) (take h s)).
    + rewrite (filter_none (fun x => v < x) [v]) by (repeat constructor; lia).
      pose proof (length_filter (fun x => v < x) (drop (S h) s)). simpl. lia.
    + apply Forall_forall. intros x Hx.
      specialize (Hcross x v Hx ltac:(apply list_elem_of_here)). lia.
Qed.

Lemma is_median_perm v (l l' : list Z) : l ≡ₚ l' -> is_median v l -> is_median v l'.
Proof.
  intros Hp (Hin & Hlo & Hhi). unfold is_median, count_below, count_above in *.
  rewrite <- Hp. auto.
Qed.

Lemma insertionSort_median (arr : list Z) (h : nat) :
  length arr = (2 * h + 1)%nat ->
  let v := insertionSort arr (length arr) !!! h in
  is_median v arr /\ v = merge_sort Z.le arr !!! h.
Proof.
  intros Hlen v.
  destruct (insertionSort_sorted_perm arr) as [Hs Hp].
  split.
  - apply (is_median_perm _ _ _ Hp). apply sorted_middle_is_median; [exact Hs|].
    rewrite (Permutation_length Hp). exact Hlen.
  - unfold v. f_equal. apply (StronglySorted_unique Z.le); [exact Hs| |].
    + apply StronglySorted_merge_sort; apply _.
    + rewrite Hp. symmetry. apply merge_sort_Permutation.
Qed.

Lemma count_cover (P Q : Z -> Prop) `{!forall x, Decision (P x)} `{!forall x, Decision (Q x)}
    (l : list Z) :
  (forall x, P x \/ Q x) -> (length l <= length (filter P l) + length (filter Q l))%nat.
Proof.
  intros Hpq. induction l as [|x l IH]; [simpl; lia|].
  rewrite !filter_cons. specialize (Hpq x).
  destruct (decide (P x)), (decide (Q x)); simpl; try lia. tauto.
Qed.

(** There is at most one median. *)
Lemma is_median_unique v w (l : list Z) : is_median v l -> is_median w l -> v = w.
Proof.
  intros (_ & Hvb & Hva) (_ & Hwb & Hwa). unfold count_below, count_above in *.
  destruct (Z.lt_total v w) as [Hlt|[Heq|Hgt]]; [exfalso | exact Heq | exfalso].
  - assert (Hc : forall x, v < x \/ x < w) by (intros; lia).
    pose proof (count_cover (fun x => v < x) (fun x => x < w) l Hc). lia.
  - assert (Hc : forall x, w < x \/ x < v) by (intros; lia).
    pose proof (count_cover (fun x => w < x) (fun x => x < v) l Hc). lia.
Qed.

Lemma burst_samples_length adc : length (burst_samples adc) = MEDIAN_SAMPLE_COUNT.
Proof. unfold burst_samples. rewrite length_fmap, length_seq. reflexivity. Qed.

Lemma burst_samples_u16 adc x : x ∈ burst_samples adc -> is_u16 x.
Proof.
  unfold burst_samples. intros Hx. apply list_elem_of_fmap in Hx as (i & -> & _).
  unfold is_u16, wrap16. apply Z.mod_pos_bound. lia.
Qed.

Lemma readTurbidityMedian_is_median adc :
  is_median (readTurbidityMedian adc) (burst_samples adc).
Proof.
  unfold readTurbidityMedian. fold (burst_samples adc).
  rewrite <- (burst_samples_length adc) at 1.
  apply (insertionSort_median (burst_samples adc) 15).
  rewrite burst_samples_length. reflexivity.
Qed.

Lemma readTurbidityMedian_u16 adc : is_u16 (readTurbidityMedian adc).
Proof.
  apply (burst_samples_u16 adc). apply (readTurbidityMedian_is_median adc).
Qed.

(** C4: for every array of odd length K, insertionSort leaves a sorted
    permutation of the samples, and its middle element (index K/2) is the
    median of the sample multiset, duplicates included: it is what a
    reference sort has in the middle, and it is the only value with fewer
    than half of the samples below it and fewer than half above.  The
    firmware's burst of K = 31 readings is one such array. *)
Theorem sampler_returns_median (arr : list Z) (adc : nat -> Z) :
  Nat.Odd (length arr) ->
  let sorted := insertionSort arr (length arr) in
  let v := sorted !!! (length arr / 2)%nat in
  StronglySorted Z.le sorted /\ sorted ≡ₚ arr
  /\ v = merge_sort Z.le arr !!! (length arr / 2)%nat
  /\ is_median v arr
  /\ (forall w, is_median w arr -> w = v)
  /\ Nat.Odd MEDIAN_SAMPLE_COUNT
  /\ readTurbidityMedian adc
     = merge_sort Z.le (burst_samples adc) !!! (MEDIAN_SAMPLE_COUNT / 2)%nat
  /\ is_median (readTurbidityMedian adc) (burst_samples adc).
Proof.
  intros [h Hh]. cbv zeta.
  assert (Hdiv : (length arr / 2)%nat = h).
  { rewrite Hh. replace (2 * h + 1)%nat with (1 + h * 2)%nat by lia.
    rewrite Nat.div_add by lia. reflexivity. }
  rewrite Hdiv.
  destruct (insertionSort_sorted_perm arr) as [Hs Hp].
  destruct (insertionSort_median arr h Hh) as [Hm Hr].
  split; [exact Hs|]. split; [exact Hp|]. split; [exact Hr|]. split; [exact Hm|].
  split; [intros w Hw; apply (is_median_unique w _ arr Hw Hm)|].
  split; [exists 15%nat; reflexivity|].
  split; [|apply readTurbidityMedian_is_median].
  unfold readTurbidityMedian. fold (burst_samples adc).
  rewrite <- (burst_samples_length adc) at 1.
  apply (insertionSort_median (burst_samples adc) 15).
  rewrite burst_samples_length. reflexivity.
Qed.

Lemma sampler_returns_median_witness :
  insertionSort [5; 3; 5; 1; 5] 5 !!! 2%nat = 5 /\ is_median 5 [5; 3; 5; 1; 5].
Proof.
  assert (Hodd : Nat.Odd (length [5; 3; 5; 1; 5])) by (exists 2%nat; reflexivity).
  destruct (sampler_returns_median [5; 3; 5; 1; 5] (fun _ => 0) Hodd)
    as (_ & _ & _ & Hm & _).
  split; [reflexivity | exact Hm].
Defined.

(* ====================================================================== *)
(** * Calibration store *)
(* ====================================================================== *)

Lemma byte_val_range b : 0 <= byte_val b < 256.
Proof. unfold byte_val. pose proof (Byte.to_N_bounded b). lia. Qed.

Lemma byte_val_of z : byte_val (byte_of z) = z mod 256.
Proof.
  unfold byte_val, byte_of.
  pose proof (Z.mod_pos_bound z 256 ltac:(lia)) as Hr.
  destruct (Byte.of_N (Z.to_N (z mod 256))) as [b|] eqn:E.
  - apply Byte.to_of_N in E. rewrite E. lia.
  - apply Byte.of_N_None_iff in E. lia.
Qed.

Lemma read16_range e a : 0 <= read16 e a < 65536.
Proof.
  unfold read16. pose proof (byte_val_range (e a)). pose proof (byte_val_range (e (S a))). lia.
Qed.

Lemma read16_write16 a v e : read16 (write16 a v e) a = v mod 65536.
Proof.
  unfold read16, write16.
  rewrite fn_lookup_insert, fn_lookup_insert_ne, fn_lookup_insert by lia.
  rewrite !byte_val_of. change 65536 with (256 * 256).
  rewrite Z.rem_mul_r by lia. reflexivity.
Qed.

Lemma read16_write16_other a a' v e :
  (a' + 1 < a \/ a + 1 < a')%nat -> read16 (write16 a v e) a' = read16 e a'.
Proof.
  intros H. unfold read16, write16. rewrite !fn_lookup_insert_ne by lia. reflexivity.
Qed.

Lemma EEPROM_get_put addr d e :
  EEPROM_get (EEPROM_put addr d e) addr
  = mkCalData (magic d mod 4294967296) (clearRaw d mod 65536)
              (cloudyRaw d mod 65536) (crc d mod 65536).
Proof.
  unfold EEPROM_get, EEPROM_put, read32, write32.
  repeat (rewrite read16_write16 || rewrite read16_write16_other by lia).
  f_equal. change 4294967296 with (65536 * 65536).
  rewrite (Z.rem_mul_r (magic d)) by lia. reflexivity.
Qed.

Lemma EEPROM_get_fields e addr :
  0 <= magic (EEPROM_get e addr) < 4294967296 /\ is_u16 (clearRaw (EEPROM_get e addr))
  /\ is_u16 (cloudyRaw (EEPROM_get e addr)) /\ is_u16 (crc (EEPROM_get e addr)).
Proof.
  unfold EEPROM_get, read32, is_u16. cbn [magic clearRaw cloudyRaw crc].
  pose proof (read16_range e addr). pose proof (read16_range e (addr + 2)).
  pose proof (read16_range e (addr + 4)). pose proof (read16_range e (addr + 6)).
  pose proof (read16_range e (addr + 8)). lia.
Qed.

Lemma checksum16_u16 d : is_u16 (checksum16 d).
Proof. unfold checksum16, is_u16, wrap16. apply Z.mod_pos_bound. lia. Qed.

Lemma checksum16_crc_irrelevant m c1 c2 k k' :
  checksum16 (mkCalData m c1 c2 k) = checksum16 (mkCalData m c1 c2 k').
Proof. reflexivity. Qed.

(** What [saveCalibration] commits, for any pair of arguments. *)
Lemma saveCalibration_commits clear cloudy st :
  is_u16 clear -> is_u16 cloudy ->
  let st' := saveCalibration clear cloudy st in
  cal st' = mkCalData CAL_MAGIC clear cloudy (checksum16 (mkCalData CAL_MAGIC clear cloudy 0))
  /\ EEPROM_get (eeprom st') EEPROM_ADDR = cal st'
  /\ calLoaded st' = true /\ calStage st' = calStage st
  /\ magic (cal st') = CAL_MAGIC /\ crc (cal st') = checksum16 (cal st').
Proof.
  intros Hc Hd. unfold saveCalibration. cbv zeta. cbn [magic clearRaw cloudyRaw crc].
  unfold set_calLoaded, set_eeprom, set_cal.
  cbn [cal calLoaded eeprom calStage magic crc clearRaw cloudyRaw].
  split; [reflexivity|]. split; [|repeat split].
  rewrite EEPROM_get_put. cbn [magic clearRaw cloudyRaw crc].
  pose proof (checksum16_u16 (mkCalData CAL_MAGIC clear cloudy (crc (cal st)))) as Hk.
  unfold is_u16 in *. change (CAL_MAGIC mod 4294967296) with CAL_MAGIC.
  rewrite !Z.mod_small by lia. reflexivity.
Qed.

(** The calibration is reported as loaded exactly when the stored record
    is valid. *)
Lemma loadCalibration_cal st : cal (loadCalibration st) = EEPROM_get (eeprom st) EEPROM_ADDR.
Proof.
  unfold loadCalibration. cbv zeta.
  case_ifs; reflexivity.
Qed.

Lemma loadCalibration_loaded st :
  calLoaded (loadCalibration st) = true <-> cal_valid (EEPROM_get (eeprom st) EEPROM_ADDR).
Proof.
  unfold loadCalibration, cal_valid. cbv zeta.
  set (c := EEPROM_get (eeprom st) EEPROM_ADDR).
  change (cal (set_cal c st)) with c.
  destruct (Z.eqb_spec (magic c) CAL_MAGIC) as [Hm|Hm]; cbn [negb].
  2:{ split; [discriminate | tauto]. }
  destruct (Z.eqb_spec (crc c) (checksum16 c)) as [Hk|Hk]; cbn [negb].
  2:{ split; [discriminate | tauto]. }
  destruct (Z.eqb_spec (clearRaw c) (cloudyRaw c)) as [Hd|Hd].
  - split; [discriminate | tauto].
  - split; [tauto | reflexivity].
Qed.

(** C3: for every EEPROM content, loadCalibration reports the calibration as
    loaded if and only if the stored record has the magic signature, a
    matching checksum and two different reference values; otherwise it
    reports not loaded, in particular for a record with equal references
    whose signature and checksum are valid. *)
Theorem loadCalibration_loaded_iff_valid (st : State) :
  let rec := EEPROM_get (eeprom st) EEPROM_ADDR in
  let st' := loadCalibration st in
  cal st' = rec
  /\ (calLoaded st' = true <->
        magic rec = CAL_MAGIC /\ crc rec = checksum16 rec /\ clearRaw rec <> cloudyRaw rec)
  /\ (calLoaded st' = false <->
        magic rec <> CAL_MAGIC \/ crc rec <> checksum16 rec \/ clearRaw rec = cloudyRaw rec)
  /\ (magic rec = CAL_MAGIC -> crc rec = checksum16 rec ->
        clearRaw rec = cloudyRaw rec -> calLoaded st' = false).
Proof.
  cbv zeta. pose proof (loadCalibration_loaded st) as H. unfold cal_valid in H.
  split; [apply loadCalibration_cal|]. split; [exact H|].
  destruct (calLoaded (loadCalibration st)); split.
  - split; [discriminate|]. intros Hc. destruct H as [H _]. specialize (H eq_refl). lia.
  - intros _ _ Hd. destruct H as [H _]. specialize (H eq_refl). lia.
  - split; [intros _ | reflexivity].
    destruct (Z.eq_dec (magic (EEPROM_get (eeprom st) EEPROM_ADDR)) CAL_MAGIC); [|tauto].
    destruct (Z.eq_dec (crc (EEPROM_get (eeprom st) EEPROM_ADDR))
                       (checksum16 (EEPROM_get (eeprom st) EEPROM_ADDR))); [|tauto].
    destruct (Z.eq_dec (clearRaw (EEPROM_get (eeprom st) EEPROM_ADDR))
                       (cloudyRaw (EEPROM_get (eeprom st) EEPROM_ADDR))); [tauto|].
    destruct H as [_ H]. discriminate H. tauto.
  - reflexivity.
Qed.

Lemma loadCalibration_loaded_iff_valid_witness :
  calLoaded (loadCalibration (saveCalibration 500 500 (power_on blank_eeprom))) = false.
Proof.
  apply (proj2 (proj2 (proj2 (loadCalibration_loaded_iff_valid
           (saveCalibration 500 500 (power_on blank_eeprom)))))); reflexivity.
Defined.

(** C2 (the code departs from it): saveCalibration commits whatever pair it
    is given.  With twice the same value the committed record has a valid
    signature and checksum but equal references, is observable as loaded,
    and is the very record loadCalibration rejects after a restart. *)
Theorem saveCalibration_commits_degenerate :
  let st := saveCalibration 500 500 (setup (power_on blank_eeprom)) in
  calLoaded st = true
  /\ EEPROM_get (eeprom st) EEPROM_ADDR = cal st
  /\ magic (cal st) = CAL_MAGIC /\ crc (cal st) = checksum16 (cal st)
  /\ clearRaw (cal st) = 500 /\ cloudyRaw (cal st) = 500
  /\ ~ cal_valid (cal st)
  /\ calLoaded (loadCalibration st) = false.
Proof.
  cbv zeta. repeat split; try reflexivity.
  intros (_ & _ & Hne). apply Hne. reflexivity.
Qed.

(** ** Classifier *)

(** C8: classifyStatus is a total function of the index with thresholds 30
    and 70: below 30 is CLEAR, from 30 up to below 70 is MODERATE, and 70
    or more is TURBID; so 29 is CLEAR, 30 and 69 are MODERATE, 70 is
    TURBID. *)
Theorem classifyStatus_bands (idx : Z) :
  (idx < 30 -> classifyStatus idx = "CLEAR")
  /\ (30 <= idx < 70 -> classifyStatus idx = "MODERATE")
  /\ (70 <= idx -> classifyStatus idx = "TURBID")
  /\ classifyStatus 29 = "CLEAR" /\ classifyStatus 30 = "MODERATE"
  /\ classifyStatus 69 = "MODERATE" /\ classifyStatus 70 = "TURBID".
Proof.
  unfold classifyStatus, THRESH_CLEAR, THRESH_MODERATE.
  repeat split; try reflexivity; intros H;
    destruct (Z.ltb_spec idx 30); destruct (Z.ltb_spec idx 70); try reflexivity; lia.
Qed.

Lemma classifyStatus_bands_witness :
  classifyStatus 12 = "CLEAR" /\ classifyStatus 45 = "MODERATE" /\ classifyStatus 100 = "TURBID".
Proof.
  split; [|split].
  - apply (proj1 (classifyStatus_bands 12)). lia.
  - apply (proj1 (proj2 (classifyStatus_bands 45))). lia.
  - apply (proj1 (proj2 (proj2 (classifyStatus_bands 100)))). lia.
Defined.

(** ** LED *)

Lemma digitalWrite_other pin level st p :
  p <> pin -> pinLevels (digitalWrite pin level st) !! p = pinLevels st !! p.
Proof. intros H. unfold digitalWrite. cbn [pinLevels]. apply lookup_insert_ne. auto. Qed.

Lemma updateLed_other PIN_LED idx now st p :
  p <> PIN_LED -> pinLevels (updateLed PIN_LED idx now st) !! p = pinLevels st !! p.
Proof.
  intros H. unfold updateLed.
  destruct (idx <? THRESH_CLEAR); [apply digitalWrite_other; exact H|].
  destruct (idx <? THRESH_MODERATE); [|apply digitalWrite_other; exact H].
  destruct (700 <=? wrap32 (now - lastToggle st)); [|reflexivity].
  rewrite digitalWrite_other by exact H. reflexivity.
Qed.

Lemma updateLed_pinModes PIN_LED idx now st :
  pinModes (updateLed PIN_LED idx now st) = pinModes st.
Proof.
  unfold updateLed.
  destruct (idx <? THRESH_CLEAR); [reflexivity|].
  destruct (idx <? THRESH_MODERATE); [|reflexivity].
  destruct (700 <=? wrap32 (now - lastToggle st)); reflexivity.
Qed.

Lemma setup_status_led st :
  pinModes (setup st) !! STATUS_LED_PIN = Some OUTPUT
  /\ pinLevels (setup st) !! STATUS_LED_PIN = Some false.
Proof.
  unfold setup, loadCalibration. cbv zeta.
  case_ifs;
    cbn; split; apply lookup_insert_eq.
Qed.

Lemma run_led_other PIN_LED calls : forall st p,
  p <> PIN_LED -> pinLevels (run_led PIN_LED calls st) !! p = pinLevels st !! p.
Proof.
  unfold run_led. induction calls as [|c calls IH]; intros st p H; [reflexivity|].
  cbn [foldl]. rewrite IH by exact H. apply updateLed_other. exact H.
Qed.

(** C10: updateLed drives no pin but PIN_LED.  setup makes STATUS_LED_PIN
    (pin 8) an output and drives it low; PIN_LED being another pin, every
    call of updateLed, whatever the index, leaves the latch of pin 8 as it
    was, so that it stays low for ever. *)
Theorem updateLed_never_drives_status_led (PIN_LED : Z) :
  PIN_LED <> STATUS_LED_PIN ->
  forall (st : State) (idx now : Z),
    (forall p, p <> PIN_LED ->
       pinLevels (updateLed PIN_LED idx now st) !! p = pinLevels st !! p)
    /\ pinLevels (updateLed PIN_LED idx now st) !! STATUS_LED_PIN
       = pinLevels st !! STATUS_LED_PIN
    /\ pinModes (updateLed PIN_LED idx now st) = pinModes st
    /\ pinModes (setup st) !! STATUS_LED_PIN = Some OUTPUT
    /\ forall calls, pinLevels (run_led PIN_LED calls (setup st)) !! STATUS_LED_PIN
                     = Some false.
Proof.
  intros Hne st idx now. split; [|split; [|split; [|split]]].
  - intros p Hp. apply updateLed_other. exact Hp.
  - apply updateLed_other. auto.
  - apply updateLed_pinModes.
  - apply setup_status_led.
  - intros calls. rewrite run_led_other by auto. apply setup_status_led.
Qed.

Lemma updateLed_never_drives_status_led_witness :
  pinLevels (updateLed 13 85 1000 (setup (power_on blank_eeprom))) !! STATUS_LED_PIN
  = Some false.
Proof.
  destruct (updateLed_never_drives_status_led 13 ltac:(discriminate)
              (power_on blank_eeprom) 85 1000) as (_ & _ & _ & _ & H).
  exact (H [(85, 1000)]).
Defined.

(** ** Calibration flow *)

Lemma loop_calibration_idle adc st :
  calLoaded st = true \/ calStage st <> CAL_NONE -> loop_calibration false adc st = st.
Proof.
  intros H. unfold loop_calibration.
  destruct (calLoaded st), (calStage st); cbn; try reflexivity; destruct H; congruence.
Qed.

Lemma loop_calibration_forced adc st :
  calLoaded st = false -> calStage st = CAL_NONE ->
  loop_calibration false adc st = set_calStage CAL_WAIT_CLEAR st.
Proof. intros H1 H2. unfold loop_calibration. rewrite H1, H2. reflexivity. Qed.

Lemma run_calibration_idle inputs : forall st,
  no_press inputs -> calLoaded st = true \/ calStage st <> CAL_NONE ->
  run_calibration inputs st = st.
Proof.
  unfold run_calibration, no_press.
  induction inputs as [|[b adc] inputs IH]; intros st Hq Hs; [reflexivity|].
  apply Forall_cons in Hq as [Hb Hq]. simpl in Hb. subst b. cbn [foldl fst snd].
  rewrite loop_calibration_idle by exact Hs. apply IH; assumption.
Qed.

Lemma run_calibration_forced inputs st :
  no_press inputs -> inputs <> [] -> calLoaded st = false -> calStage st = CAL_NONE ->
  run_calibration inputs st = set_calStage CAL_WAIT_CLEAR st.
Proof.
  intros Hq Hne H1 H2. destruct inputs as [|[b adc] inputs]; [congruence|].
  apply Forall_cons in Hq as [Hb Hq]. simpl in Hb. subst b.
  unfold run_calibration. cbn [foldl fst snd].
  rewrite loop_calibration_forced by assumption.
  apply (run_calibration_idle inputs); [exact Hq|]. right. discriminate.
Qed.

(** The first long press of an uncalibrated device captures the clear
    reference in RAM only. *)
Lemma first_press adc st :
  calLoaded st = false -> calStage st = CAL_NONE \/ calStage st = CAL_WAIT_CLEAR ->
  let st' := loop_calibration true adc st in
  calStage st' = CAL_WAIT_CLOUDY /\ clearRaw (cal st') = readTurbidityMedian adc
  /\ calLoaded st' = false /\ eeprom st' = eeprom st.
Proof.
  intros H1 H2. unfold loop_calibration. rewrite H1.
  destruct H2 as [H2|H2]; rewrite H2; cbn; rewrite ?H2; cbn; rewrite ?H1; auto.
Qed.

Lemma second_press adc st :
  calStage st = CAL_WAIT_CLOUDY -> is_u16 (clearRaw (cal st)) ->
  let st' := loop_calibration true adc st in
  calStage st' = CAL_DONE /\ calLoaded st' = true
  /\ cal st' = mkCalData CAL_MAGIC (clearRaw (cal st)) (readTurbidityMedian adc)
                 (checksum16 (mkCalData CAL_MAGIC (clearRaw (cal st))
                                        (readTurbidityMedian adc) 0))
  /\ EEPROM_get (eeprom st') EEPROM_ADDR = cal st'.
Proof.
  intros H1 H2. unfold loop_calibration. rewrite H1.
  assert (E : (if negb (calLoaded st) && false then set_calStage CAL_WAIT_CLEAR st else st) = st)
    by (rewrite andb_false_r; reflexivity).
  rewrite E, H1.
  destruct (saveCalibration_commits (clearRaw (cal st)) (readTurbidityMedian adc) st H2
              (readTurbidityMedian_u16 adc)) as (Hc & He & Hl & _).
  cbv zeta. unfold set_calStage at 1 2 3 4. cbn [calStage calLoaded cal eeprom].
  auto.
Qed.

Lemma setup_uncalibrated e :
  ~ cal_valid (EEPROM_get e EEPROM_ADDR) ->
  calLoaded (setup (power_on e)) = false /\ calStage (setup (power_on e)) = CAL_NONE
  /\ eeprom (setup (power_on e)) = e.
Proof.
  intros Hinv. split; [|split].
  - apply not_true_is_false. intros Hc. apply Hinv.
    unfold setup in Hc. cbv zeta in Hc. apply loadCalibration_loaded in Hc. exact Hc.
  - unfold setup, loadCalibration. cbv zeta.
    case_ifs; reflexivity.
  - unfold setup, loadCalibration. cbv zeta.
    case_ifs; reflexivity.
Qed.

(** C9: on a device whose EEPROM holds no valid calibration the flow is
    forced to WAIT_CLEAR; two long presses, with any number of iterations
    without a press before, between and after them, take the stage through
    WAIT_CLEAR, WAIT_CLOUDY and DONE; the EEPROM is written at the second
    press only and then holds a record whose clearRaw is the median sampled
    at the first press and whose cloudyRaw is the median sampled at the
    second. *)
Theorem calibration_flow_two_presses
    (e : nat -> byte) (quiet1 quiet2 quiet3 : list (bool * (nat -> Z)))
    (adc1 adc2 : nat -> Z) :
  ~ cal_valid (EEPROM_get e EEPROM_ADDR) ->
  no_press quiet1 -> no_press quiet2 -> no_press quiet3 ->
  let st0 := setup (power_on e) in
  let st1 := run_calibration quiet1 st0 in
  let st2 := loop_calibration true adc1 st1 in
  let st3 := run_calibration quiet2 st2 in
  let st4 := loop_calibration true adc2 st3 in
  let st5 := run_calibration quiet3 st4 in
  let rec := EEPROM_get (eeprom st5) EEPROM_ADDR in
  calLoaded st0 = false /\ calStage st0 = CAL_NONE
  /\ (quiet1 <> [] -> calStage st1 = CAL_WAIT_CLEAR)
  /\ calStage st2 = CAL_WAIT_CLOUDY /\ calStage st3 = CAL_WAIT_CLOUDY
  /\ eeprom st3 = e
  /\ calStage st4 = CAL_DONE /\ calStage st5 = CAL_DONE
  /\ calLoaded st5 = true /\ cal st5 = rec
  /\ magic rec = CAL_MAGIC /\ crc rec = checksum16 rec
  /\ clearRaw rec = readTurbidityMedian adc1
  /\ cloudyRaw rec = readTurbidityMedian adc2.
Proof.
  intros Hinv Hq1 Hq2 Hq3. cbv zeta.
  destruct (setup_uncalibrated e Hinv) as (Hl0 & Hs0 & He0).
  set (st0 := setup (power_on e)) in *.
  (* before the first press *)
  assert (H1 : calLoaded (run_calibration quiet1 st0) = false
               /\ (calStage (run_calibration quiet1 st0) = CAL_NONE
                   \/ calStage (run_calibration quiet1 st0) = CAL_WAIT_CLEAR)
               /\ eeprom (run_calibration quiet1 st0) = e
               /\ (quiet1 <> [] -> calStage (run_calibration quiet1 st0) = CAL_WAIT_CLEAR)).
  { destruct quiet1 as [|i quiet1].
    - unfold run_calibration. cbn [foldl]. repeat split; auto. congruence.
    - rewrite run_calibration_forced by (auto; discriminate).
      unfold set_calStage. cbn [calLoaded calStage eeprom]. repeat split; auto. }
  destruct H1 as (Hl1 & Hs1 & He1 & Hw1).
  set (st1 := run_calibration quiet1 st0) in *.
  (* first press *)
  destruct (first_press adc1 st1 Hl1 Hs1) as (Hs2 & Hc2 & Hl2 & He2).
  set (st2 := loop_calibration true adc1 st1) in *.
  (* waiting for the second press *)
  rewrite (run_calibration_idle quiet2 st2) by (auto; right; congruence).
  (* second press *)
  assert (Hu : is_u16 (clearRaw (cal st2))) by (rewrite Hc2; apply readTurbidityMedian_u16).
  destruct (second_press adc2 st2 Hs2 Hu) as (Hs4 & Hl4 & Hc4 & He4).
  set (st4 := loop_calibration true adc2 st2) in *.
  rewrite (run_calibration_idle quiet3 st4) by (auto; left; exact Hl4).
  rewrite He4, Hc4, Hc2. cbn [magic clearRaw cloudyRaw crc].
  repeat split; auto; congruence.
Qed.

Lemma calibration_flow_two_presses_witness :
  let quiet := [(false, fun _ : nat => 0)] in
  let st5 := run_calibration quiet
               (loop_calibration true (fun _ => 300)
                  (run_calibration quiet
                     (loop_calibration true (fun _ => 900)
                        (run_calibration quiet (setup (power_on blank_eeprom)))))) in
  clearRaw (EEPROM_get (eeprom st5) EEPROM_ADDR) = readTurbidityMedian (fun _ => 900)
  /\ cloudyRaw (EEPROM_get (eeprom st5) EEPROM_ADDR) = readTurbidityMedian (fun _ => 300).
Proof.
  intros quiet st5.
  assert (Hinv : ~ cal_valid (EEPROM_get blank_eeprom EEPROM_ADDR))
    by (intros [Hm _]; vm_compute in Hm; discriminate Hm).
  assert (Hq : no_press quiet) by (repeat constructor).
  destruct (calibration_flow_two_presses blank_eeprom quiet quiet quiet
              (fun _ => 900) (fun _ => 300) Hinv Hq Hq Hq)
    as (_ & _ & _ & _ & _ & _ & _ & _ & _ & _ & _ & _ & Hclear & Hcloudy).
  split; [exact Hclear | exact Hcloudy].
Defined.

(** The rest of an iteration does not touch the calibration. *)
Lemma loop_smooth_calibration s st :
  cal (loop_smooth s st) = cal st /\ calLoaded (loop_smooth s st) = calLoaded st
  /\ calStage (loop_smooth s st) = calStage st /\ eeprom (loop_smooth s st) = eeprom st.
Proof. unfold loop_smooth. destruct (fltb (emaRaw st) f_zero); repeat split. Qed.

Lemma updateLed_calibration PIN_LED idx now st :
  cal (updateLed PIN_LED idx now st) = cal st
  /\ calLoaded (updateLed PIN_LED idx now st) = calLoaded st
  /\ calStage (updateLed PIN_LED idx now st) = calStage st
  /\ eeprom (updateLed PIN_LED idx now st) = eeprom st.
Proof.
  unfold updateLed.
  destruct (idx <? THRESH_CLEAR); [repeat split|].
  destruct (idx <? THRESH_MODERATE); [|repeat split].
  destruct (700 <=? wrap32 (now - lastToggle st)); repeat split.
Qed.

Lemma loop_calibration_part PIN_LED inp st st' row :
  loop PIN_LED inp st = Some (st', row) ->
  let stc := loop_calibration (longPress inp) (calBurst inp) st in
  cal st' = cal stc /\ calLoaded st' = calLoaded stc
  /\ calStage st' = calStage stc /\ eeprom st' = eeprom stc.
Proof.
  unfold loop. cbv zeta.
  set (stc := loop_calibration (longPress inp) (calBurst inp) st).
  set (sts := loop_smooth (readTurbidityMedian (burst inp)) stc).
  destruct (float_to_u16 (fadd (emaRaw sts) f_half)) as [r|]; [|discriminate].
  destruct (computeTurbidityIndex sts r) as [idx|]; [|discriminate].
  intros H. injection H as <- _.
  destruct (updateLed_calibration PIN_LED idx (now inp) sts) as (-> & -> & -> & ->).
  apply loop_smooth_calibration.
Qed.

(** The references in RAM stay within [uint16_t]: after [setup] and through
    every step of the calibration flow. *)
Lemma setup_cal_fields e : cal_fields_u16 (setup (power_on e)).
Proof.
  unfold cal_fields_u16, setup. cbv zeta. rewrite loadCalibration_cal.
  split; apply EEPROM_get_fields.
Qed.

Lemma loop_calibration_cal_fields b adc st :
  cal_fields_u16 st -> cal_fields_u16 (loop_calibration b adc st).
Proof.
  unfold cal_fields_u16. intros [H1 H2].
  pose proof (readTurbidityMedian_u16 adc) as Hm.
  unfold loop_calibration. cbv zeta.
  set (st1 := if negb (calLoaded st) && _ then _ else st).
  assert (E : cal st1 = cal st) by (unfold st1; case_ifs; reflexivity).
  destruct b; [|rewrite E; auto].
  destruct (calStage st1); cbn; rewrite ?E; auto.
Qed.

(* ====================================================================== *)
(** * Index mapper *)
(* ====================================================================== *)

Lemma Zdigits2_mono a b : 0 < a <= b -> Zdigits2 a <= Zdigits2 b.
Proof.
  intros H. destruct a as [|p|p], b as [|q|q]; try lia. simpl.
  rewrite !digits2_pos_log2. pose proof (Z.log2_le_mono (Zpos p) (Zpos q)). lia.
Qed.

Lemma fltb_finite_pos ma ea mb eb :
  fltb (S754_finite false ma ea) (S754_finite false mb eb) = true
  <-> ea < eb \/ (ea = eb /\ Zpos ma < Zpos mb).
Proof.
  unfold fltb, SFltb, SFcompare.
  destruct (Z.compare_spec ea eb) as [->|Hlt|Hgt].
  - change (Pos.compare_cont Eq ma mb) with (Z.compare (Zpos ma) (Zpos mb)).
    destruct (Z.compare_spec (Zpos ma) (Zpos mb)); split; intros; try discriminate; lia.
  - split; intros; [lia | reflexivity].
  - split; intros; [discriminate | lia].
Qed.

(** Comparing the images of two small naturals compares the naturals. *)
Lemma fltb_of_int a b :
  0 <= a < 2 ^ 24 -> 0 <= b < 2 ^ 24 -> fltb (of_int a) (of_int b) = (a <? b).
Proof.
  intros Ha Hb. rewrite !of_int_canon by lia.
  destruct (Z.eq_dec a 0) as [->|Ha0]; destruct (Z.eq_dec b 0) as [->|Hb0].
  - reflexivity.
  - destruct (canon_finite b) as (mb & -> & _); [lia|].
    replace (b <? 0) with false by (symmetry; apply Z.ltb_ge; lia).
    symmetry. apply Z.ltb_lt. lia.
  - destruct (canon_finite a) as (ma & -> & _); [lia|].
    replace (a <? 0) with false by (symmetry; apply Z.ltb_ge; lia).
    reflexivity.
  - pose proof (Zdigits2_small a ltac:(lia)) as Hda.
    pose proof (Zdigits2_small b ltac:(lia)) as Hdb.
    destruct (canon_finite a) as (ma & -> & Hma & _); [lia|].
    destruct (canon_finite b) as (mb & -> & Hmb & _); [lia|].
    replace (a <? 0) with false by (symmetry; apply Z.ltb_ge; lia).
    replace (b <? 0) with false by (symmetry; apply Z.ltb_ge; lia).
    rewrite Z.abs_eq in Hma, Hmb by lia.
    assert (Pa : 0 < 2 ^ (24 - Zdigits2 a)) by (apply Z.pow_pos_nonneg; lia).
    destruct (Z.ltb_spec a b) as [Hlt|Hge].
    + apply fltb_finite_pos.
      pose proof (Zdigits2_mono a b ltac:(lia)).
      destruct (Z.eq_dec (Zdigits2 a) (Zdigits2 b)) as [E|E]; [right | left; lia].
      split; [lia|]. rewrite Hma, Hmb, E. rewrite E in Pa. nia.
    + apply not_true_is_false. intros Hc. apply fltb_finite_pos in Hc.
      pose proof (Zdigits2_mono b a ltac:(lia)).
      destruct Hc as [Hc|[E Hc]]; [lia|].
      assert (E' : Zdigits2 a = Zdigits2 b) by lia.
      rewrite Hma, Hmb, E' in Hc. rewrite E' in Pa. nia.
Qed.

Lemma index_of_ratio_zero s : index_of_ratio (S754_zero s) = Some 0.
Proof. destruct s; reflexivity. Qed.

Lemma index_of_ratio_neg m e : index_of_ratio (S754_finite true m e) = Some 0.
Proof. reflexivity. Qed.

Lemma index_of_ratio_one : index_of_ratio f_one = Some 100.
Proof. reflexivity. Qed.

Lemma clamp_high_cases m e :
  normal24 m ->
  (if fltb f_one (S754_finite false m e) then f_one else S754_finite false m e) = f_one
  \/ (if fltb f_one (S754_finite false m e) then f_one else S754_finite false m e)
     = S754_finite false m e /\ e <= -23.
Proof.
  intros Hm. destruct (fltb f_one (S754_finite false m e)) eqn:E; [left; reflexivity|].
  right. split; [reflexivity|].
  destruct (Z_lt_le_dec (-23) e) as [Hc|]; [|lia].
  assert (fltb f_one (S754_finite false m e) = true)
    by (apply fltb_finite_pos; left; exact Hc). congruence.
Qed.

Lemma index_of_ratio_ge_one m e :
  normal24 m -> -23 <= e -> index_of_ratio (S754_finite false m e) = Some 100.
Proof.
  intros Hm He. unfold index_of_ratio.
  change (fltb (S754_finite false m e) f_zero) with false. cbv iota.
  destruct (fltb f_one (S754_finite false m e)) eqn:E; [reflexivity|].
  assert (Hn : ~ (-23 < e \/ (-23 = e /\ Zpos 8388608 < Zpos m))).
  { intros Hc. apply (fltb_finite_pos 8388608 (-23) m e) in Hc.
    unfold f_one in E. congruence. }
  assert (e = -23) by lia. subst e.
  assert (Zpos m = 8388608) by (unfold normal24 in Hm; change (2 ^ 23) with 8388608 in Hm; lia).
  replace m with 8388608%positive by lia. reflexivity.
Qed.

Lemma float_to_int_small m e :
  normal24 m -> e <= 0 ->
  exists v, float_to_int (S754_finite false m e) = Some v /\ 0 <= v.
Proof.
  intros Hm He. unfold normal24 in Hm. change (2 ^ 24) with 16777216 in Hm.
  unfold float_to_int, ftrunc. cbn [cond_Zopp].
  assert (P : 0 < 2 ^ (- e)) by (apply Z.pow_pos_nonneg; lia).
  assert (Hv : 0 <= (if 0 <=? e then Zpos m * 2 ^ e else Zpos m / 2 ^ (- e)) <= Zpos m).
  { destruct (Z.leb_spec 0 e).
    - assert (e = 0) by lia. subst e. change (2 ^ 0) with 1. lia.
    - split; [apply Z.div_pos; lia|]. apply Z.div_le_upper_bound; nia. }
  set (v := if 0 <=? e then Zpos m * 2 ^ e else Zpos m / 2 ^ (- e)) in *.
  exists v. split; [|lia].
  replace ((INT_MIN <=? v) && (v <=? INT_MAX)) with true; [reflexivity|].
  symmetry. apply andb_true_iff. unfold INT_MIN, INT_MAX. split; apply Z.leb_le; lia.
Qed.

(** For [t] below 2 the scaled value is small: the conversion to [int] is
    defined. *)
Lemma index_of_ratio_mid m e :
  normal24 m -> -60 <= e <= -22 ->
  exists idx, index_of_ratio (S754_finite false m e) = Some idx /\ 0 <= idx <= 100.
Proof.
  intros Hm He. unfold index_of_ratio.
  change (fltb (S754_finite false m e) f_zero) with false. cbv iota.
  destruct (clamp_high_cases m e Hm) as [-> | [-> He']].
  - exists 100. split; [reflexivity | lia].
  - destruct (fmul_normal false m e false 13107200 (-17)) as (m2 & e2 & H2 & Hm2 & He2);
      [exact Hm | unfold normal24; simpl; lia | lia |].
    unfold f_hundred. rewrite H2. cbn [xorb].
    destruct (fadd_normal_pos m2 e2 8388608 (-24)) as (m3 & e3 & H3 & Hm3 & He3);
      [exact Hm2 | unfold normal24; simpl; lia | lia | lia |].
    unfold f_half. rewrite H3.
    destruct (float_to_int_small m3 e3 Hm3 ltac:(lia)) as (v & -> & Hv).
    eexists. split; [reflexivity|].
    destruct (Z.ltb_spec v 0); [lia|]. destruct (Z.ltb_spec 100 v); lia.
Qed.

(** The index of a ratio of two small integers, [d] positive. *)
Lemma index_of_int_ratio n d :
  Z.abs n < 2 ^ 24 -> 0 < d < 2 ^ 24 ->
  exists idx, index_of_ratio (fdiv (of_int n) (of_int d)) = Some idx
    /\ 0 <= idx <= 100 /\ (n <= 0 -> idx = 0) /\ (d <= n -> idx = 100).
Proof.
  intros Hn Hd. rewrite !of_int_canon by lia.
  pose proof (Zdigits2_small d ltac:(lia)) as Hdd.
  destruct (canon_finite d) as (md & -> & Hmd & Hnd); [lia|].
  replace (d <? 0) with false by (symmetry; apply Z.ltb_ge; lia).
  rewrite Z.abs_eq in Hmd by lia.
  destruct (Z.eq_dec n 0) as [->|Hn0].
  { exists 0. split; [reflexivity | lia]. }
  pose proof (Zdigits2_small n ltac:(lia)) as Hdn.
  destruct (canon_finite n) as (mn & -> & Hmn & Hnn); [lia|].
  destruct (fdiv_normal (n <? 0) mn (Zdigits2 n - 24) false md (Zdigits2 d - 24))
    as (m & e & -> & Hm & He & Hge); [exact Hnn | exact Hnd | lia |].
  rewrite xorb_false_r.
  destruct (Z.ltb_spec n 0) as [Hneg|Hpos].
  { exists 0. rewrite index_of_ratio_neg. split; [reflexivity | lia]. }
  rewrite Z.abs_eq in Hmn by lia.
  destruct (Z_lt_le_dec n d) as [Hlt|Hle].
  - pose proof (Zdigits2_mono n d ltac:(lia)).
    destruct (index_of_ratio_mid m e Hm ltac:(lia)) as (idx & -> & Hidx).
    exists idx. split; [reflexivity|]. split; [exact Hidx|]. split; intros; lia.
  - exists 100. rewrite index_of_ratio_ge_one; [split; [reflexivity | lia] | exact Hm |].
    pose proof (Zdigits2_mono d n ltac:(lia)).
    destruct (Z.eq_dec (Zdigits2 n) (Zdigits2 d)) as [E|E]; [|lia].
    assert (Pa : 0 < 2 ^ (24 - Zdigits2 d)) by (apply Z.pow_pos_nonneg; lia).
    assert (Zpos md <= Zpos mn) by (rewrite Hmd, Hmn, E; nia).
    specialize (Hge ltac:(assumption)). lia.
Qed.

Lemma computeTurbidityIndex_uncalibrated st raw :
  calLoaded st = false ->
  exists idx, computeTurbidityIndex st raw = Some idx /\ 0 <= idx <= 100.
Proof.
  intros Hc. unfold computeTurbidityIndex. rewrite Hc. cbn [negb].
  eexists. split; [reflexivity|]. cbv zeta.
  destruct (Z.ltb_spec (arduino_map raw 0 4095 100 0) 0).
  - simpl. lia.
  - destruct (Z.ltb_spec 100 (arduino_map raw 0 4095 100 0)); lia.
Qed.

Lemma computeTurbidityIndex_loaded st raw :
  calLoaded st = true ->
  computeTurbidityIndex st raw =
  index_of_ratio
    (if fltb (of_int (clearRaw (cal st))) (of_int (cloudyRaw (cal st)))
     then fdiv (fsub (of_int raw) (of_int (clearRaw (cal st))))
               (fsub (of_int (cloudyRaw (cal st))) (of_int (clearRaw (cal st))))
     else fdiv (fsub (of_int (clearRaw (cal st))) (of_int raw))
               (fsub (of_int (clearRaw (cal st))) (of_int (cloudyRaw (cal st))))).
Proof. intros Hc. unfold computeTurbidityIndex. rewrite Hc. reflexivity. Qed.

(** With a loaded, non-degenerate calibration the index is defined, lies
    in [0, 100], is 0 from the clear reference outward and 100 from the
    cloudy reference outward. *)
Lemma computeTurbidityIndex_calibrated st raw :
  calLoaded st = true ->
  is_u16 raw -> is_u16 (clearRaw (cal st)) -> is_u16 (cloudyRaw (cal st)) ->
  clearRaw (cal st) <> cloudyRaw (cal st) ->
  exists idx, computeTurbidityIndex st raw = Some idx /\ 0 <= idx <= 100
    /\ (clearRaw (cal st) < cloudyRaw (cal st) ->
          (raw <= clearRaw (cal st) -> idx = 0) /\ (cloudyRaw (cal st) <= raw -> idx = 100))
    /\ (cloudyRaw (cal st) < clearRaw (cal st) ->
          (clearRaw (cal st) <= raw -> idx = 0) /\ (raw <= cloudyRaw (cal st) -> idx = 100)).
Proof.
  unfold is_u16. intros Hc Hr Hcl Hcy Hne.
  rewrite computeTurbidityIndex_loaded by exact Hc.
  set (clear := clearRaw (cal st)) in *. set (cloudy := cloudyRaw (cal st)) in *.
  rewrite fltb_of_int by small_int.
  rewrite !fsub_of_int by small_int.
  destruct (Z.ltb_spec clear cloudy) as [Hlt|Hge].
  - destruct (index_of_int_ratio (raw - clear) (cloudy - clear))
      as (idx & -> & Hidx & H0 & H100); try small_int.
    exists idx. split; [reflexivity|]. split; [exact Hidx|].
    split; intros; split; intros; lia.
  - destruct (index_of_int_ratio (clear - raw) (clear - cloudy))
      as (idx & -> & Hidx & H0 & H100); try small_int.
    exists idx. split; [reflexivity|]. split; [exact Hidx|].
    split; intros; split; intros; lia.
Qed.

(** C7: for every raw value the mapper returns an integer between 0 and
    100, with or without a loaded calibration (the two references being
    different when there is one); with a calibration, a raw value outside
    the interval spanned by the two references gives exactly 0 or exactly
    100. *)
Theorem computeTurbidityIndex_range st raw :
  is_u16 raw -> is_u16 (clearRaw (cal st)) -> is_u16 (cloudyRaw (cal st)) ->
  (calLoaded st = true -> clearRaw (cal st) <> cloudyRaw (cal st)) ->
  exists idx, computeTurbidityIndex st raw = Some idx /\ 0 <= idx <= 100
    /\ (calLoaded st = true ->
        raw < Z.min (clearRaw (cal st)) (cloudyRaw (cal st))
        \/ Z.max (clearRaw (cal st)) (cloudyRaw (cal st)) < raw ->
        idx = 0 \/ idx = 100).
Proof.
  intros Hr Hcl Hcy Hne. destruct (calLoaded st) eqn:Hc.
  - destruct (computeTurbidityIndex_calibrated st raw Hc Hr Hcl Hcy (Hne eq_refl))
      as (idx & E & Hidx & Hup & Hdown).
    exists idx. split; [exact E|]. split; [exact Hidx|]. intros _ Hout.
    destruct (Z.lt_total (clearRaw (cal st)) (cloudyRaw (cal st))) as [Hlt|[Heq|Hgt]].
    + destruct (Hup Hlt) as [H0 H100]. destruct Hout; [left; apply H0 | right; apply H100]; lia.
    + specialize (Hne eq_refl). lia.
    + destruct (Hdown Hgt) as [H0 H100]. destruct Hout; [right; apply H100 | left; apply H0]; lia.
  - destruct (computeTurbidityIndex_uncalibrated st raw Hc) as (idx & E & Hidx).
    exists idx. split; [exact E|]. split; [exact Hidx|]. intros Hf. discriminate.
Qed.

Lemma computeTurbidityIndex_range_witness :
  exists idx, computeTurbidityIndex (calibrated 900 300) 1000 = Some idx
    /\ 0 <= idx <= 100 /\ (idx = 0 \/ idx = 100).
Proof.
  assert (H : forall z, 0 <= z < 65536 -> is_u16 z) by (intros z Hz; exact Hz).
  destruct (computeTurbidityIndex_range (calibrated 900 300) 1000
              (H 1000 ltac:(lia)) (H 900 ltac:(lia)) (H 300 ltac:(lia))
              ltac:(intros _; discriminate))
    as (idx & E & Hidx & Hout).
  exists idx. split; [exact E|]. split; [exact Hidx|].
  apply Hout; [reflexivity|]. right. vm_compute. reflexivity.
Defined.

(** C1 (the code departs from it): with a loaded calibration whose two
    references are equal, the firmware's mapper has no guard and divides by
    zero: the index is 100 below the reference, 0 above it and undefined
    (NaN converted to int) at it.  The simpler sketch does guard: it
    returns 0 for every input. *)
Theorem computeTurbidityIndex_degenerate_unguarded :
  let st := calibrated 500 500 in
  calLoaded st = true /\ clearRaw (cal st) = cloudyRaw (cal st)
  /\ computeTurbidityIndex st 400 = Some 100
  /\ computeTurbidityIndex st 600 = Some 0
  /\ computeTurbidityIndex st 500 = None
  /\ forall (c : Z) (raw : float), Simple.computeTurbidityIndex c c raw = Some 0.
Proof.
  cbv zeta. repeat split; try reflexivity.
  intros c raw. unfold Simple.computeTurbidityIndex.
  rewrite Z.max_id, Z.min_id, Z.sub_diag. reflexivity.
Qed.

(** The direction test and the ratio in integer terms. *)
Lemma computeTurbidityIndex_ratio st raw :
  calLoaded st = true ->
  is_u16 raw -> is_u16 (clearRaw (cal st)) -> is_u16 (cloudyRaw (cal st)) ->
  computeTurbidityIndex st raw
  = index_of_ratio
      (if clearRaw (cal st) <? cloudyRaw (cal st)
       then fdiv (of_int (raw - clearRaw (cal st)))
                 (of_int (cloudyRaw (cal st) - clearRaw (cal st)))
       else fdiv (of_int (clearRaw (cal st) - raw))
                 (of_int (clearRaw (cal st) - cloudyRaw (cal st)))).
Proof.
  intros Hc Hr Hcl Hcy.
  rewrite computeTurbidityIndex_loaded by exact Hc.
  rewrite fltb_of_int by small_int.
  rewrite !fsub_of_int by small_int.
  reflexivity.
Qed.

(* ====================================================================== *)
(** * Smoother *)
(* ====================================================================== *)

Lemma all_from_spec f n : forall lo z,
  all_from f lo n = true -> lo <= z < lo + Z.of_nat n -> f z = true.
Proof.
  induction n as [|n IH]; intros lo z H Hz; [lia|].
  cbn [all_from] in H. apply andb_true_iff in H as [H0 H1].
  destruct (Z.eq_dec z lo) as [->|Hne]; [exact H0|].
  apply (IH (lo + 1)); [exact H1 | lia].
Qed.

Lemma sign_class_not_negative x : sign_class false x -> not_negative x.
Proof. destruct x as [[]|[]| |[] m e]; simpl; intros H; try discriminate; try reflexivity; tauto. Qed.

Lemma of_int_sign_class s : 0 <= s -> sign_class false (of_int s).
Proof.
  intros Hs. unfold of_int. destruct s as [|p|p]; try lia; [reflexivity|].
  apply binary_round_sign.
Qed.

Lemma fmul_sign_class mc ec x :
  sign_class false x -> sign_class false (fmul (S754_finite false mc ec) x).
Proof.
  destruct x as [s|s| |s m e]; simpl; intros H; subst; try reflexivity; try tauto.
  apply (binary_round_aux_sign false). lia.
Qed.

Lemma fmul_not_negative mc ec x :
  not_negative x -> not_negative (fmul (S754_finite false mc ec) x).
Proof.
  unfold not_negative. destruct x as [s|[]| |[] m e]; intros H; try discriminate H;
    try reflexivity.
  apply sign_class_not_negative. apply (binary_round_aux_sign false). lia.
Qed.

Lemma fadd_finite_sign_class ma ea mb eb :
  sign_class false (fadd (S754_finite false ma ea) (S754_finite false mb eb)).
Proof.
  unfold fadd, SFadd. cbv zeta. cbn [cond_Zopp Z.add binary_normalize].
  apply binary_round_sign.
Qed.

Lemma fadd_sign_class a b :
  sign_class false a -> sign_class false b -> sign_class false (fadd a b).
Proof.
  destruct a as [[]|[]| |[] ma ea]; simpl; intros Ha; try discriminate Ha; try tauto;
  destruct b as [[]|[]| |[] mb eb]; simpl; intros Hb; try discriminate Hb; try tauto;
    try reflexivity.
  apply fadd_finite_sign_class.
Qed.

Lemma fadd_not_negative a b :
  sign_class false a -> not_negative b -> not_negative (fadd a b).
Proof.
  unfold not_negative.
  destruct a as [[]|[]| |[] ma ea]; simpl; intros Ha; try discriminate Ha; try tauto;
  destruct b as [[]|[]| |[] mb eb]; intros Hb; try discriminate Hb; try reflexivity.
  apply sign_class_not_negative, fadd_finite_sign_class.
Qed.

Lemma ema_blend_not_negative s prev :
  0 <= s -> not_negative prev -> not_negative (ema_blend EMA_ALPHA s prev).
Proof.
  intros Hs Hp. unfold ema_blend. apply fadd_not_negative.
  - apply fmul_sign_class, of_int_sign_class, Hs.
  - change (fsub f_one EMA_ALPHA) with (S754_finite false 13421773 (-24)).
    apply fmul_not_negative, Hp.
Qed.

Lemma loop_smooth_first s st :
  fltb (emaRaw st) f_zero = true ->
  emaRaw (loop_smooth s st) = ema_blend EMA_ALPHA s (of_int s).
Proof. intros H. unfold loop_smooth. rewrite H. reflexivity. Qed.

Lemma loop_smooth_next s st :
  not_negative (emaRaw st) ->
  emaRaw (loop_smooth s st) = ema_blend EMA_ALPHA s (emaRaw st).
Proof. unfold not_negative. intros H. unfold loop_smooth. rewrite H. reflexivity. Qed.

Lemma loop_smooth_not_negative s st : 0 <= s -> not_negative (emaRaw (loop_smooth s st)).
Proof.
  intros Hs. destruct (fltb (emaRaw st) f_zero) eqn:E.
  - rewrite loop_smooth_first by exact E. apply ema_blend_not_negative; [exact Hs|].
    apply sign_class_not_negative, of_int_sign_class, Hs.
  - rewrite loop_smooth_next by exact E. apply ema_blend_not_negative; [exact Hs | exact E].
Qed.

Lemma smooth_all_snoc l s st : smooth_all (l ++ [s]) st = loop_smooth s (smooth_all l st).
Proof. unfold smooth_all. rewrite foldl_app. reflexivity. Qed.

Lemma smooth_all_not_negative l : forall st,
  l <> [] -> Forall is_u16 l -> not_negative (emaRaw (smooth_all l st)).
Proof.
  induction l as [|s l IH] using rev_ind; intros st Hne Hl; [congruence|].
  rewrite smooth_all_snoc. apply loop_smooth_not_negative.
  apply Forall_app in Hl as [_ Hs]. apply Forall_inv in Hs. unfold is_u16 in Hs. lia.
Qed.

Lemma first_round_all : all_from first_round_ok 0 (Z.to_nat 65536) = true.
Proof. vm_compute. reflexivity. Qed.

(** ** The simpler sketch *)

Lemma simple_smooth_sign_class x s :
  0 <= s -> x = S754_nan \/ sign_class false x -> sign_class false (Simple.smooth x s).
Proof.
  intros Hs [->|Hx]; [apply of_int_sign_class, Hs|].
  assert (E : Simple.smooth x s
              = fadd (fmul Simple.EMA_ALPHA (of_int s))
                     (fmul (fsub (of_int 1) Simple.EMA_ALPHA) x))
    by (destruct x; simpl in Hx; try tauto; reflexivity).
  rewrite E. apply fadd_sign_class.
  - apply fmul_sign_class, of_int_sign_class, Hs.
  - change (fsub (of_int 1) Simple.EMA_ALPHA) with (S754_finite false 12582912 (-24)).
    apply fmul_sign_class, Hx.
Qed.

Lemma simple_smooth_all_snoc l s x :
  simple_smooth_all (l ++ [s]) x = Simple.smooth (simple_smooth_all l x) s.
Proof. unfold simple_smooth_all. rewrite foldl_app. reflexivity. Qed.

Lemma simple_smooth_all_sign_class l :
  l <> [] -> Forall is_u16 l -> sign_class false (simple_smooth_all l S754_nan).
Proof.
  induction l as [|s l IH] using rev_ind; intros Hne Hl; [congruence|].
  rewrite simple_smooth_all_snoc. apply Forall_app in Hl as [Hl Hs].
  apply Forall_inv in Hs. unfold is_u16 in Hs.
  apply simple_smooth_sign_class; [lia|].
  destruct l as [|s' l']; [left; reflexivity | right; apply IH; [discriminate | exact Hl]].
Qed.

(** C5 (counterexample): after the single sample 13 the state of the
    firmware's smoother is not 13. *)
Lemma smoother_first_state_not_sample :
  emaRaw (smooth_all [13] (power_on blank_eeprom)) <> of_int 13.
Proof. vm_compute. discriminate. Qed.

(** C5 (amended): alpha is 0.2f, strictly between 0 and 1.  Starting from
    the uninitialised state, the firmware's state after the first sample s0
    is the blend of s0 with itself, alpha*s0 + (1-alpha)*s0 in binary32,
    whose rounding to uint16_t is s0; after each later sample s the state is
    alpha*s + (1-alpha)*(previous state).  In the simpler sketch the state
    after the first sample is the sample itself, and later states follow
    the same recurrence with alpha = 0.25. *)
Theorem smoother_recurrence (st : State) (s0 : Z) (rest : list Z) (s : Z) :
  emaRaw st = f_neg_one -> is_u16 s0 -> Forall is_u16 rest -> is_u16 s ->
  (fltb f_zero EMA_ALPHA = true /\ fltb EMA_ALPHA f_one = true)
  /\ emaRaw (smooth_all [s0] st) = ema_blend EMA_ALPHA s0 (of_int s0)
  /\ float_to_u16 (fadd (emaRaw (smooth_all [s0] st)) f_half) = Some s0
  /\ emaRaw (smooth_all ((s0 :: rest) ++ [s]) st)
     = ema_blend EMA_ALPHA s (emaRaw (smooth_all (s0 :: rest) st))
  /\ simple_smooth_all [s0] S754_nan = of_int s0
  /\ simple_smooth_all ((s0 :: rest) ++ [s]) S754_nan
     = fadd (fmul Simple.EMA_ALPHA (of_int s))
            (fmul (fsub (of_int 1) Simple.EMA_ALPHA)
                  (simple_smooth_all (s0 :: rest) S754_nan)).
Proof.
  intros Hst H0 Hrest Hs.
  assert (Hfirst : emaRaw (smooth_all [s0] st) = ema_blend EMA_ALPHA s0 (of_int s0)).
  { unfold smooth_all. cbn [foldl]. apply loop_smooth_first. rewrite Hst. reflexivity. }
  split; [split; reflexivity|]. split; [exact Hfirst|]. split; [|split; [|split]].
  - rewrite Hfirst.
    pose proof (all_from_spec first_round_ok _ 0 s0 first_round_all) as H.
    unfold is_u16 in H0. specialize (H ltac:(lia)). unfold first_round_ok in H.
    destruct (float_to_u16 _) as [r|]; [|discriminate].
    apply Z.eqb_eq in H. congruence.
  - rewrite smooth_all_snoc. apply loop_smooth_next.
    apply smooth_all_not_negative; [discriminate | constructor; assumption].
  - reflexivity.
  - rewrite simple_smooth_all_snoc.
    pose proof (simple_smooth_all_sign_class (s0 :: rest) ltac:(discriminate)
                  ltac:(constructor; assumption)) as Hc.
    destruct (simple_smooth_all (s0 :: rest) S754_nan); simpl in Hc; try tauto; reflexivity.
Qed.

Lemma smoother_recurrence_witness :
  emaRaw (smooth_all [13; 40; 900] (power_on blank_eeprom))
  = ema_blend EMA_ALPHA 900 (emaRaw (smooth_all [13; 40] (power_on blank_eeprom))).
Proof.
  assert (H13 : is_u16 13) by (unfold is_u16; lia).
  assert (H40 : is_u16 40) by (unfold is_u16; lia).
  assert (H900 : is_u16 900) by (unfold is_u16; lia).
  exact (proj1 (proj2 (proj2 (proj2
    (smoother_recurrence (power_on blank_eeprom) 13 [40] 900 eq_refl H13
       (Forall_cons_2 _ _ _ H40 (Forall_nil_2 _)) H900))))).
Defined.

(* ====================================================================== *)
(** * Button: debounce and long press *)
(* ====================================================================== *)

Lemma wrap32_small z : 0 <= z < 4294967296 -> wrap32 z = z.
Proof. intros H. unfold wrap32. apply Z.mod_small. exact H. Qed.

Lemma wrap32_diag z : wrap32 (z - z) = 0.
Proof. rewrite Z.sub_diag. reflexivity. Qed.

(** X1: the debounced level changes only in a call made more than 40 ms
    after the last change of the raw level, and then becomes the raw level. *)
Theorem debounced_changes_only_when_stable (raw : bool) (now : Z) (b : ButtonState) :
  debounced (buttonLongPressEvent raw now b).1 <> debounced b ->
  raw = lastRaw b
  /\ DEBOUNCE_MS < wrap32 (now - lastChange b)
  /\ debounced (buttonLongPressEvent raw now b).1 = raw.
Proof.
  destruct b as [lr db lc ps lf].
  unfold buttonLongPressEvent, DEBOUNCE_MS, LONG_PRESS_MS. cbv zeta.
  cbn [lastRaw debounced lastChange pressStart longFired].
  destruct (Bool.eqb raw lr) eqn:Eraw;
    cbn [negb lastRaw debounced lastChange pressStart longFired].
  - apply Bool.eqb_prop in Eraw. subst lr.
    destruct (40 <? wrap32 (now - lc)) eqn:Ed;
      cbn [lastRaw debounced lastChange pressStart longFired].
    + intros _. split; [reflexivity|]. split; [apply Z.ltb_lt; exact Ed|].
      destruct raw; cbn; case_ifs; reflexivity.
    + intros H. exfalso. apply H.
      destruct db; cbn; case_ifs; reflexivity.
  - intros H. exfalso. apply H.
    rewrite wrap32_diag. cbn.
    destruct db; cbn; case_ifs; reflexivity.
Qed.

Lemma debounced_changes_only_when_stable_witness :
  debounced (buttonLongPressEvent true 100 (mkButton true false 0 0 false)).1 = true.
Proof.
  apply (debounced_changes_only_when_stable true 100 (mkButton true false 0 0 false)).
  vm_compute. discriminate.
Defined.

(** X2: when an event is returned the debounced level is pressed, the press
    start was recorded by an earlier call and lies at least 2000 ms back,
    and no event had been returned for this press yet. *)
Theorem long_press_event_requires_hold (raw : bool) (now : Z) (b b' : ButtonState) :
  buttonLongPressEvent raw now b = (b', true) ->
  debounced b' = true /\ longFired b = false /\ longFired b' = true
  /\ pressStart b <> 0 /\ pressStart b' = pressStart b
  /\ LONG_PRESS_MS <= wrap32 (now - pressStart b).
Proof.
  destruct b as [lr db lc ps lf].
  unfold buttonLongPressEvent, DEBOUNCE_MS, LONG_PRESS_MS. cbv zeta.
  cbn [lastRaw debounced lastChange pressStart longFired].
  repeat match goal with
         | |- context [if ?c then _ else _] =>
             let E := fresh "E" in
             destruct c eqn:E;
             cbn [lastRaw debounced lastChange pressStart longFired] in *
         end;
    intros H; inversion H; subst; clear H;
    cbn [lastRaw debounced lastChange pressStart longFired] in *;
    tests_to_facts; subst;
    repeat match goal with H : _ \/ _ |- _ => destruct H end;
    tests_to_facts; subst;
    try rewrite wrap32_diag in *; try discriminate; try lia;
    repeat split; try reflexivity; try assumption; try congruence; try lia.
Qed.

Lemma long_press_event_requires_hold_witness :
  LONG_PRESS_MS <= wrap32 (2500 - pressStart (mkButton true true 0 100 false)).
Proof.
  apply (long_press_event_requires_hold true 2500 (mkButton true true 0 100 false)
           (mkButton true true 0 100 true)).
  reflexivity.
Defined.

Lemma fired_held_step now b :
  fired b ->
  (buttonLongPressEvent true now b).2 = false /\ fired (buttonLongPressEvent true now b).1.
Proof.
  destruct b as [lr db lc ps lf]. unfold fired. cbn [debounced longFired pressStart].
  intros (-> & -> & Hps).
  unfold buttonLongPressEvent, DEBOUNCE_MS, LONG_PRESS_MS. cbv zeta.
  cbn [lastRaw debounced lastChange pressStart longFired].
  destruct lr; cbn [Bool.eqb negb lastRaw debounced lastChange pressStart longFired];
    rewrite ?wrap32_diag;
    repeat match goal with
           | |- context [if ?c then _ else _] =>
               let E := fresh "E" in
               destruct c eqn:E;
               cbn [lastRaw debounced lastChange pressStart longFired fst snd andb negb] in *
           end;
    tests_to_facts; try discriminate; try lia; auto.
Qed.

Lemma fired_held_run calls : forall b,
  fired b -> Forall (fun c => c.1 = true) calls ->
  Forall (fun ev => ev = false) (button_run calls b).1.
Proof.
  induction calls as [|[raw now] calls IH]; intros b Hb Hc; [constructor|].
  apply Forall_cons in Hc as [Hraw Hc]. simpl in Hraw. subst raw.
  cbn [button_run].
  destruct (fired_held_step now b Hb) as [Hev Hb'].
  destruct (buttonLongPressEvent true now b) as [b' ev]. cbn [fst snd] in *. subst ev.
  specialize (IH b' Hb' Hc).
  destruct (button_run calls b') as [evs b'']. cbn [fst] in *.
  constructor; [reflexivity | exact IH].
Qed.

Lemma event_leaves_fired raw now b b' :
  buttonLongPressEvent raw now b = (b', true) -> fired b'.
Proof.
  destruct b as [lr db lc ps lf].
  unfold buttonLongPressEvent, fired, DEBOUNCE_MS, LONG_PRESS_MS. cbv zeta.
  cbn [lastRaw debounced lastChange pressStart longFired].
  repeat match goal with
         | |- context [if ?c then _ else _] =>
             let E := fresh "E" in
             destruct c eqn:E;
             cbn [lastRaw debounced lastChange pressStart longFired] in *
         end;
    intros H; inversion H; subst; clear H;
    cbn [lastRaw debounced lastChange pressStart longFired] in *;
    tests_to_facts; subst;
    repeat match goal with H : _ \/ _ |- _ => destruct H end;
    tests_to_facts; subst;
    try discriminate; try lia;
    repeat split; try reflexivity; try assumption; try congruence; try lia.
Qed.

(** X3: one event per hold.  After a call has returned an event, no later
    call returns one for as long as the raw level stays pressed. *)
Theorem long_press_fires_once_per_hold
    (raw : bool) (now : Z) (b b' : ButtonState) (calls : list (bool * Z)) :
  buttonLongPressEvent raw now b = (b', true) ->
  Forall (fun c => c.1 = true) calls ->
  Forall (fun ev => ev = false) (button_run calls b').1.
Proof.
  intros Hev Hheld. apply fired_held_run; [|exact Hheld].
  apply (event_leaves_fired raw now b b' Hev).
Qed.

Lemma long_press_fires_once_per_hold_witness :
  Forall (fun ev => ev = false)
    (button_run [(true, 3000); (true, 6000); (true, 60000)] (mkButton true true 0 100 true)).1.
Proof.
  apply (long_press_fires_once_per_hold true 2500 (mkButton true true 0 100 false)).
  - reflexivity.
  - repeat constructor.
Defined.

Lemma hold_first_call t0 :
  buttonLongPressEvent true t0 button_init = (mkButton true false t0 0 false, false).
Proof. button_eval. reflexivity. Qed.

Lemma hold_bounce_call t0 t :
  t0 <= t <= t0 + DEBOUNCE_MS -> t < 4294967296 ->
  buttonLongPressEvent true t (mkButton true false t0 0 false)
  = (mkButton true false t0 0 false, false).
Proof.
  unfold DEBOUNCE_MS. intros H Hw.
  assert (E1 : (40 <? wrap32 (t - t0)) = false)
    by (rewrite wrap32_small by lia; apply Z.ltb_ge; lia).
  clear H Hw. button_eval. reflexivity.
Qed.

Lemma hold_debounced_call t0 tp :
  0 <= t0 -> t0 + DEBOUNCE_MS < tp < 4294967296 ->
  buttonLongPressEvent true tp (mkButton true false t0 0 false)
  = (mkButton true true t0 tp false, false).
Proof.
  unfold DEBOUNCE_MS. intros H0 H.
  assert (E1 : (40 <? wrap32 (tp - t0)) = true)
    by (rewrite wrap32_small by lia; apply Z.ltb_lt; lia).
  assert (E2 : (tp =? 0) = false) by (apply Z.eqb_neq; lia).
  clear H0 H. button_eval. reflexivity.
Qed.

Lemma hold_waiting_call t0 tp t :
  0 <= t0 -> t0 + DEBOUNCE_MS < tp -> tp <= t < tp + LONG_PRESS_MS -> t < 4294967296 ->
  buttonLongPressEvent true t (mkButton true true t0 tp false)
  = (mkButton true true t0 tp false, false).
Proof.
  unfold DEBOUNCE_MS, LONG_PRESS_MS. intros H0 Hp H Hw.
  assert (E1 : (40 <? wrap32 (t - t0)) = true)
    by (rewrite wrap32_small by lia; apply Z.ltb_lt; lia).
  assert (E2 : (tp =? 0) = false) by (apply Z.eqb_neq; lia).
  assert (E3 : (2000 <=? wrap32 (t - tp)) = false)
    by (rewrite wrap32_small by lia; apply Z.leb_gt; lia).
  clear H0 Hp H Hw. button_eval. reflexivity.
Qed.

Lemma hold_firing_call t0 tp tf :
  0 <= t0 -> t0 + DEBOUNCE_MS < tp -> tp + LONG_PRESS_MS <= tf < 4294967296 ->
  buttonLongPressEvent true tf (mkButton true true t0 tp false)
  = (mkButton true true t0 tp true, true).
Proof.
  unfold DEBOUNCE_MS, LONG_PRESS_MS. intros H0 Hp H.
  assert (E1 : (40 <? wrap32 (tf - t0)) = true)
    by (rewrite wrap32_small by lia; apply Z.ltb_lt; lia).
  assert (E2 : (tp =? 0) = false) by (apply Z.eqb_neq; lia).
  assert (E3 : (2000 <=? wrap32 (tf - tp)) = true)
    by (rewrite wrap32_small by lia; apply Z.leb_le; lia).
  clear H0 Hp H. button_eval. reflexivity.
Qed.

Lemma button_run_app calls1 calls2 b :
  button_run (calls1 ++ calls2) b
  = ((button_run calls1 b).1 ++ (button_run calls2 (button_run calls1 b).2).1,
     (button_run calls2 (button_run calls1 b).2).2).
Proof.
  revert b. induction calls1 as [|[raw now] calls1 IH]; intros b.
  - cbn. destruct (button_run calls2 b); reflexivity.
  - cbn [app button_run]. destruct (buttonLongPressEvent raw now b) as [b' ev].
    rewrite IH. destruct (button_run calls1 b') as [evs1 b1]. cbn [fst snd].
    destruct (button_run calls2 b1) as [evs2 b2]. reflexivity.
Qed.

Lemma button_run_stay (P : Z -> Prop) b (times : list Z) :
  (forall t, P t -> buttonLongPressEvent true t b = (b, false)) ->
  Forall P times ->
  button_run ((fun t => (true, t)) <$> times) b = (replicate (length times) false, b).
Proof.
  intros Hstep. induction 1 as [|t times Ht _ IH]; [reflexivity|].
  rewrite fmap_cons. cbn [button_run length replicate].
  rewrite (Hstep t Ht), IH. reflexivity.
Qed.

Lemma replicate_shift n (l : list bool) :
  replicate n false ++ false :: l = false :: replicate n false ++ l.
Proof. induction n as [|n IH]; [reflexivity|]. cbn. rewrite IH. reflexivity. Qed.

(** X4: a hold that starts from rest at [t0].  Calls up to 40 ms after [t0]
    return nothing; the first call later than that, at [tp], records the
    press start; calls before [tp + 2000] return nothing; the first call at
    or after [tp + 2000] returns the event. *)
Theorem long_press_timing (t0 tp tf : Z) (bouncing waiting : list Z) :
  0 <= t0 ->
  Forall (fun t => t0 <= t <= t0 + DEBOUNCE_MS) bouncing ->
  t0 + DEBOUNCE_MS < tp ->
  Forall (fun t => tp <= t < tp + LONG_PRESS_MS) waiting ->
  tp + LONG_PRESS_MS <= tf < 4294967296 ->
  button_run ((fun t => (true, t)) <$> (t0 :: bouncing ++ tp :: waiting ++ [tf])) button_init
  = (replicate (2 + length bouncing + length waiting) false ++ [true],
     mkButton true true t0 tp true).
Proof.
  unfold DEBOUNCE_MS, LONG_PRESS_MS. intros H0 Hb Hp Hw Hf.
  assert (Hb' : Forall (fun t => t0 <= t <= t0 + DEBOUNCE_MS /\ t < 4294967296) bouncing).
  { eapply Forall_impl; [exact Hb|]. unfold DEBOUNCE_MS. intros t Ht. cbn in Ht. lia. }
  assert (Hw' : Forall (fun t => tp <= t < tp + LONG_PRESS_MS /\ t < 4294967296) waiting).
  { eapply Forall_impl; [exact Hw|]. unfold LONG_PRESS_MS. intros t Ht. cbn in Ht. lia. }
  rewrite fmap_cons. cbn [button_run]. rewrite hold_first_call.
  rewrite fmap_app, button_run_app.
  rewrite (button_run_stay _ _ bouncing
             (fun t H => hold_bounce_call t0 t (proj1 H) (proj2 H)) Hb').
  cbn [fst snd]. rewrite fmap_cons. cbn [button_run].
  rewrite hold_debounced_call by (unfold DEBOUNCE_MS; lia).
  rewrite fmap_app, button_run_app.
  rewrite (button_run_stay _ _ waiting
             (fun t H => hold_waiting_call t0 tp t H0 ltac:(unfold DEBOUNCE_MS; lia)
                           (proj1 H) (proj2 H)) Hw').
  cbn [fst snd fmap list_fmap button_run].
  rewrite hold_firing_call by (unfold DEBOUNCE_MS, LONG_PRESS_MS; lia).
  f_equal. cbn [Nat.add replicate app]. f_equal.
  rewrite replicate_add, <- app_assoc. apply replicate_shift.
Qed.

Lemma long_press_timing_witness :
  (button_run ((fun t => (true, t)) <$> [1000; 1010; 1040; 1500; 2000; 3000; 3500])
              button_init).1
  = [false; false; false; false; false; false; true].
Proof.
  assert (H : button_run ((fun t => (true, t)) <$> (1000 :: [1010; 1040] ++ 1500 :: [2000; 3000] ++ [3500])) button_init
              = (replicate (2 + length [1010; 1040] + length [2000; 3000]) false ++ [true],
                 mkButton true true 1000 1500 true)).
  { apply long_press_timing; unfold DEBOUNCE_MS, LONG_PRESS_MS;
      repeat constructor; lia. }
  exact (f_equal fst H).
Defined.

(* ====================================================================== *)
(** * LCD address scan *)
(* ====================================================================== *)

Lemma probe_range_spec bus fuel : forall addr,
  match probe_range bus addr fuel with
  | Some r => addr <= r < addr + Z.of_nat fuel /\ bus r = true
              /\ forall a, addr <= a < r -> bus a = false
  | None => forall a, addr <= a < addr + Z.of_nat fuel -> bus a = false
  end.
Proof.
  induction fuel as [|fuel IH]; intros addr; cbn [probe_range].
  - intros a Ha. lia.
  - unfold i2cDevicePresent. destruct (bus addr) eqn:E.
    + split; [lia|]. split; [exact E|]. intros a Ha. lia.
    + specialize (IH (addr + 1)). destruct (probe_range bus (addr + 1) fuel) as [r|].
      * destruct IH as (Hr & Hb & Hlow). split; [lia|]. split; [exact Hb|].
        intros a Ha. destruct (Z.eq_dec a addr) as [->|Hne]; [exact E|]. apply Hlow. lia.
      * intros a Ha. destruct (Z.eq_dec a addr) as [->|Hne]; [exact E|]. apply IH. lia.
Qed.

(** X5: findLcdAddress returns 0 exactly when no address from 0x20 to 0x3F
    acknowledges; any other result is an acknowledging address of that
    range; 0x27 is preferred to every other address; and when none of the
    five usual addresses acknowledges the result is the lowest one that
    does. *)
Theorem findLcdAddress_scan (bus : Z -> bool) :
  (findLcdAddress bus = 0 <-> forall a, 0x20 <= a <= 0x3F -> bus a = false)
  /\ (findLcdAddress bus <> 0 ->
        bus (findLcdAddress bus) = true /\ 0x20 <= findLcdAddress bus <= 0x3F)
  /\ (bus 0x27 = true -> findLcdAddress bus = 0x27)
  /\ (bus 0x27 = false -> bus 0x3F = false -> bus 0x26 = false ->
      bus 0x20 = false -> bus 0x21 = false ->
      forall a, 0x20 <= a < findLcdAddress bus -> bus a = false).
Proof.
  pose proof (probe_range_spec bus 32 0x20) as Hscan.
  unfold findLcdAddress, probe_candidates, i2cDevicePresent.
  destruct (bus 0x27) eqn:E27.
  { repeat split; try lia; try congruence; try discriminate.
    intros H. rewrite H in E27 by lia. discriminate. }
  destruct (bus 0x3F) eqn:E3F.
  { repeat split; try lia; try congruence; try discriminate.
    intros H. rewrite H in E3F by lia. discriminate. }
  destruct (bus 0x26) eqn:E26.
  { repeat split; try lia; try congruence; try discriminate.
    intros H. rewrite H in E26 by lia. discriminate. }
  destruct (bus 0x20) eqn:E20.
  { repeat split; try lia; try congruence; try discriminate.
    intros H. rewrite H in E20 by lia. discriminate. }
  destruct (bus 0x21) eqn:E21.
  { repeat split; try lia; try congruence; try discriminate.
    intros H. rewrite H in E21 by lia. discriminate. }
  destruct (probe_range bus 0x20 32) as [r|].
  - destruct Hscan as (Hr & Hb & Hlow).
    split; [split|split; [|split]].
    + intros ->. lia.
    + intros H. rewrite H in Hb by lia. discriminate.
    + intros _. split; [exact Hb | lia].
    + discriminate.
    + intros _ _ _ _ _ a Ha. apply Hlow. lia.
  - split; [split|split; [|split]].
    + intros _ a Ha. apply Hscan. lia.
    + reflexivity.
    + congruence.
    + discriminate.
    + intros _ _ _ _ _ a Ha. lia.
Qed.

Lemma findLcdAddress_scan_witness :
  findLcdAddress (fun a => a =? 0x27) = 0x27.
Proof.
  apply (proj1 (proj2 (proj2 (findLcdAddress_scan (fun a => a =? 0x27))))).
  reflexivity.
Defined.

(* ====================================================================== *)
(** * Sampler: sorting a prefix, rejecting spikes *)
(* ====================================================================== *)

Lemma insertion_pass_prefix (q : list Z) : forall (p rest : list Z),
  StronglySorted Z.le p ->
  exists s, insertion_pass (length q) (length p) (p ++ q ++ rest) = s ++ rest
    /\ StronglySorted Z.le s /\ s ≡ₚ p ++ q.
Proof.
  induction q as [|key q IH]; intros p rest Hp.
  - exists p. cbn. rewrite app_nil_r. split; [reflexivity|]. split; [exact Hp | reflexivity].
  - cbn [length insertion_pass app]. rewrite lookup_total_middle.
    destruct (insertion_step p key (q ++ rest) Hp) as (s1 & Heq & Hl1 & Hs1 & Hp1).
    destruct (shift_right (p ++ key :: q ++ rest) key (length p)) as [arr' j1].
    rewrite Heq, <- Hl1.
    destruct (IH s1 rest Hs1) as (s & Hs & Hss & Hps).
    exists s. split; [exact Hs|]. split; [exact Hss|].
    rewrite Hps, Hp1, <- app_assoc. reflexivity.
Qed.

(** X6: insertionSort arr n sorts the first n elements among themselves and
    leaves the others where they are; n = 0 and n = 1 change nothing. *)
Theorem insertionSort_sorts_prefix (arr : list Z) (n : nat) :
  (n <= length arr)%nat ->
  (exists s, insertionSort arr n = s ++ drop n arr
     /\ StronglySorted Z.le s /\ s ≡ₚ take n arr)
  /\ insertionSort arr 0 = arr /\ insertionSort arr 1 = arr.
Proof.
  intros Hn. split; [|split; reflexivity].
  unfold insertionSort. destruct n as [|n].
  - exists []. cbn. rewrite drop_0. split; [reflexivity|]. split; [constructor | reflexivity].
  - destruct arr as [|x arr]; [simpl in Hn; lia|].
    cbn [length] in Hn. replace (S n - 1)%nat with n by lia.
    destruct (insertion_pass_prefix (take n arr) [x] (drop n arr)) as (s & Hs & Hss & Hps).
    { repeat constructor. }
    rewrite length_take in Hs. replace (n `min` length arr)%nat with n in Hs by lia.
    cbn [length app] in Hs. rewrite take_drop in Hs.
    exists s. cbn [drop take]. split; [exact Hs|]. split; [exact Hss | exact Hps].
Qed.

Lemma insertionSort_sorts_prefix_witness :
  exists s, insertionSort [9; 4; 7; 1; 0] 3 = s ++ [1; 0] /\ StronglySorted Z.le s.
Proof.
  destruct (proj1 (insertionSort_sorts_prefix [9; 4; 7; 1; 0] 3 ltac:(simpl; lia)))
    as (s & Hs & Hss & _).
  exists s. split; [exact Hs | exact Hss].
Defined.

Lemma filter_length_le (P Q : Z -> Prop) `{!forall x, Decision (P x)}
    `{!forall x, Decision (Q x)} (l : list Z) :
  (forall x, P x -> Q x) -> (length (filter P l) <= length (filter Q l))%nat.
Proof.
  intros Hpq. induction l as [|x l IH]; [reflexivity|].
  rewrite !filter_cons. destruct (decide (P x)) as [Hp|Hp].
  - rewrite decide_True by auto. cbn. lia.
  - destruct (decide (Q x)); cbn; lia.
Qed.

Lemma median_in_majority_interval v (l : list Z) (lo hi : Z) :
  is_median v l ->
  (length l < 2 * length (filter (fun x => (lo <= x <= hi)%Z) l))%nat ->
  lo <= v <= hi.
Proof.
  intros (_ & Hb & Ha) Hmaj. unfold count_below, count_above in *.
  destruct (Z_lt_le_dec v lo) as [Hlo|Hlo].
  - pose proof (filter_length_le (fun x => lo <= x <= hi) (fun x => v < x) l
                  ltac:(cbn; intros; lia)). lia.
  - destruct (Z_lt_le_dec hi v) as [Hhi|Hhi]; [|lia].
    pose proof (filter_length_le (fun x => lo <= x <= hi) (fun x => x < v) l
                  ltac:(cbn; intros; lia)). lia.
Qed.

(** X7: spike rejection.  When at least 16 of the 31 samples of a burst lie
    in an interval, the value returned lies in it too, whatever the other
    samples are. *)
Theorem readTurbidityMedian_rejects_spikes (adc : nat -> Z) (lo hi : Z) :
  (16 <= length (filter (fun x => (lo <= x <= hi)%Z) (burst_samples adc)))%nat ->
  lo <= readTurbidityMedian adc <= hi.
Proof.
  intros H. apply (median_in_majority_interval _ (burst_samples adc)).
  - apply readTurbidityMedian_is_median.
  - rewrite burst_samples_length. unfold MEDIAN_SAMPLE_COUNT. lia.
Qed.

Lemma readTurbidityMedian_rejects_spikes_witness :
  700 <= readTurbidityMedian (fun i => if (i <? 15)%nat then 4095 else 700 + Z.of_nat i) <= 731.
Proof.
  apply readTurbidityMedian_rejects_spikes. vm_compute. lia.
Defined.

(** X8: the order of the samples does not matter.  Two bursts with the
    same samples in any order give the same value. *)
Theorem readTurbidityMedian_order_irrelevant (adc adc' : nat -> Z) :
  burst_samples adc ≡ₚ burst_samples adc' ->
  readTurbidityMedian adc = readTurbidityMedian adc'.
Proof.
  intros Hp. apply (is_median_unique _ _ (burst_samples adc')).
  - apply (is_median_perm _ _ _ Hp), readTurbidityMedian_is_median.
  - apply readTurbidityMedian_is_median.
Qed.

Lemma readTurbidityMedian_order_irrelevant_witness :
  readTurbidityMedian (fun i => Z.of_nat i) = readTurbidityMedian (fun i => 30 - Z.of_nat i).
Proof.
  apply readTurbidityMedian_order_irrelevant.
  change (burst_samples (fun i => 30 - Z.of_nat i))
    with (reverse (burst_samples (fun i => Z.of_nat i))).
  symmetry. apply reverse_Permutation.
Defined.

(* ====================================================================== *)
(** * Calibration store: restart, corruption, reachable states *)
(* ====================================================================== *)

Lemma setup_eeprom st : eeprom (setup st) = eeprom st.
Proof. unfold setup, loadCalibration. cbv zeta. case_ifs; reflexivity. Qed.

Lemma setup_cal st : cal (setup st) = EEPROM_get (eeprom st) EEPROM_ADDR.
Proof. unfold setup. cbv zeta. rewrite loadCalibration_cal. reflexivity. Qed.

Lemma setup_calLoaded st :
  calLoaded (setup st) = true <-> cal_valid (EEPROM_get (eeprom st) EEPROM_ADDR).
Proof. unfold setup. cbv zeta. rewrite loadCalibration_loaded. reflexivity. Qed.

Lemma setup_calStage st : calStage (setup st) = calStage st.
Proof. unfold setup, loadCalibration. cbv zeta. case_ifs; reflexivity. Qed.

(** X9: a saved pair survives a power cycle exactly when its two values
    differ.  After saveCalibration, the next setup reads the same record
    back; it reports it as loaded if and only if clear and cloudy are
    different. *)
Theorem saved_calibration_after_restart (clear cloudy : Z) (st : State) :
  is_u16 clear -> is_u16 cloudy ->
  let st' := setup (power_on (eeprom (saveCalibration clear cloudy st))) in
  cal st' = cal (saveCalibration clear cloudy st)
  /\ clearRaw (cal st') = clear /\ cloudyRaw (cal st') = cloudy
  /\ (calLoaded st' = true <-> clear <> cloudy)
  /\ calStage st' = CAL_NONE.
Proof.
  intros Hc Hd. cbv zeta.
  destruct (saveCalibration_commits clear cloudy st Hc Hd) as (Hcal & Hget & _ & _ & Hm & Hk).
  rewrite setup_cal. cbn [eeprom power_on]. rewrite Hget.
  split; [reflexivity|]. rewrite Hcal at 1 2. cbn [clearRaw cloudyRaw].
  split; [reflexivity|]. split; [reflexivity|]. split; [|apply setup_calStage].
  rewrite setup_calLoaded. cbn [eeprom power_on]. rewrite Hget. unfold cal_valid.
  rewrite Hcal at 3 4. cbn [clearRaw cloudyRaw]. tauto.
Qed.

Lemma saved_calibration_after_restart_witness :
  calLoaded (setup (power_on (eeprom (saveCalibration 900 300 (power_on blank_eeprom))))) = true.
Proof.
  assert (H : forall z, 0 <= z < 65536 -> is_u16 z) by (intros z Hz; exact Hz).
  apply (proj1 (proj2 (proj2 (proj2
    (saved_calibration_after_restart 900 300 (power_on blank_eeprom)
       (H 900 ltac:(lia)) (H 300 ltac:(lia))))))).
  discriminate.
Defined.

(** The checksum is the 16-bit sum of the two halves of the signature and
    of the two references. *)
Lemma checksum16_sum d :
  0 <= magic d -> is_u16 (clearRaw d) -> is_u16 (cloudyRaw d) ->
  checksum16 d
  = (magic d mod 65536 + (magic d / 65536) mod 65536 + clearRaw d + cloudyRaw d) mod 65536.
Proof.
  unfold is_u16. intros Hm Hc Hd. unfold checksum16, wrap16, wrap32. cbv zeta.
  change 0xFFFF with (Z.ones 16). rewrite !Z.land_ones by lia.
  rewrite Z.shiftr_div_pow2 by lia. change (2 ^ 16) with 65536.
  pose proof (Z.mod_pos_bound (magic d) 65536 ltac:(lia)) as Ha.
  pose proof (Z.mod_pos_bound (magic d / 65536) 65536 ltac:(lia)) as Hb.
  set (a := magic d mod 65536) in *. set (b := (magic d / 65536) mod 65536) in *.
  clearbody a b.
  rewrite (Z.mod_small a 65536), (Z.mod_small b 65536) by lia.
  rewrite (Z.mod_small (0 + a)) by lia.
  rewrite (Z.mod_small (0 + a + b)) by lia.
  rewrite (Z.mod_small (0 + a + b + clearRaw d)) by lia.
  rewrite (Z.mod_small (0 + a + b + clearRaw d + cloudyRaw d)) by lia.
  rewrite Z.mod_mod by lia. reflexivity.
Qed.

(** X10: corruption confined to one field of a valid stored record is always
    detected: whatever the field and its new value, loadCalibration
    reports the calibration as not loaded. *)
Theorem corrupted_field_is_rejected (st : State) (good : nat -> byte) :
  cal_valid (EEPROM_get good EEPROM_ADDR) ->
  one_field_differs (EEPROM_get good EEPROM_ADDR) (EEPROM_get (eeprom st) EEPROM_ADDR) ->
  calLoaded (loadCalibration st) = false.
Proof.
  intros (Hm & Hk & Hne) Hdiff.
  apply not_true_is_false. intros Hl. apply loadCalibration_loaded in Hl.
  destruct Hl as (Hm' & Hk' & Hne').
  destruct (EEPROM_get_fields good EEPROM_ADDR) as (Hgm & Hgc & Hgd & Hgk).
  destruct (EEPROM_get_fields (eeprom st) EEPROM_ADDR) as (Hbm & Hbc & Hbd & Hbk).
  set (c := EEPROM_get good EEPROM_ADDR) in *.
  set (c' := EEPROM_get (eeprom st) EEPROM_ADDR) in *.
  rewrite checksum16_sum in Hk, Hk' by (assumption || lia).
  unfold is_u16 in *.
  destruct Hdiff as [(H1 & H2 & H3 & H4)|[(H1 & H2 & H3 & H4)|[(H1 & H2 & H3 & H4)
                    |(H1 & H2 & H3 & H4)]]].
  - congruence.
  - rewrite <- H1, <- H3, <- H4 in Hk'. rewrite Hk in Hk'. clear Hk.
    set (S := magic c mod 65536 + (magic c / 65536) mod 65536) in *.
    clearbody S c c'. Z.div_mod_to_equations. lia.
  - rewrite <- H1, <- H2, <- H4 in Hk'. rewrite Hk in Hk'. clear Hk.
    set (S := magic c mod 65536 + (magic c / 65536) mod 65536) in *.
    clearbody S c c'. Z.div_mod_to_equations. lia.
  - rewrite <- H1, <- H2, <- H3 in Hk'. congruence.
Qed.

Lemma corrupted_field_is_rejected_witness :
  calLoaded (loadCalibration
               (power_on (write16 4 901 (eeprom (saveCalibration 900 300 (power_on blank_eeprom))))))
  = false.
Proof.
  apply (corrupted_field_is_rejected _ (eeprom (saveCalibration 900 300 (power_on blank_eeprom)))).
  - repeat split. vm_compute. discriminate.
  - right. left. repeat split. vm_compute. discriminate.
Defined.

(** X11: the checksum does not protect the order of the references.  The
    record obtained from a valid one by exchanging clearRaw and cloudyRaw is
    valid too, and is loaded with the direction reversed. *)
Theorem swapped_references_are_accepted (e : nat -> byte) :
  cal_valid (EEPROM_get e EEPROM_ADDR) ->
  let rec := EEPROM_get e EEPROM_ADDR in
  let st' := loadCalibration (power_on (EEPROM_put EEPROM_ADDR (swap_refs rec) e)) in
  calLoaded st' = true
  /\ clearRaw (cal st') = cloudyRaw rec /\ cloudyRaw (cal st') = clearRaw rec
  /\ crc (cal st') = crc rec.
Proof.
  intros (Hm & Hk & Hne). cbv zeta.
  destruct (EEPROM_get_fields e EEPROM_ADDR) as (Hgm & Hgc & Hgd & Hgk).
  set (rec := EEPROM_get e EEPROM_ADDR) in *.
  assert (Hget : EEPROM_get (EEPROM_put EEPROM_ADDR (swap_refs rec) e) EEPROM_ADDR
                 = swap_refs rec).
  { rewrite EEPROM_get_put. unfold swap_refs, is_u16 in *.
    cbn [magic clearRaw cloudyRaw crc]. rewrite !Z.mod_small by lia. reflexivity. }
  rewrite loadCalibration_cal. cbn [eeprom power_on]. rewrite Hget.
  split; [|repeat split].
  apply loadCalibration_loaded. cbn [eeprom power_on]. rewrite Hget.
  unfold cal_valid, swap_refs. cbn [magic clearRaw cloudyRaw crc].
  split; [exact Hm|]. split; [|congruence].
  rewrite Hk. rewrite !checksum16_sum by (cbn [magic clearRaw cloudyRaw crc]; assumption || lia).
  cbn [magic clearRaw cloudyRaw crc]. f_equal. lia.
Qed.

Lemma swapped_references_are_accepted_witness :
  clearRaw (cal (loadCalibration (power_on
     (EEPROM_put EEPROM_ADDR
        (swap_refs (EEPROM_get (eeprom (saveCalibration 900 300 (power_on blank_eeprom)))
                               EEPROM_ADDR))
        (eeprom (saveCalibration 900 300 (power_on blank_eeprom))))))) = 300.
Proof.
  refine (proj1 (proj2 (swapped_references_are_accepted
            (eeprom (saveCalibration 900 300 (power_on blank_eeprom))) _))).
  repeat split. vm_compute. discriminate.
Defined.

(** X12: saveCalibration writes the record and nothing else.  Every EEPROM
    cell from address 12 on (past the twelve bytes of a CalData at address
    0) keeps its content, and smoother, stage, LED statics and GPIO are
    untouched. *)
Theorem saveCalibration_frame (clear cloudy : Z) (st : State) (a : nat) :
  (12 <= a)%nat ->
  eeprom (saveCalibration clear cloudy st) a = eeprom st a
  /\ emaRaw (saveCalibration clear cloudy st) = emaRaw st
  /\ calStage (saveCalibration clear cloudy st) = calStage st
  /\ lastToggle (saveCalibration clear cloudy st) = lastToggle st
  /\ ledState (saveCalibration clear cloudy st) = ledState st
  /\ pinModes (saveCalibration clear cloudy st) = pinModes st
  /\ pinLevels (saveCalibration clear cloudy st) = pinLevels st.
Proof.
  intros Ha. split; [|repeat split].
  unfold saveCalibration. cbv zeta. cbn [eeprom set_calLoaded set_eeprom set_cal].
  unfold EEPROM_put, write32, write16, EEPROM_ADDR.
  rewrite !fn_lookup_insert_ne by lia. reflexivity.
Qed.

Lemma saveCalibration_frame_witness :
  eeprom (saveCalibration 900 300 (power_on blank_eeprom)) 12 = Byte.xff.
Proof.
  apply (proj1 (saveCalibration_frame 900 300 (power_on blank_eeprom) 12 ltac:(lia))).
Defined.

Lemma calibration_invariant_setup e : calibration_invariant (setup (power_on e)).
Proof.
  unfold calibration_invariant. split; [apply setup_cal_fields|].
  rewrite setup_calStage, setup_eeprom, setup_cal. cbn [calStage eeprom power_on].
  split; [|split; [discriminate | intros [H|H]; discriminate]].
  intros Hl. apply setup_calLoaded in Hl. cbn [eeprom power_on] in Hl.
  destruct Hl as (Hm & Hk & _). auto.
Qed.

(** A long press on a calibrated device starts over: RAM only. *)
Lemma restart_press adc st :
  calStage st = CAL_DONE \/ (calStage st = CAL_NONE /\ calLoaded st = true) ->
  loop_calibration true adc st = set_calStage CAL_WAIT_CLEAR (set_calLoaded false st).
Proof.
  intros [H | [H1 H2]]; unfold loop_calibration; cbv zeta.
  - rewrite H, andb_false_r. rewrite H. reflexivity.
  - rewrite H1, H2. cbn [negb andb]. rewrite H1. reflexivity.
Qed.

Lemma calibration_invariant_step b adc st :
  calibration_invariant st -> calibration_invariant (loop_calibration b adc st).
Proof.
  intros (Hf & Hl & Hd & Hw).
  split; [apply loop_calibration_cal_fields; exact Hf|].
  destruct b.
  - (* a long press *)
    destruct (calStage st) eqn:Es.
    + destruct (calLoaded st) eqn:El.
      * rewrite restart_press by auto.
        cbn [calStage calLoaded set_calStage set_calLoaded].
        split; [discriminate|]. split; [discriminate | reflexivity].
      * destruct (first_press adc st El ltac:(auto)) as (H1 & _ & H3 & _).
        rewrite H1, H3. split; [discriminate|]. split; [discriminate | reflexivity].
    + specialize (Hw ltac:(auto)).
      destruct (first_press adc st Hw ltac:(auto)) as (H1 & _ & H3 & _).
      rewrite H1, H3. split; [discriminate|]. split; [discriminate | reflexivity].
    + destruct (second_press adc st Es (proj1 Hf)) as (H1 & H2 & H3 & H4).
      rewrite H1, H2, H4. split; [|split; [reflexivity | intros [?|?]; discriminate]].
      intros _. split; [reflexivity|]. rewrite H3. cbn [magic crc]. split; reflexivity.
    + rewrite restart_press by auto.
      cbn [calStage calLoaded set_calStage set_calLoaded].
      split; [discriminate|]. split; [discriminate | reflexivity].
  - (* no press *)
    destruct (calLoaded st) eqn:El.
    + rewrite loop_calibration_idle by auto. rewrite El. auto.
    + destruct (calStage st) eqn:Es.
      * rewrite loop_calibration_forced by assumption.
        cbn [calStage calLoaded set_calStage].
        rewrite El. split; [discriminate|]. split; [discriminate | reflexivity].
      * rewrite loop_calibration_idle by (right; congruence). rewrite El, Es. auto.
      * rewrite loop_calibration_idle by (right; congruence). rewrite El, Es. auto.
      * rewrite loop_calibration_idle by (right; congruence). rewrite El, Es. auto.
Qed.

(** X13: in every state the firmware can reach, the two references held in
    RAM are 16-bit values; while the calibration counts as loaded the
    record in RAM is the one in EEPROM and has the signature and a matching
    checksum; stage DONE implies loaded and the two waiting stages imply
    not loaded. *)
Theorem reachable_calibration_invariant (st : State) :
  reachable st -> calibration_invariant st.
Proof.
  intros (e & inputs & ->). unfold run_calibration.
  induction inputs as [|i inputs IH] using rev_ind.
  - apply calibration_invariant_setup.
  - rewrite foldl_app. cbn [foldl]. apply calibration_invariant_step. exact IH.
Qed.

Lemma reachable_calibration_invariant_witness :
  calibration_invariant
    (run_calibration [(true, fun _ => 900); (false, fun _ => 0); (true, fun _ => 300)]
                     (setup (power_on blank_eeprom))).
Proof.
  apply reachable_calibration_invariant. eexists _, _. reflexivity.
Defined.

(** X14: recalibration is abandoned safely.  A long press on a device with a
    valid loaded calibration drops it in RAM only and asks for a new clear
    reference; neither that press nor the capture of the new clear
    reference writes the EEPROM, and a restart at either point comes back
    with the old calibration loaded. *)
Theorem recalibration_keeps_stored_record (st : State) (adc1 adc2 : nat -> Z) :
  calLoaded st = true ->
  calStage st = CAL_DONE \/ calStage st = CAL_NONE ->
  EEPROM_get (eeprom st) EEPROM_ADDR = cal st ->
  cal_valid (cal st) ->
  let st1 := loop_calibration true adc1 st in
  let st2 := loop_calibration true adc2 st1 in
  calLoaded st1 = false /\ calStage st1 = CAL_WAIT_CLEAR /\ eeprom st1 = eeprom st
  /\ calLoaded st2 = false /\ calStage st2 = CAL_WAIT_CLOUDY /\ eeprom st2 = eeprom st
  /\ clearRaw (cal st2) = readTurbidityMedian adc2
  /\ cal (setup (power_on (eeprom st1))) = cal st
  /\ calLoaded (setup (power_on (eeprom st1))) = true
  /\ cal (setup (power_on (eeprom st2))) = cal st
  /\ calLoaded (setup (power_on (eeprom st2))) = true.
Proof.
  intros Hl Hs Hget Hv. cbv zeta.
  rewrite (restart_press adc1 st) by (destruct Hs; auto).
  set (st1 := set_calStage CAL_WAIT_CLEAR (set_calLoaded false st)).
  destruct (first_press adc2 st1 eq_refl ltac:(right; reflexivity)) as (H1 & H2 & H3 & H4).
  rewrite H1, H2, H3, H4. unfold st1. cbn [calLoaded calStage eeprom set_calStage set_calLoaded].
  assert (Hr : cal (setup (power_on (eeprom st))) = cal st
               /\ calLoaded (setup (power_on (eeprom st))) = true).
  { rewrite setup_cal. cbn [eeprom power_on]. rewrite Hget. split; [reflexivity|].
    apply setup_calLoaded. cbn [eeprom power_on]. rewrite Hget. exact Hv. }
  destruct Hr as [Hr1 Hr2]. repeat split; auto.
Qed.

Lemma recalibration_keeps_stored_record_witness :
  calLoaded (setup (power_on (eeprom
     (loop_calibration true (fun _ => 850)
        (loop_calibration true (fun _ => 0) (calibrated 900 300)))))) = true.
Proof.
  assert (Hv : cal_valid (cal (calibrated 900 300)))
    by (repeat split; vm_compute; discriminate).
  destruct (recalibration_keeps_stored_record (calibrated 900 300) (fun _ => 0)
              (fun _ => 850) eq_refl (or_intror eq_refl) eq_refl Hv)
    as (_ & _ & _ & _ & _ & _ & _ & _ & _ & _ & H).
  exact H.
Defined.

(* ====================================================================== *)
(** * Index mapper: closed forms *)
(* ====================================================================== *)

(** X15: without calibration the index is 100 - floor(100*raw/4095), cut at
    0: it is 100 at raw 0, 0 from raw 4095 upward, and never increases with
    raw. *)
Theorem uncalibrated_index_closed_form (st : State) (raw raw' : Z) :
  calLoaded st = false -> 0 <= raw <= raw' ->
  computeTurbidityIndex st raw = Some (Z.max 0 (100 - 100 * raw / 4095))
  /\ computeTurbidityIndex st 0 = Some 100
  /\ (4095 <= raw -> computeTurbidityIndex st raw = Some 0)
  /\ exists i i', computeTurbidityIndex st raw = Some i
       /\ computeTurbidityIndex st raw' = Some i' /\ i' <= i.
Proof.
  intros Hc Hr.
  assert (Hform : forall r, 0 <= r ->
            computeTurbidityIndex st r = Some (Z.max 0 (100 - 100 * r / 4095))).
  { intros r Hr0. unfold computeTurbidityIndex, arduino_map. rewrite Hc. cbn [negb]. cbv zeta.
    change (4095 - 0) with 4095.
    replace ((r - 0) * (0 - 100)) with (- (100 * r)) by lia.
    rewrite Z.quot_opp_l by lia. rewrite Z.quot_div_nonneg by lia.
    pose proof (Z.div_pos (100 * r) 4095 ltac:(lia) ltac:(lia)).
    f_equal. destruct (Z.ltb_spec (- (100 * r / 4095) + 100) 0).
    - change (100 <? 0) with false. cbv iota. lia.
    - destruct (Z.ltb_spec 100 (- (100 * r / 4095) + 100)); lia. }
  split; [apply Hform; lia|]. split; [rewrite Hform by lia; reflexivity|]. split.
  - intros H. rewrite Hform by lia.
    assert (100 <= 100 * raw / 4095) by (apply Z.div_le_lower_bound; lia).
    f_equal. lia.
  - eexists _, _. split; [apply Hform; lia|]. split; [apply Hform; lia|].
    assert (100 * raw / 4095 <= 100 * raw' / 4095) by (apply Z.div_le_mono; lia). lia.
Qed.

Lemma uncalibrated_index_closed_form_witness :
  computeTurbidityIndex (power_on blank_eeprom) 2000 = Some 52.
Proof.
  exact (proj1 (uncalibrated_index_closed_form (power_on blank_eeprom) 2000 2000
                  eq_refl ltac:(lia))).
Defined.

(** X16: with a loaded calibration of two different references, the index is
    0 at the clear reference and everywhere on its far side, 100 at the
    cloudy reference and everywhere on its far side; the status there is
    CLEAR and TURBID. *)
Theorem calibrated_index_saturates (st : State) (raw : Z) :
  calLoaded st = true ->
  is_u16 raw -> cal_fields_u16 st -> clearRaw (cal st) <> cloudyRaw (cal st) ->
  let clear := clearRaw (cal st) in
  let cloudy := cloudyRaw (cal st) in
  ((clear < cloudy /\ raw <= clear) \/ (cloudy < clear /\ clear <= raw) ->
     computeTurbidityIndex st raw = Some 0
     /\ classifyStatus <$> computeTurbidityIndex st raw = Some "CLEAR")
  /\ ((clear < cloudy /\ cloudy <= raw) \/ (cloudy < clear /\ raw <= cloudy) ->
     computeTurbidityIndex st raw = Some 100
     /\ classifyStatus <$> computeTurbidityIndex st raw = Some "TURBID").
Proof.
  intros Hc Hr [Hf1 Hf2] Hne. cbv zeta.
  destruct (computeTurbidityIndex_calibrated st raw Hc Hr Hf1 Hf2 Hne)
    as (idx & E & _ & Hup & Hdown).
  rewrite E. split.
  - intros [[H1 H2]|[H1 H2]].
    + rewrite (proj1 (Hup H1) H2). split; reflexivity.
    + rewrite (proj1 (Hdown H1) H2). split; reflexivity.
  - intros [[H1 H2]|[H1 H2]].
    + rewrite (proj2 (Hup H1) H2). split; reflexivity.
    + rewrite (proj2 (Hdown H1) H2). split; reflexivity.
Qed.

Lemma calibrated_index_saturates_witness :
  computeTurbidityIndex (calibrated 900 300) 250 = Some 100.
Proof.
  assert (H : forall z, 0 <= z < 65536 -> is_u16 z) by (intros z Hz; exact Hz).
  refine (proj1 (proj2 (calibrated_index_saturates (calibrated 900 300) 250 eq_refl
            (H 250 ltac:(lia)) (conj (H 900 ltac:(lia)) (H 300 ltac:(lia))) _) _)).
  - discriminate.
  - right. split; reflexivity || (vm_compute; discriminate).
Defined.

Lemma index_of_ratio_division_by_zero n :
  0 < Z.abs n < 2 ^ 24 ->
  index_of_ratio (fdiv (of_int n) (of_int 0)) = Some (if n <? 0 then 0 else 100).
Proof.
  intros Hn. rewrite of_int_canon by lia.
  destruct (canon_finite n Hn) as (m & -> & _).
  destruct (n <? 0); reflexivity.
Qed.

(** X17: the one input on which the index is undefined.  For 16-bit
    arguments computeTurbidityIndex is undefined exactly when a calibration
    with two equal references is loaded and raw equals that reference (0/0,
    then NaN converted to int); with such a calibration it returns 100
    below the reference and 0 above it. *)
Theorem computeTurbidityIndex_undefined_iff (st : State) (raw : Z) :
  is_u16 raw -> cal_fields_u16 st ->
  (computeTurbidityIndex st raw = None <->
     calLoaded st = true /\ clearRaw (cal st) = cloudyRaw (cal st)
     /\ raw = clearRaw (cal st))
  /\ (calLoaded st = true -> clearRaw (cal st) = cloudyRaw (cal st) ->
      (raw < clearRaw (cal st) -> computeTurbidityIndex st raw = Some 100)
      /\ (clearRaw (cal st) < raw -> computeTurbidityIndex st raw = Some 0)).
Proof.
  intros Hr [Hf1 Hf2].
  assert (Hdeg : calLoaded st = true -> clearRaw (cal st) = cloudyRaw (cal st) ->
                 computeTurbidityIndex st raw
                 = index_of_ratio (fdiv (of_int (clearRaw (cal st) - raw)) (of_int 0))).
  { intros Hc He. rewrite computeTurbidityIndex_ratio by assumption.
    rewrite <- He, Z.ltb_irrefl, Z.sub_diag. reflexivity. }
  split.
  - split.
    + intros Hnone. destruct (calLoaded st) eqn:Hc.
      * destruct (Z.eq_dec (clearRaw (cal st)) (cloudyRaw (cal st))) as [He|Hne].
        -- split; [reflexivity|]. split; [exact He|].
           destruct (Z.eq_dec raw (clearRaw (cal st))) as [|Hraw]; [assumption|].
           rewrite Hdeg in Hnone by auto.
           rewrite index_of_ratio_division_by_zero in Hnone by small_int. discriminate.
        -- destruct (computeTurbidityIndex_calibrated st raw Hc Hr Hf1 Hf2 Hne)
             as (idx & E & _). congruence.
      * destruct (computeTurbidityIndex_uncalibrated st raw Hc) as (idx & E & _). congruence.
    + intros (Hc & He & ->). rewrite Hdeg by assumption. rewrite Z.sub_diag. reflexivity.
  - intros Hc He. split; intros Hlt; rewrite Hdeg by assumption;
      rewrite index_of_ratio_division_by_zero by small_int.
    + replace (clearRaw (cal st) - raw <? 0) with false by (symmetry; apply Z.ltb_ge; lia).
      reflexivity.
    + replace (clearRaw (cal st) - raw <? 0) with true by (symmetry; apply Z.ltb_lt; lia).
      reflexivity.
Qed.

Lemma computeTurbidityIndex_undefined_iff_witness :
  computeTurbidityIndex (calibrated 500 500) 123 = Some 100.
Proof.
  assert (H : forall z, 0 <= z < 65536 -> is_u16 z) by (intros z Hz; exact Hz).
  refine (proj1 (proj2 (computeTurbidityIndex_undefined_iff (calibrated 500 500) 123
            (H 123 ltac:(lia)) (conj (H 500 ltac:(lia)) (H 500 ltac:(lia)))) eq_refl eq_refl) _).
  vm_compute. reflexivity.
Defined.

(* ====================================================================== *)
(** * Status and LED *)
(* ====================================================================== *)

(** X18: the status never improves when the index grows. *)
Theorem classifyStatus_monotone (i j : Z) :
  i <= j -> status_rank (classifyStatus i) <= status_rank (classifyStatus j).
Proof.
  intros H. unfold classifyStatus, THRESH_CLEAR, THRESH_MODERATE.
  destruct (Z.ltb_spec i 30), (Z.ltb_spec j 30), (Z.ltb_spec i 70), (Z.ltb_spec j 70);
    cbn; lia.
Qed.

Lemma classifyStatus_monotone_witness :
  status_rank (classifyStatus 29) <= status_rank (classifyStatus 30).
Proof. apply classifyStatus_monotone. lia. Defined.

Lemma updateLed_moderate_early PIN_LED idx now st :
  THRESH_CLEAR <= idx < THRESH_MODERATE -> wrap32 (now - lastToggle st) < 700 ->
  updateLed PIN_LED idx now st = st.
Proof.
  intros [H1 H2] H3. unfold updateLed.
  replace (idx <? THRESH_CLEAR) with false by (symmetry; apply Z.ltb_ge; lia).
  replace (idx <? THRESH_MODERATE) with true by (symmetry; apply Z.ltb_lt; lia).
  replace (700 <=? wrap32 (now - lastToggle st)) with false
    by (symmetry; apply Z.leb_gt; lia).
  reflexivity.
Qed.

(** X19: the LED follows the band, and blinks no faster than 700 ms per
    phase.  An index below 30 drives PIN_LED low and one of 70 or more
    drives it high.  In between, a call at least 700 ms after the last
    toggle inverts ledState, writes it and records the time; after that no
    sequence of in-between calls made less than 700 ms later changes
    anything. *)
Theorem updateLed_band_and_blink (PIN_LED : Z) (st : State) (idx now : Z)
    (later : list (Z * Z)) :
  (idx < THRESH_CLEAR -> pinLevels (updateLed PIN_LED idx now st) !! PIN_LED = Some false)
  /\ (THRESH_MODERATE <= idx ->
        pinLevels (updateLed PIN_LED idx now st) !! PIN_LED = Some true)
  /\ (THRESH_CLEAR <= idx < THRESH_MODERATE -> 700 <= wrap32 (now - lastToggle st) ->
      let st' := updateLed PIN_LED idx now st in
      ledState st' = negb (ledState st) /\ lastToggle st' = now
      /\ pinLevels st' !! PIN_LED = Some (negb (ledState st))
      /\ (Forall (fun c => THRESH_CLEAR <= c.1 < THRESH_MODERATE
                           /\ wrap32 (c.2 - now) < 700) later ->
          run_led PIN_LED later st' = st')).
Proof.
  unfold THRESH_CLEAR, THRESH_MODERATE. split; [|split].
  - intros H. unfold updateLed, THRESH_CLEAR.
    replace (idx <? 30) with true by (symmetry; apply Z.ltb_lt; lia).
    cbn. apply lookup_insert_eq.
  - intros H. unfold updateLed, THRESH_CLEAR, THRESH_MODERATE.
    replace (idx <? 30) with false by (symmetry; apply Z.ltb_ge; lia).
    replace (idx <? 70) with false by (symmetry; apply Z.ltb_ge; lia).
    cbn. apply lookup_insert_eq.
  - intros H Ht. cbv zeta.
    assert (E : updateLed PIN_LED idx now st
                = digitalWrite PIN_LED (negb (ledState st))
                    (set_ledState (negb (ledState st)) (set_lastToggle now st))).
    { unfold updateLed, THRESH_CLEAR, THRESH_MODERATE.
      replace (idx <? 30) with false by (symmetry; apply Z.ltb_ge; lia).
      replace (idx <? 70) with true by (symmetry; apply Z.ltb_lt; lia).
      replace (700 <=? wrap32 (now - lastToggle st)) with true
        by (symmetry; apply Z.leb_le; lia).
      reflexivity. }
    rewrite E. split; [reflexivity|]. split; [reflexivity|].
    split; [cbn; apply lookup_insert_eq|].
    set (st' := digitalWrite _ _ _).
    assert (Hlt : lastToggle st' = now) by reflexivity. clearbody st'.
    intros Hlater. unfold run_led.
    induction later as [|[i t] later IH]; [reflexivity|].
    apply Forall_cons in Hlater as [[Hi Ht'] Hlater]. cbn [fst snd] in *.
    cbn [foldl fst snd].
    rewrite updateLed_moderate_early by (unfold THRESH_CLEAR, THRESH_MODERATE; rewrite ?Hlt; lia).
    apply IH. exact Hlater.
Qed.

Lemma updateLed_band_and_blink_witness :
  pinLevels (updateLed 13 10 5000 (setup (power_on blank_eeprom))) !! 13 = Some false.
Proof.
  apply (proj1 (updateLed_band_and_blink 13 (setup (power_on blank_eeprom)) 10 5000 [])).
  unfold THRESH_CLEAR. lia.
Defined.

(* ====================================================================== *)
(** * The simpler sketch: averaging and classification *)
(* ====================================================================== *)

Lemma sum_reads_bounds adc lo hi : forall fuel i sum,
  (forall j, (i <= j < i + fuel)%nat -> lo <= adc j <= hi) ->
  sum + Z.of_nat fuel * lo <= Simple.sum_reads adc i fuel sum <= sum + Z.of_nat fuel * hi.
Proof.
  induction fuel as [|fuel IH]; intros i sum H; cbn [Simple.sum_reads]; [lia|].
  specialize (IH (S i) (sum + adc i) ltac:(intros j Hj; apply H; lia)).
  specialize (H i ltac:(lia)). lia.
Qed.

Lemma quot_between n lo hi s :
  0 < n -> n * lo <= s <= n * hi -> lo <= Z.quot s n <= hi.
Proof.
  intros Hn Hs. destruct (Z_lt_le_dec s 0) as [Hneg|Hpos].
  - replace s with (- (- s)) by lia. rewrite Z.quot_opp_l by lia.
    rewrite Z.quot_div_nonneg by lia.
    assert (H0 : 0 <= - s / n) by (apply Z.div_pos; lia).
    assert (H1 : - s / n <= - lo) by (apply Z.div_le_upper_bound; lia).
    split; [lia|].
    destruct (Z_lt_le_dec hi 0) as [Hh|Hh]; [|lia].
    assert (- hi <= - s / n) by (apply Z.div_le_lower_bound; lia). lia.
  - rewrite Z.quot_div_nonneg by lia.
    assert (H0 : 0 <= s / n) by (apply Z.div_pos; lia).
    assert (H1 : s / n <= hi) by (apply Z.div_le_upper_bound; lia).
    split; [|lia].
    destruct (Z_lt_le_dec 0 lo) as [Hl|Hl]; [|lia].
    apply Z.div_le_lower_bound; lia.
Qed.

(** X20: the average stays within the readings.  For a positive sample count
    of type int and readings between lo and hi (both values of int),
    readAveragedADC returns a value between lo and hi; the sum of at most
    32767 such readings is within long, so the accumulation cannot
    overflow. *)
Theorem readAveragedADC_within_readings (adc : nat -> Z) (samples lo hi : Z) :
  0 < samples <= 32767 -> -32768 <= lo -> hi <= 32767 ->
  (forall j, (j < Z.to_nat samples)%nat -> lo <= adc j <= hi) ->
  exists avg, Simple.readAveragedADC adc samples = Some avg /\ lo <= avg <= hi
    /\ INT_MIN <= Simple.sum_reads adc 0 (Z.to_nat samples) 0 <= INT_MAX.
Proof.
  intros Hn Hlo Hhi Hadc. unfold Simple.readAveragedADC.
  replace (samples =? 0) with false by (symmetry; apply Z.eqb_neq; lia).
  pose proof (sum_reads_bounds adc lo hi (Z.to_nat samples) 0%nat 0
                ltac:(intros j Hj; apply Hadc; lia)) as Hs.
  rewrite Z2Nat.id in Hs by lia.
  pose proof (Hadc 0%nat ltac:(lia)) as H0.
  set (total := Simple.sum_reads adc 0 (Z.to_nat samples) 0) in *.
  assert (Hb : samples * lo <= total <= samples * hi) by lia.
  pose proof (quot_between samples lo hi total (proj1 Hn) Hb) as Hq.
  eexists. split; [reflexivity|]. split.
  - unfold Simple.to_int16. rewrite Z.mod_small by lia. lia.
  - unfold INT_MIN, INT_MAX. nia.
Qed.

Lemma readAveragedADC_within_readings_witness :
  exists avg, Simple.readAveragedADC (fun i => 500 + Z.of_nat i) 30 = Some avg
    /\ 500 <= avg <= 529
    /\ INT_MIN <= Simple.sum_reads (fun i => 500 + Z.of_nat i) 0 (Z.to_nat 30) 0 <= INT_MAX.
Proof.
  apply readAveragedADC_within_readings; lia.
Defined.

(** X21: without a positive sample count nothing is read: a count of zero
    divides by zero, a negative count returns 0, whatever the sensor
    shows. *)
Theorem readAveragedADC_no_samples (adc : nat -> Z) (samples : Z) :
  samples <= 0 ->
  Simple.readAveragedADC adc samples = (if samples =? 0 then None else Some 0).
Proof.
  intros H. unfold Simple.readAveragedADC.
  replace (Z.to_nat samples) with 0%nat by lia. cbn [Simple.sum_reads].
  destruct (Z.eqb_spec samples 0); [reflexivity|].
  rewrite Z.quot_0_l by lia. reflexivity.
Qed.

Lemma readAveragedADC_no_samples_witness :
  Simple.readAveragedADC (fun _ => 1023) (-3) = Some 0.
Proof. apply (readAveragedADC_no_samples (fun _ => 1023) (-3)). lia. Defined.

(** X22: the raw reading decides the sensor error and the index the rest.
    classifyWater returns SENSOR_ERROR exactly for raw <= 5 or raw >= 1018,
    whatever the index; otherwise it never returns SENSOR_ERROR and its
    severity does not decrease when the index grows. *)
Theorem classifyWater_error_and_order (index index' raw : Z) :
  (Simple.classifyWater index raw = Simple.SENSOR_ERROR <-> raw <= 5 \/ 1018 <= raw)
  /\ (index <= index' ->
      Simple.severity (Simple.classifyWater index raw)
      <= Simple.severity (Simple.classifyWater index' raw)).
Proof.
  unfold Simple.classifyWater, Simple.CLEAR_MAX, Simple.CLOUDY_MAX.
  destruct (Z.leb_spec raw 5), (Z.leb_spec 1018 raw); cbn [orb];
    try (split; [split; [lia | reflexivity] | intros; cbn; lia]).
  split.
  - split; [|lia]. destruct (index <=? 20), (index <=? 60); discriminate.
  - intros Hle.
    destruct (Z.leb_spec index 20), (Z.leb_spec index' 20),
             (Z.leb_spec index 60), (Z.leb_spec index' 60); cbn; lia.
Qed.

Lemma classifyWater_error_and_order_witness :
  Simple.severity (Simple.classifyWater 20 500)
  <= Simple.severity (Simple.classifyWater 21 500).
Proof. apply (proj2 (classifyWater_error_and_order 20 21 500)). lia. Defined.

Lemma simple_first_index_all : all_from simple_first_index_ok 0 (Z.to_nat 1024) = true.
Proof. vm_compute. reflexivity. Qed.

(** X23: the first index of the simpler sketch.  With the calibration the
    sketch ships with (clear 900, dirty 300) and any 10-bit averaged
    reading r, the first iteration's index is defined, lies in 0..100, is
    100 for r <= 300 and 0 for r >= 900, and does not grow when r does. *)
Theorem simple_first_index_profile (r : Z) :
  0 <= r <= 1023 ->
  exists i j, simple_first_index r = Some i /\ simple_first_index (r + 1) = Some j
    /\ 0 <= i <= 100 /\ j <= i
    /\ (r <= 300 -> i = 100) /\ (900 <= r -> i = 0).
Proof.
  intros Hr.
  pose proof (all_from_spec _ _ 0 r simple_first_index_all ltac:(lia)) as H.
  unfold simple_first_index_ok in H.
  destruct (simple_first_index r) as [i|]; [|discriminate].
  destruct (simple_first_index (r + 1)) as [j|]; [|discriminate].
  exists i, j. split; [reflexivity|]. split; [reflexivity|].
  repeat (apply andb_true_iff in H as [H ?]).
  destruct (Z.leb_spec r 300), (Z.leb_spec 900 r); lia.
Qed.

Lemma simple_first_index_profile_witness :
  exists i j, simple_first_index 600 = Some i /\ simple_first_index (600 + 1) = Some j
    /\ 0 <= i <= 100 /\ j <= i
    /\ (600 <= 300 -> i = 100) /\ (900 <= 600 -> i = 0).
Proof. apply simple_first_index_profile. lia. Defined.

(* ====================================================================== *)
(** * binary32: rounding is to nearest and monotone *)
(* ====================================================================== *)

Lemma fval_finite m e :
  -400 <= e -> fval (S754_finite false m e) = Zpos m * 2 ^ (e + 400).
Proof. intros H. unfold fval. apply Z.shiftl_mul_pow2. lia. Qed.

Lemma iter_pos_inv {A : Type} (f : A -> A) (P : Z -> A -> Prop) :
  (forall k x, 0 <= k -> P k x -> P (k + 1) (f x)) ->
  forall p k x, 0 <= k -> P k x -> P (k + Zpos p) (SpecFloat.iter_pos f p x).
Proof.
  intros Hstep. induction p as [p IH|p IH|]; intros k x Hk Hx; cbn [SpecFloat.iter_pos].
  - replace (k + Zpos p~1) with (k + 1 + Zpos p + Zpos p) by lia.
    apply IH; [lia|]. apply IH; [lia|]. apply Hstep; assumption.
  - replace (k + Zpos p~0) with (k + Zpos p + Zpos p) by lia.
    apply IH; [lia|]. apply IH; assumption.
  - apply Hstep; assumption.
Qed.

Lemma shr_1_fields r :
  0 <= shr_m r ->
  shr_m (shr_1 r) = shr_m r / 2
  /\ shr_r (shr_1 r) = Z.odd (shr_m r)
  /\ shr_s (shr_1 r) = shr_r r || shr_s r.
Proof.
  destruct r as [m rb sb]. cbn [shr_m shr_r shr_s]. intros Hm.
  destruct m as [|[p|p|]|p]; try lia; cbn [shr_1 shr_m shr_r shr_s].
  - repeat split; reflexivity.
  - split; [|split; reflexivity].
    change (Zpos p~1) with (2 * Zpos p + 1). apply Z.div_unique with 1; lia.
  - split; [|split; reflexivity].
    change (Zpos p~0) with (2 * Zpos p). apply Z.div_unique with 0; lia.
  - repeat split; reflexivity.
Qed.

Lemma shr_inv_step M k r : 0 <= M -> 0 <= k -> shr_inv M k r -> shr_inv M (k + 1) (shr_1 r).
Proof.
  intros HM Hk (Hm & Hr & Hs).
  assert (PA : 0 < 2 ^ k) by (apply Z.pow_pos_nonneg; lia).
  assert (Hq : 0 <= M / 2 ^ k) by (apply Z.div_pos; lia).
  destruct (shr_1_fields r ltac:(lia)) as (E1 & E2 & E3).
  pose proof (Z.div_mod M (2 ^ k) ltac:(lia)) as Hdm.
  pose proof (Z.mod_pos_bound M (2 ^ k) PA) as Hrem.
  pose proof (Z.div_mod (M / 2 ^ k) 2 ltac:(lia)) as Hdm2.
  pose proof (Z.mod_pos_bound (M / 2 ^ k) 2 ltac:(lia)) as Hrem2.
  assert (EA : 2 ^ (k + 1) = 2 * 2 ^ k) by (rewrite Z.pow_add_r by lia; change (2 ^ 1) with 2; lia).
  assert (Eq' : M / 2 ^ (k + 1) = M / 2 ^ k / 2)
    by (rewrite EA, Z.mul_comm, <- Z.div_div by lia; reflexivity).
  assert (Er' : M mod 2 ^ (k + 1) = (M / 2 ^ k) mod 2 * 2 ^ k + M mod 2 ^ k).
  { symmetry. apply Z.mod_unique with (M / 2 ^ k / 2); [left; rewrite EA; nia|].
    rewrite EA. nia. }
  assert (Hodd : Z.odd (M / 2 ^ k) = true <-> (M / 2 ^ k) mod 2 = 1).
  { rewrite (Zmod_odd (M / 2 ^ k)). destruct (Z.odd (M / 2 ^ k)); split; intros H;
      try reflexivity; try discriminate; lia. }
  unfold shr_inv. rewrite E1, E2, E3, Hm, Eq', Er', EA.
  set (q2 := (M / 2 ^ k) mod 2) in *. set (rem := M mod 2 ^ k) in *.
  set (A := 2 ^ k) in *. clearbody q2 rem A.
  assert (Hq2 : q2 = 0 \/ q2 = 1) by lia.
  split; [reflexivity|]. split.
  - rewrite Hodd. destruct Hq2 as [-> | ->]; lia.
  - rewrite orb_true_iff, Hr, Hs. destruct Hq2 as [-> | ->]; lia.
Qed.

Lemma shr_inv_iter M p :
  0 <= M ->
  shr_inv M (Zpos p) (SpecFloat.iter_pos shr_1 p (Build_shr_record M false false)).
Proof.
  intros HM.
  apply (iter_pos_inv shr_1 (fun k r => shr_inv M k r)
           (fun k x Hk Hx => shr_inv_step M k x HM Hk Hx) p 0); [lia|].
  unfold shr_inv. cbn [shr_m shr_r shr_s]. change (2 ^ 0) with 1.
  rewrite Z.div_1_r, Z.mod_1_r. repeat split; try discriminate; lia.
Qed.

(** Round to nearest even, read off the shifted record. *)
Lemma round_nearest_even_shr M k r :
  0 <= M -> 0 <= k -> shr_inv M k r ->
  rounds_to M (2 ^ k) (round_nearest_even (shr_m r) (loc_of_shr_record r))
  /\ M / 2 ^ k <= round_nearest_even (shr_m r) (loc_of_shr_record r) <= M / 2 ^ k + 1.
Proof.
  intros HM Hk (Hm & Hr & Hs).
  assert (PA : 0 < 2 ^ k) by (apply Z.pow_pos_nonneg; lia).
  pose proof (Z.div_mod M (2 ^ k) ltac:(lia)) as Hdm.
  pose proof (Z.mod_pos_bound M (2 ^ k) PA) as Hrem.
  destruct r as [m rb sb]. cbn [shr_m shr_r shr_s] in *. subst m.
  set (q := M / 2 ^ k) in *. set (rem := M mod 2 ^ k) in *. set (A := 2 ^ k) in *.
  clearbody q rem A. unfold rounds_to.
  destruct rb, sb; cbn [loc_of_shr_record round_nearest_even].
  - assert (A <= 2 * rem) by (apply Hr; reflexivity).
    assert (2 * rem <> 0 /\ 2 * rem <> A) by (apply Hs; reflexivity).
    split; [|lia]. split; [nia|]. split; intros; nia.
  - assert (A <= 2 * rem) by (apply Hr; reflexivity).
    assert (E : 2 * rem = A).
    { destruct (Z.eq_dec (2 * rem) A) as [|Hne]; [assumption|].
      assert (false = true) by (apply Hs; lia). discriminate. }
    destruct (Z.even q) eqn:Hev.
    + split; [|lia]. split; [nia|]. split; intros; [nia | exact Hev].
    + split; [|lia]. split; [nia|]. split; intros; [|nia].
      rewrite Z.even_add, Hev. reflexivity.
  - assert (~ A <= 2 * rem) by (intros Hc; apply Hr in Hc; discriminate).
    split; [|lia]. split; [nia|]. split; intros; nia.
  - assert (~ A <= 2 * rem) by (intros Hc; apply Hr in Hc; discriminate).
    assert (E : rem = 0).
    { destruct (Z.eq_dec rem 0) as [|Hne]; [assumption|].
      assert (false = true) by (apply Hs; lia). discriminate. }
    split; [|lia]. split; [nia|]. split; intros; nia.
Qed.

Lemma rounds_to_scale M A r P :
  0 < P -> rounds_to M A r -> rounds_to (M * P) (A * P) r.
Proof.
  intros HP (H1 & H2 & H3). unfold rounds_to. split; [nia|].
  split; intros H; [apply H2 | apply H3]; nia.
Qed.

Lemma rounds_to_exact V U r : 0 < U -> r * U = V -> rounds_to V U r.
Proof. intros HU E. unfold rounds_to. split; [lia|]. split; intros; lia. Qed.

(** The renormalisation after rounding changes the representation only. *)
Lemma shr_fexp_second m2 e1 :
  0 <= m2 <= 2 ^ 24 -> -149 <= e1 ->
  exists r e, shr_fexp 24 128 m2 e1 loc_Exact = (r, e)
    /\ e1 <= e <= e1 + 1 /\ shr_m r * 2 ^ (e - e1) = m2 /\ shr_m r < 2 ^ 24.
Proof.
  intros Hm He. destruct (Z.eq_dec m2 (2 ^ 24)) as [->|Hne].
  - exists (Build_shr_record (2 ^ 23) false false), (e1 + 1).
    split; [|split; [lia|split; [|reflexivity]]].
    + unfold shr_fexp, fexp, emin. change (Zdigits2 (2 ^ 24)) with 25.
      replace (Z.max (25 + e1 - 24) (3 - 128 - 24) - e1) with 1 by lia. reflexivity.
    + replace (e1 + 1 - e1) with 1 by lia. reflexivity.
  - exists (Build_shr_record m2 false false), e1. split; [|split; [lia|split]].
    + unfold shr_fexp, fexp, emin.
      assert (Hd : Zdigits2 m2 <= 24).
      { destruct (Z.eq_dec m2 0) as [->|Hz]; [simpl; lia|]. apply Zdigits2_small. lia. }
      cbn [shr_record_of_loc]. unfold shr.
      destruct (Z.max (Zdigits2 m2 + e1 - 24) (3 - 128 - 24) - e1) eqn:E; try reflexivity. lia.
    + cbn [shr_m]. rewrite Z.sub_diag. change (2 ^ 0) with 1. lia.
    + cbn [shr_m]. lia.
Qed.

(** The value [binary_round_aux] returns for a positive significand. *)
Lemma binary_round_aux_value Mp ex :
  -400 <= ex -> Zdigits2 (Zpos Mp) + ex <= 100 ->
  finite_nn (binary_round_aux 24 128 false (Zpos Mp) ex loc_Exact)
  /\ rounded_value (Zpos Mp * 2 ^ (ex + 400))
                   (fval (binary_round_aux 24 128 false (Zpos Mp) ex loc_Exact)).
Proof.
  intros Hex Hmag.
  set (d := Zdigits2 (Zpos Mp)) in *.
  assert (Hd : 2 ^ (d - 1) <= Zpos Mp < 2 ^ d) by (apply digits2_pos_bounds; reflexivity).
  assert (Hd1 : 1 <= d) by (unfold d; simpl; lia).
  set (e' := Z.max (d + ex - 24) (-149)).
  assert (PP : 0 < 2 ^ (ex + 400)) by (apply Z.pow_pos_nonneg; lia).
  assert (PU : 0 < 2 ^ (e' + 400)) by (apply Z.pow_pos_nonneg; lia).
  assert (Hbin : 2 ^ (d + ex - 1 + 400) <= Zpos Mp * 2 ^ (ex + 400) < 2 ^ (d + ex + 400)).
  { replace (d + ex - 1 + 400) with ((d - 1) + (ex + 400)) by lia.
    replace (d + ex + 400) with (d + (ex + 400)) by lia.
    rewrite !(Z.pow_add_r 2 _ (ex + 400)) by lia.
    set (P := 2 ^ (ex + 400)) in *. clearbody P e' d. nia. }
  assert (Hgoal : forall R r,
            finite_nn R -> fval R = r * 2 ^ (e' + 400) ->
            rounds_to (Zpos Mp * 2 ^ (ex + 400)) (2 ^ (e' + 400)) r ->
            finite_nn R /\ rounded_value (Zpos Mp * 2 ^ (ex + 400)) (fval R)).
  { intros R r HR Hv Hr. split; [exact HR|]. right. exists (d + ex), r.
    split; [lia|]. split; [exact Hbin|]. fold e'. split; assumption. }
  unfold binary_round_aux.
  destruct (Z_le_gt_dec e' ex) as [Hle|Hgt].
  - (* representable as it is *)
    assert (Hs : shr_fexp 24 128 (Zpos Mp) ex loc_Exact
                 = (Build_shr_record (Zpos Mp) false false, ex)).
    { unfold shr_fexp, fexp, emin. fold d. cbn [shr_record_of_loc]. unfold shr.
      destruct (Z.max (d + ex - 24) (3 - 128 - 24) - ex) eqn:E; try reflexivity.
      unfold e' in Hle. lia. }
    rewrite Hs. cbn [shr_m loc_of_shr_record round_nearest_even]. rewrite Hs. cbn [shr_m].
    replace (ex <=? 128 - 24) with true by (symmetry; apply Z.leb_le; lia).
    assert (Hd24 : 2 ^ d <= 2 ^ 24) by (apply Z.pow_le_mono_r; unfold e' in Hle; lia).
    apply (Hgoal _ (Zpos Mp * 2 ^ (ex - e'))).
    + simpl. unfold e' in Hle. lia.
    + rewrite fval_finite by lia. rewrite <- Z.mul_assoc, <- Z.pow_add_r by lia.
      f_equal. f_equal. lia.
    + apply rounds_to_exact; [exact PU|].
      rewrite <- Z.mul_assoc, <- Z.pow_add_r by lia. f_equal. f_equal. lia.
  - (* shifted right by k = e' - ex bits *)
    destruct (e' - ex) as [|p|p] eqn:Ek; try lia.
    assert (Hs : shr_fexp 24 128 (Zpos Mp) ex loc_Exact
                 = (SpecFloat.iter_pos shr_1 p (Build_shr_record (Zpos Mp) false false), e')).
    { unfold shr_fexp, fexp, emin. fold d. cbn [shr_record_of_loc]. unfold shr.
      replace (Z.max (d + ex - 24) (3 - 128 - 24) - ex) with (Zpos p) by (unfold e' in Ek; lia).
      f_equal. lia. }
    rewrite Hs.
    pose proof (shr_inv_iter (Zpos Mp) p ltac:(lia)) as Hinv.
    set (r1 := SpecFloat.iter_pos shr_1 p _) in *. clearbody r1.
    destruct (round_nearest_even_shr (Zpos Mp) (Zpos p) r1 ltac:(lia) ltac:(lia) Hinv)
      as (Hrt & Hq).
    set (m2 := round_nearest_even (shr_m r1) (loc_of_shr_record r1)) in *. clearbody m2.
    assert (PK : 0 < 2 ^ Zpos p) by (apply Z.pow_pos_nonneg; lia).
    assert (Hq0 : 0 <= Zpos Mp / 2 ^ Zpos p) by (apply Z.div_pos; lia).
    assert (Hq1 : Zpos Mp / 2 ^ Zpos p < 2 ^ 24).
    { apply Z.div_lt_upper_bound; [lia|].
      rewrite <- Z.pow_add_r by lia.
      assert (2 ^ d <= 2 ^ (Zpos p + 24)) by (apply Z.pow_le_mono_r; unfold e' in Ek; lia).
      lia. }
    destruct (shr_fexp_second m2 e' ltac:(lia) ltac:(unfold e'; lia))
      as (r2 & e2 & -> & He2 & Hv2 & Hlt2).
    assert (PE : 0 < 2 ^ (e2 - e')) by (apply Z.pow_pos_nonneg; lia).
    assert (EU : 2 ^ (e' + 400) = 2 ^ Zpos p * 2 ^ (ex + 400)).
    { rewrite <- Z.pow_add_r by lia. f_equal. lia. }
    assert (Hrt' : rounds_to (Zpos Mp * 2 ^ (ex + 400)) (2 ^ (e' + 400)) m2).
    { rewrite EU. apply rounds_to_scale; assumption. }
    cbn [fst snd].
    destruct (shr_m r2) as [|q|q] eqn:Eq2; try nia.
    + apply (Hgoal _ m2); [exact I | | exact Hrt']. cbn [fval]. lia.
    + replace (e2 <=? 128 - 24) with true by (symmetry; apply Z.leb_le; unfold e' in *; lia).
      apply (Hgoal _ m2); [| | exact Hrt'].
      * simpl. unfold e' in *. lia.
      * rewrite fval_finite by (unfold e' in *; lia). rewrite <- Hv2.
        rewrite <- Z.mul_assoc, <- Z.pow_add_r by lia. f_equal. f_equal. lia.
Qed.

Lemma rounds_to_nonneg V U r : 0 < U -> 0 <= V -> rounds_to V U r -> 0 <= r.
Proof. intros HU HV (H1 & _). nia. Qed.

Lemma rounded_value_nonneg V Rv : 0 <= V -> rounded_value V Rv -> 0 <= Rv.
Proof.
  intros HV [[_ ->]|(mag & r & Hm & Hb & -> & Hr)]; [lia|].
  assert (PU : 0 < 2 ^ (Z.max (mag - 24) (-149) + 400)) by (apply Z.pow_pos_nonneg; lia).
  pose proof (rounds_to_nonneg _ _ _ PU HV Hr). nia.
Qed.

Lemma rounds_to_mono V1 V2 U r1 r2 :
  0 < U -> V1 <= V2 -> rounds_to V1 U r1 -> rounds_to V2 U r2 -> r1 <= r2.
Proof.
  intros HU HV (A1 & A2 & A3) (B1 & B2 & B3).
  destruct (Z_le_gt_dec r1 r2) as [|Hgt]; [assumption|exfalso].
  assert (E : r1 = r2 + 1) by nia. subst r1.
  assert (E1 : 2 * ((r2 + 1) * U - V1) = U) by nia.
  assert (E2 : 2 * (V2 - r2 * U) = U) by nia.
  specialize (A2 E1). specialize (B3 E2).
  rewrite Z.even_add, B3 in A2. discriminate.
Qed.

(** Rounding to binary32 is monotone. *)
Lemma rounded_value_mono V1 V2 R1 R2 :
  0 <= V1 <= V2 -> rounded_value V1 R1 -> rounded_value V2 R2 -> R1 <= R2.
Proof.
  intros HV H1 H2.
  destruct H1 as [[E1 ->]|(mag1 & r1 & Hm1 & Hb1 & -> & Hr1)].
  { apply (rounded_value_nonneg V2); [lia | exact H2]. }
  assert (P1 : 0 < 2 ^ (mag1 - 1 + 400)) by (apply Z.pow_pos_nonneg; lia).
  destruct H2 as [[E2 ->]|(mag2 & r2 & Hm2 & Hb2 & -> & Hr2)]; [lia|].
  assert (Hmag : mag1 <= mag2).
  { assert (2 ^ (mag1 - 1 + 400) < 2 ^ (mag2 + 400)) by lia.
    apply Z.pow_lt_mono_r_iff in H; lia. }
  set (e1 := Z.max (mag1 - 24) (-149)) in *. set (e2 := Z.max (mag2 - 24) (-149)) in *.
  assert (PU1 : 0 < 2 ^ (e1 + 400)) by (apply Z.pow_pos_nonneg; lia).
  assert (PU2 : 0 < 2 ^ (e2 + 400)) by (apply Z.pow_pos_nonneg; lia).
  destruct (Z.eq_dec e1 e2) as [Ee|Hne].
  - rewrite <- Ee in *. pose proof (rounds_to_mono _ _ _ _ _ PU1 (proj2 HV) Hr1 Hr2). nia.
  - assert (He : e1 < e2) by lia.
    assert (E2 : e2 = mag2 - 24) by lia.
    assert (EU : 2 ^ (e2 + 400) = 2 ^ (e2 - e1) * 2 ^ (e1 + 400)).
    { rewrite <- Z.pow_add_r by lia. f_equal. lia. }
    assert (Hk : 2 <= 2 ^ (e2 - e1)) by (apply (Z.pow_le_mono_r 2 1); lia).
    assert (Hup : 2 ^ (mag1 + 400) <= 2 ^ 24 * 2 ^ (e1 + 400)).
    { rewrite <- Z.pow_add_r by lia. apply Z.pow_le_mono_r; lia. }
    assert (Hlo : 2 ^ (mag2 - 1 + 400) = 2 ^ 23 * 2 ^ (e2 + 400)).
    { rewrite <- Z.pow_add_r by lia. f_equal. lia. }
    destruct Hr1 as (A1 & _). destruct Hr2 as (B1 & _).
    change (2 ^ 24) with 16777216 in *. change (2 ^ 23) with 8388608 in *.
    set (U1 := 2 ^ (e1 + 400)) in *. set (U2 := 2 ^ (e2 + 400)) in *.
    set (K := 2 ^ (e2 - e1)) in *.
    clearbody U1 U2 K e1 e2.
    assert (Hr1 : r1 <= 16777216) by nia.
    assert (Hr2 : 8388608 <= r2) by nia.
    nia.
Qed.

(** Every number of binary32 is its own rounding. *)
Lemma rounded_value_representable x : finite_nn x -> rounded_value (fval x) (fval x).
Proof.
  destruct x as [s| | |[] m e]; simpl finite_nn; intros H; try tauto.
  - left. split; reflexivity.
  - destruct H as [He Hm]. rewrite fval_finite by lia. right.
    set (d := Zdigits2 (Zpos m)).
    assert (Hd : 2 ^ (d - 1) <= Zpos m < 2 ^ d) by (apply digits2_pos_bounds; reflexivity).
    assert (Hd1 : 1 <= d) by (unfold d; simpl; lia).
    assert (Hd24 : d <= 24) by (apply (Zdigits2_small (Zpos m)); simpl; lia).
    set (e' := Z.max (d + e - 24) (-149)).
    assert (PU : 0 < 2 ^ (e' + 400)) by (apply Z.pow_pos_nonneg; lia).
    assert (EV : Zpos m * 2 ^ (e - e') * 2 ^ (e' + 400) = Zpos m * 2 ^ (e + 400)).
    { rewrite <- Z.mul_assoc, <- Z.pow_add_r by lia. f_equal. f_equal. lia. }
    exists (d + e), (Zpos m * 2 ^ (e - e')). fold e'.
    split; [lia|]. split; [|split; [symmetry; exact EV | apply rounds_to_exact; assumption]].
    replace (d + e - 1 + 400) with ((d - 1) + (e + 400)) by lia.
    replace (d + e + 400) with (d + (e + 400)) by lia.
    rewrite !(Z.pow_add_r 2 _ (e + 400)) by lia.
    assert (PP : 0 < 2 ^ (e + 400)) by (apply Z.pow_pos_nonneg; lia).
    set (P := 2 ^ (e + 400)) in *. clearbody P e' d. nia.
Qed.

Lemma binary_round_aux_bounded Mp ex :
  -400 <= ex -> Zpos Mp * 2 ^ (ex + 400) < 2 ^ 500 ->
  finite_nn (binary_round_aux 24 128 false (Zpos Mp) ex loc_Exact)
  /\ rounded_value (Zpos Mp * 2 ^ (ex + 400))
                   (fval (binary_round_aux 24 128 false (Zpos Mp) ex loc_Exact)).
Proof.
  intros Hex Hb. apply binary_round_aux_value; [exact Hex|].
  set (d := Zdigits2 (Zpos Mp)).
  assert (Hd : 2 ^ (d - 1) <= Zpos Mp < 2 ^ d) by (apply digits2_pos_bounds; reflexivity).
  assert (Hd1 : 1 <= d) by (unfold d; simpl; lia).
  assert (PP : 0 < 2 ^ (ex + 400)) by (apply Z.pow_pos_nonneg; lia).
  assert (H : 2 ^ (d - 1 + (ex + 400)) < 2 ^ 500).
  { rewrite Z.pow_add_r by lia. clearbody d. nia. }
  apply Z.pow_lt_mono_r_iff in H; lia.
Qed.

Lemma binary_round_bounded mx ex :
  -149 <= ex -> Zpos mx * 2 ^ (ex + 400) < 2 ^ 500 ->
  finite_nn (binary_round 24 128 false mx ex)
  /\ rounded_value (Zpos mx * 2 ^ (ex + 400)) (fval (binary_round 24 128 false mx ex)).
Proof.
  intros Hex Hb. unfold binary_round.
  set (ez := fexp 24 128 (Zpos (digits2_pos mx) + ex)).
  destruct (Z_lt_le_dec ez ex) as [Hlt|Hge].
  - rewrite (surjective_pairing (shl_align mx ex ez)).
    rewrite shl_align_snd by lia.
    assert (Hez : -149 <= ez) by (unfold ez, fexp, emin; lia).
    assert (EV : Zpos (shl_align mx ex ez).1 * 2 ^ (ez + 400) = Zpos mx * 2 ^ (ex + 400)).
    { rewrite shl_align_fst by lia. rewrite <- Z.mul_assoc, <- Z.pow_add_r by lia.
      f_equal. f_equal. lia. }
    rewrite <- EV in Hb |- *. apply binary_round_aux_bounded; [lia | exact Hb].
  - assert (Hs : shl_align mx ex ez = (mx, ex)).
    { unfold shl_align. destruct (ez - ex) eqn:E; try reflexivity. lia. }
    rewrite Hs. apply binary_round_aux_bounded; [lia | exact Hb].
Qed.

(** ** Products and sums of nonnegative floats *)

Lemma fval_nonneg x : 0 <= fval x.
Proof.
  destruct x as [| | |[] m e]; simpl; try lia. apply Z.shiftl_nonneg. lia.
Qed.

Lemma fmul_value c x :
  finite_nn c -> finite_nn x -> fval c * fval x < 2 ^ 900 ->
  finite_nn (fmul c x)
  /\ exists V, V * 2 ^ 400 = fval c * fval x /\ rounded_value V (fval (fmul c x)).
Proof.
  intros Hc Hx Hb.
  destruct c as [sc| | |[] mc ec]; simpl in Hc; try tauto;
    destruct x as [sx| | |[] mx ex]; simpl in Hx; try tauto;
    try (split; [exact I | exists 0; split; [simpl; lia | left; split; reflexivity]]).
  destruct Hc as [Hec Hmc], Hx as [Hex Hmx].
  rewrite !fval_finite in * by lia.
  assert (EV : Zpos (mc * mx) * 2 ^ (ec + ex + 400) * 2 ^ 400
               = Zpos mc * 2 ^ (ec + 400) * (Zpos mx * 2 ^ (ex + 400))).
  { rewrite Pos2Z.inj_mul.
    replace (Zpos mc * 2 ^ (ec + 400) * (Zpos mx * 2 ^ (ex + 400)))
      with (Zpos mc * Zpos mx * (2 ^ (ec + 400) * 2 ^ (ex + 400))) by ring.
    rewrite <- Z.mul_assoc, <- !Z.pow_add_r by lia. f_equal. f_equal. lia. }
  assert (Hb' : Zpos (mc * mx) * 2 ^ (ec + ex + 400) < 2 ^ 500).
  { change (2 ^ 900) with (2 ^ 500 * 2 ^ 400) in Hb. rewrite <- EV in Hb.
    apply Z.mul_lt_mono_pos_r in Hb; [exact Hb | reflexivity]. }
  unfold fmul, SFmul. cbn [xorb].
  destruct (binary_round_aux_bounded (mc * mx) (ec + ex) ltac:(lia) Hb') as [Hf Hr].
  split; [exact Hf|]. eexists. split; [exact EV | exact Hr].
Qed.

Lemma fadd_value a b :
  finite_nn a -> finite_nn b -> fval a + fval b < 2 ^ 500 ->
  finite_nn (fadd a b) /\ rounded_value (fval a + fval b) (fval (fadd a b)).
Proof.
  intros Ha Hb Hs.
  destruct a as [sa| | |[] ma ea]; simpl in Ha; try tauto;
    destruct b as [sb| | |[] mb eb]; simpl in Hb; try tauto.
  - destruct sa, sb; (split; [exact I | left; split; reflexivity]).
  - change (fadd (S754_zero sa) (S754_finite false mb eb)) with (S754_finite false mb eb).
    split; [exact Hb|]. change (fval (S754_zero sa)) with 0. rewrite Z.add_0_l.
    apply rounded_value_representable. exact Hb.
  - change (fadd (S754_finite false ma ea) (S754_zero sb)) with (S754_finite false ma ea).
    split; [exact Ha|]. change (fval (S754_zero sb)) with 0. rewrite Z.add_0_r.
    apply rounded_value_representable. exact Ha.
  - destruct Ha as [Hea Hma], Hb as [Heb Hmb].
    rewrite !fval_finite in * by lia.
    unfold fadd, SFadd. cbv zeta. set (ez := Z.min ea eb).
    rewrite !shl_align_fst by lia. cbn [cond_Zopp].
    assert (Pa : 0 < 2 ^ (ea - ez)) by (apply Z.pow_pos_nonneg; lia).
    assert (Pb : 0 < 2 ^ (eb - ez)) by (apply Z.pow_pos_nonneg; lia).
    assert (EV : (Zpos ma * 2 ^ (ea - ez) + Zpos mb * 2 ^ (eb - ez)) * 2 ^ (ez + 400)
                 = Zpos ma * 2 ^ (ea + 400) + Zpos mb * 2 ^ (eb + 400)).
    { rewrite Z.mul_add_distr_r, <- !Z.mul_assoc, <- !Z.pow_add_r by lia.
      f_equal; f_equal; f_equal; lia. }
    destruct (Zpos ma * 2 ^ (ea - ez) + Zpos mb * 2 ^ (eb - ez)) as [|ps|ps] eqn:ES; try nia.
    cbn [binary_normalize]. rewrite <- EV in Hs |- *.
    apply binary_round_bounded; [lia | exact Hs].
Qed.

Lemma fmul_mono c x y :
  finite_nn c -> finite_nn x -> finite_nn y -> fval x <= fval y ->
  fval c * fval y < 2 ^ 900 ->
  fval (fmul c x) <= fval (fmul c y).
Proof.
  intros Hc Hx Hy Hle Hb.
  pose proof (fval_nonneg c). pose proof (fval_nonneg x).
  assert (Hb1 : fval c * fval x < 2 ^ 900) by nia.
  destruct (fmul_value c x Hc Hx Hb1) as (_ & V1 & E1 & R1).
  destruct (fmul_value c y Hc Hy Hb) as (_ & V2 & E2 & R2).
  apply (rounded_value_mono V1 V2); [|assumption|assumption].
  assert (P : 0 < 2 ^ 400) by reflexivity. nia.
Qed.

Lemma fadd_mono a b a' b' :
  finite_nn a -> finite_nn b -> finite_nn a' -> finite_nn b' ->
  fval a <= fval a' -> fval b <= fval b' -> fval a' + fval b' < 2 ^ 500 ->
  fval (fadd a b) <= fval (fadd a' b').
Proof.
  intros Ha Hb Ha' Hb' Hla Hlb Hs.
  pose proof (fval_nonneg a). pose proof (fval_nonneg b).
  assert (Hs1 : fval a + fval b < 2 ^ 500) by lia.
  destruct (fadd_value a b Ha Hb Hs1) as (_ & R1).
  destruct (fadd_value a' b' Ha' Hb' Hs) as (_ & R2).
  apply (rounded_value_mono (fval a + fval b) (fval a' + fval b')); [lia | exact R1 | exact R2].
Qed.

(* ====================================================================== *)
(** * Smoother: the state stays within the samples *)
(* ====================================================================== *)

(** The bounds are closed over the 12-bit range of the ADC, and at the
    end of [uint16_t]. *)
Lemma ema_bounds_adc : all_from ema_bounds_ok 0 (Z.to_nat 4096) = true.
Proof. vm_compute. reflexivity. Qed.

Lemma ema_bounds_max : ema_bounds_ok 65535 = true.
Proof. vm_compute. reflexivity. Qed.

Lemma fval_leb_spec x y :
  finite_nn x -> finite_nn y -> (fval_leb x y = true <-> fval x <= fval y).
Proof.
  intros Hx Hy.
  destruct x as [sx| | |[] mx ex]; simpl in Hx; try tauto;
    destruct y as [sy| | |[] my ey]; simpl in Hy; try tauto.
  - simpl. split; [lia | reflexivity].
  - cbn [fval_leb]. change (fval (S754_zero sx)) with 0.
    pose proof (fval_nonneg (S754_finite false my ey)). split; [lia | reflexivity].
  - cbn [fval_leb]. change (fval (S754_zero sy)) with 0. rewrite fval_finite by lia.
    assert (0 < 2 ^ (ex + 400)) by (apply Z.pow_pos_nonneg; lia).
    split; [discriminate | nia].
  - cbn [fval_leb]. cbv zeta. rewrite !fval_finite by lia.
    set (ez := Z.min ex ey). rewrite !Z.shiftl_mul_pow2 by lia. rewrite Z.leb_le.
    assert (P : 0 < 2 ^ (ez + 400)) by (apply Z.pow_pos_nonneg; lia).
    assert (Ex : Zpos mx * 2 ^ (ex + 400) = Zpos mx * 2 ^ (ex - ez) * 2 ^ (ez + 400)).
    { rewrite <- Z.mul_assoc, <- Z.pow_add_r by lia. f_equal. f_equal. lia. }
    assert (Ey : Zpos my * 2 ^ (ey + 400) = Zpos my * 2 ^ (ey - ez) * 2 ^ (ez + 400)).
    { rewrite <- Z.mul_assoc, <- Z.pow_add_r by lia. f_equal. f_equal. lia. }
    rewrite Ex, Ey. split; intros H; nia.
Qed.

Lemma of_int_value s :
  0 <= s < 2 ^ 24 -> finite_nn (of_int s) /\ fval (of_int s) = s * 2 ^ 400.
Proof.
  intros Hs. rewrite of_int_canon by lia.
  destruct (Z.eq_dec s 0) as [->|Hne]; [split; [exact I | reflexivity]|].
  destruct (canon_finite s ltac:(lia)) as (m & -> & Hm & Hn).
  pose proof (Zdigits2_small s ltac:(lia)) as Hd.
  replace (s <? 0) with false by (symmetry; apply Z.ltb_ge; lia).
  unfold normal24 in Hn. split; [simpl; lia|].
  rewrite fval_finite by lia. rewrite Hm, Z.abs_eq by lia.
  rewrite <- Z.mul_assoc, <- Z.pow_add_r by lia. f_equal. f_equal. lia.
Qed.

Lemma rounded_value_unique V R1 R2 :
  0 <= V -> rounded_value V R1 -> rounded_value V R2 -> R1 = R2.
Proof.
  intros HV H1 H2.
  pose proof (rounded_value_mono V V R1 R2 ltac:(lia) H1 H2).
  pose proof (rounded_value_mono V V R2 R1 ltac:(lia) H2 H1). lia.
Qed.

(** Truncation reads the integer part of the value. *)
Lemma ftrunc_value x : finite_nn x -> ftrunc x = Some (fval x / 2 ^ 400).
Proof.
  destruct x as [s| | |[] m e]; simpl finite_nn; intros H; try tauto.
  destruct H as [He Hm]. rewrite fval_finite by lia. cbn [ftrunc cond_Zopp]. f_equal.
  destruct (Z.leb_spec 0 e) as [Hpos|Hneg].
  - rewrite Z.pow_add_r, Z.mul_assoc, Z.div_mul by lia. reflexivity.
  - replace (2 ^ 400) with (2 ^ (- e) * 2 ^ (e + 400))
      by (rewrite <- Z.pow_add_r by lia; f_equal; lia).
    rewrite Z.div_mul_cancel_r; [reflexivity | |];
      apply Z.pow_nonzero; lia.
Qed.

Lemma float_to_u16_value x r :
  finite_nn x -> 0 <= r < 65536 -> r * 2 ^ 400 <= fval x < (r + 1) * 2 ^ 400 ->
  float_to_u16 x = Some r.
Proof.
  intros Hx Hr Hv. unfold float_to_u16. rewrite ftrunc_value by exact Hx.
  assert (E : fval x / 2 ^ 400 = r).
  { symmetry. apply Z.div_unique with (fval x - r * 2 ^ 400); lia. }
  rewrite E.
  replace (0 <=? r) with true by (symmetry; apply Z.leb_le; lia).
  replace (r <? 65536) with true by (symmetry; apply Z.ltb_lt; lia). reflexivity.
Qed.

Lemma float_to_u16_bounds x r :
  finite_nn x -> float_to_u16 x = Some r ->
  0 <= r < 65536 /\ r * 2 ^ 400 <= fval x < (r + 1) * 2 ^ 400.
Proof.
  intros Hx. unfold float_to_u16. rewrite ftrunc_value by exact Hx.
  destruct (Z.leb_spec 0 (fval x / 2 ^ 400)); [|discriminate].
  destruct (Z.ltb_spec (fval x / 2 ^ 400) 65536); [|discriminate].
  cbn [andb]. intros [= <-]. split; [lia|].
  pose proof (Z.div_mod (fval x) (2 ^ 400) ltac:(lia)).
  pose proof (Z.mod_pos_bound (fval x) (2 ^ 400) ltac:(lia)). lia.
Qed.

(** Adding one half to a small integer is exact. *)
Lemma fadd_half_of_int M :
  0 <= M <= 65535 ->
  finite_nn (fadd (of_int M) f_half)
  /\ fval (fadd (of_int M) f_half) = M * 2 ^ 400 + 2 ^ 399.
Proof.
  intros HM.
  destruct (of_int_value M ltac:(lia)) as [Hf Hv].
  assert (Hh : finite_nn f_half) by (simpl; lia).
  assert (Eh : fval f_half = 2 ^ 399) by reflexivity.
  assert (Hs : fval (of_int M) + fval f_half < 2 ^ 500).
  { rewrite Hv, Eh. change (2 ^ 500) with (2 ^ 100 * 2 ^ 400).
    change (2 ^ 399) with (2 ^ 399 * 1). change (2 ^ 400) with (2 ^ 399 * 2). 
    assert (0 < 2 ^ 399) by reflexivity. assert (2 ^ 20 < 2 ^ 100) by reflexivity.
    change (2 ^ 20) with 1048576 in *. nia. }
  destruct (fadd_value _ _ Hf Hh Hs) as [Hfin Hr]. split; [exact Hfin|].
  rewrite Hv, Eh in Hr.
  (* the sum is the value of a float: that of 2M+1, halved *)
  destruct (of_int_value (2 * M + 1) ltac:(lia)) as [Hf2 Hv2].
  rewrite of_int_canon in Hf2, Hv2 by lia.
  destruct (canon_finite (2 * M + 1) ltac:(lia)) as (m & Ec & Hm & Hn).
  pose proof (Zdigits2_small (2 * M + 1) ltac:(lia)) as Hd.
  rewrite Ec in Hf2, Hv2.
  replace (2 * M + 1 <? 0) with false in * by (symmetry; apply Z.ltb_ge; lia).
  set (e := Zdigits2 (2 * M + 1) - 24) in *.
  assert (Hrep : finite_nn (S754_finite false m (e - 1))) by (simpl in Hf2 |- *; lia).
  assert (Ev : fval (S754_finite false m (e - 1)) = M * 2 ^ 400 + 2 ^ 399).
  { rewrite fval_finite in Hv2 |- * by lia.
    replace (e + 400) with (1 + (e - 1 + 400)) in Hv2 by lia.
    rewrite Z.pow_add_r in Hv2 by lia. change (2 ^ 1) with 2 in Hv2.
    change (2 ^ 400) with (2 * 2 ^ 399) in *. lia. }
  pose proof (rounded_value_representable _ Hrep) as Hr2. rewrite Ev in Hr2.
  apply (rounded_value_unique (M * 2 ^ 400 + 2 ^ 399)); [|exact Hr|exact Hr2].
  assert (0 < 2 ^ 399) by reflexivity. assert (0 < 2 ^ 400) by reflexivity. nia.
Qed.

Lemma rounds_of_int M : 0 <= M <= 65535 -> float_to_u16 (fadd (of_int M) f_half) = Some M.
Proof.
  intros HM. destruct (fadd_half_of_int M HM) as [Hf Hv].
  apply float_to_u16_value; [exact Hf | lia|]. rewrite Hv.
  change (2 ^ 400) with (2 * 2 ^ 399). assert (0 < 2 ^ 399) by reflexivity. lia.
Qed.

(** ** One step of the recurrence *)

Lemma blend_mono a b s s' p p' :
  finite_nn a -> finite_nn b -> fval a < 2 ^ 400 -> fval b < 2 ^ 400 ->
  0 <= s <= s' -> s' <= 65535 -> finite_nn p -> finite_nn p' ->
  fval p <= fval p' -> fval p' <= 65535 * 2 ^ 400 ->
  finite_nn (fadd (fmul a (of_int s)) (fmul b p))
  /\ fval (fadd (fmul a (of_int s)) (fmul b p))
     <= fval (fadd (fmul a (of_int s')) (fmul b p'))
  /\ fval (fadd (fmul a (of_int s')) (fmul b p'))
     <= fval (fadd (fmul a (of_int 65535)) (fmul b (of_int 65535))).
Proof.
  intros Ha Hb Va Vb Hs Hs' Hp Hp' Hle Hmax.
  destruct (of_int_value s ltac:(lia)) as [Fs Vs].
  destruct (of_int_value s' ltac:(lia)) as [Fs' Vs'].
  destruct (of_int_value 65535 ltac:(lia)) as [Fm Vm].
  pose proof (fval_nonneg a) as Na. pose proof (fval_nonneg b) as Nb.
  pose proof (fval_nonneg p) as Np. pose proof (fval_nonneg p') as Np'.
  assert (E900 : 2 ^ 900 = 2 ^ 100 * 2 ^ 400 * 2 ^ 400) by reflexivity.
  assert (E500 : 2 ^ 500 = 2 ^ 100 * 2 ^ 400) by reflexivity.
  assert (B100 : 200000 < 2 ^ 100) by reflexivity.
  assert (PT : 0 < 2 ^ 400) by reflexivity.
  set (T := 2 ^ 400) in *. set (T9 := 2 ^ 900) in *. set (T5 := 2 ^ 500) in *.
  set (T1 := 2 ^ 100) in *.
  assert (Pa : forall v, 0 <= v <= 65535 * T -> fval a * v < T9)
    by (intros v Hv; clearbody T T9 T1; nia).
  assert (Pb : forall v, 0 <= v <= 65535 * T -> fval b * v < T9)
    by (intros v Hv; clearbody T T9 T1; nia).
  assert (Hs65 : fval (of_int s') <= fval (of_int 65535)) by (rewrite Vs', Vm; nia).
  assert (Hss : fval (of_int s) <= fval (of_int s')) by (rewrite Vs, Vs'; nia).
  assert (Hp65 : fval p' <= fval (of_int 65535)) by (rewrite Vm; lia).
  assert (Bs : 0 <= fval (of_int s) <= 65535 * T) by (rewrite Vs; clearbody T; nia).
  assert (Bs' : 0 <= fval (of_int s') <= 65535 * T) by (rewrite Vs'; clearbody T; nia).
  assert (Bm : 0 <= fval (of_int 65535) <= 65535 * T) by (rewrite Vm; clearbody T; nia).
  assert (Bp : 0 <= fval p <= 65535 * T) by lia.
  assert (Bp' : 0 <= fval p' <= 65535 * T) by lia.
  (* a product with a factor below one is at most the other factor *)
  assert (Hshrink : forall c x, finite_nn c -> finite_nn x -> fval c < T ->
            fval c * fval x < T9 -> fval (fmul c x) <= fval x).
  { intros c x Hc Hx Vc Hb9. pose proof (fval_nonneg c). pose proof (fval_nonneg x).
    destruct (fmul_value c x Hc Hx Hb9) as (_ & V & EV & RV).
    apply (rounded_value_mono V (fval x)); [| exact RV | apply rounded_value_representable, Hx].
    fold T in EV. clearbody T T9 T1. nia. }
  destruct (fmul_value a (of_int s) Ha Fs (Pa _ Bs)) as [FA _].
  destruct (fmul_value a (of_int s') Ha Fs' (Pa _ Bs')) as [FA' _].
  destruct (fmul_value a (of_int 65535) Ha Fm (Pa _ Bm)) as [FAm _].
  destruct (fmul_value b p Hb Hp (Pb _ Bp)) as [FB _].
  destruct (fmul_value b p' Hb Hp' (Pb _ Bp')) as [FB' _].
  destruct (fmul_value b (of_int 65535) Hb Fm (Pb _ Bm)) as [FBm _].
  pose proof (fmul_mono a _ _ Ha Fs Fs' Hss (Pa _ Bs')) as MA.
  pose proof (fmul_mono a _ _ Ha Fs' Fm Hs65 (Pa _ Bm)) as MA'.
  pose proof (fmul_mono b _ _ Hb Hp Hp' Hle (Pb _ Bp')) as MB.
  pose proof (fmul_mono b _ _ Hb Hp' Fm Hp65 (Pb _ Bm)) as MB'.
  pose proof (Hshrink a _ Ha Fm Va (Pa _ Bm)) as SA.
  pose proof (Hshrink b _ Hb Fm Vb (Pb _ Bm)) as SB.
  assert (Sm : fval (fmul a (of_int 65535)) + fval (fmul b (of_int 65535)) < T5)
    by (clearbody T T5 T1; nia).
  assert (S' : fval (fmul a (of_int s')) + fval (fmul b p') < T5) by lia.
  assert (S0 : fval (fmul a (of_int s)) + fval (fmul b p) < T5) by lia.
  split; [apply fadd_value; assumption|]. split; apply fadd_mono; assumption.
Qed.

Lemma ema_blend_mono s s' p p' :
  0 <= s <= s' -> s' <= 65535 -> finite_nn p -> finite_nn p' ->
  fval p <= fval p' -> fval p' <= 65535 * 2 ^ 400 ->
  finite_nn (ema_blend EMA_ALPHA s p)
  /\ fval (ema_blend EMA_ALPHA s p) <= fval (ema_blend EMA_ALPHA s' p')
  /\ fval (ema_blend EMA_ALPHA s' p') <= 65535 * 2 ^ 400.
Proof.
  intros Hs Hs' Hp Hp' Hle Hmax.
  unfold ema_blend. change (fsub f_one EMA_ALPHA) with (S754_finite false 13421773 (-24)).
  destruct (blend_mono EMA_ALPHA (S754_finite false 13421773 (-24)) s s' p p')
    as (H1 & H2 & H3); try assumption; try reflexivity; try (simpl; lia).
  split; [exact H1|]. split; [exact H2|].
  etransitivity; [exact H3|]. vm_compute. discriminate.
Qed.

Lemma ema_bounds_spec M :
  0 <= M <= 65535 -> ema_bounds_ok M = true ->
  finite_nn (ema_ceiling M) /\ finite_nn (ema_floor M)
  /\ fval (ema_floor M) <= M * 2 ^ 400 <= fval (ema_ceiling M)
  /\ fval (ema_ceiling M) <= 65535 * 2 ^ 400
  /\ fval (ema_blend EMA_ALPHA M (ema_ceiling M)) <= fval (ema_ceiling M)
  /\ fval (ema_floor M) <= fval (ema_blend EMA_ALPHA M (ema_floor M))
  /\ float_to_u16 (fadd (ema_ceiling M) f_half) = Some M
  /\ float_to_u16 (fadd (ema_floor M) f_half) = Some M.
Proof.
  intros HM Hok.
  pose proof (all_from_spec _ _ 0 M first_round_all ltac:(lia)) as Hfr.
  unfold first_round_ok in Hfr. unfold ema_bounds_ok in Hok. cbv zeta in Hok.
  unfold ema_ceiling, ema_floor. cbv zeta.
  destruct (of_int_value M ltac:(lia)) as [Fx Vx].
  assert (PT : 0 < 2 ^ 400) by reflexivity.
  assert (Bx : fval (of_int M) <= 65535 * 2 ^ 400) by (rewrite Vx; nia).
  destruct (ema_blend_mono M M (of_int M) (of_int M) ltac:(lia) ltac:(lia) Fx Fx
              ltac:(lia) Bx) as (Fy & _ & By).
  set (x := of_int M) in *. set (y := ema_blend EMA_ALPHA M x) in *.
  assert (Ry : float_to_u16 (fadd y f_half) = Some M).
  { destruct (float_to_u16 (fadd y f_half)) as [r|]; [|discriminate].
    apply Z.eqb_eq in Hfr. congruence. }
  pose proof (rounds_of_int M HM) as Rx. fold x in Rx.
  pose proof (fval_leb_spec y x Fy Fx) as Lyx.
  pose proof (fval_leb_spec x y Fx Fy) as Lxy.
  destruct (ema_blend_mono M M y y ltac:(lia) ltac:(lia) Fy Fy ltac:(lia) By) as (Fz & _ & _).
  pose proof (fval_leb_spec y (ema_blend EMA_ALPHA M y) Fy Fz) as Lyz.
  pose proof (fval_leb_spec (ema_blend EMA_ALPHA M y) y Fz Fy) as Lzy.
  destruct (fval_leb y x) eqn:Eyx.
  - assert (Hyx : fval y <= fval x) by (apply Lyx; reflexivity).
    destruct (fval_leb x y) eqn:Exy.
    + assert (Hxy : fval x <= fval y) by (apply Lxy; reflexivity).
      fold y. repeat split; try assumption; lia.
    + assert (Hzy : fval y <= fval (ema_blend EMA_ALPHA M y)) by (apply Lyz; exact Hok).
      fold y. repeat split; try assumption; lia.
  - assert (Hxy : fval x < fval y).
    { destruct (Z_lt_le_dec (fval x) (fval y)) as [|Hc]; [assumption|].
      apply Lyx in Hc. discriminate. }
    assert (Exy : fval_leb x y = true) by (apply Lxy; lia). rewrite Exy.
    assert (Hzy : fval (ema_blend EMA_ALPHA M y) <= fval y) by (apply Lzy; exact Hok).
    fold y. repeat split; try assumption; lia.
Qed.

Lemma finite_nn_not_negative x : finite_nn x -> not_negative x.
Proof. destruct x as [[]| | |[] m e]; simpl; intros H; try tauto; reflexivity. Qed.

Lemma ema_between_seed lo hi s :
  0 <= lo -> lo <= s <= hi -> hi <= 65535 ->
  ema_bounds_ok lo = true -> ema_bounds_ok hi = true ->
  ema_between lo hi (of_int s).
Proof.
  intros Hlo Hs Hhi Klo Khi.
  destruct (ema_bounds_spec lo ltac:(lia) Klo) as (_ & _ & [Hf _] & _).
  destruct (ema_bounds_spec hi ltac:(lia) Khi) as (_ & _ & [_ Hc] & _).
  destruct (of_int_value s ltac:(lia)) as [Fs Vs].
  assert (PT : 0 < 2 ^ 400) by reflexivity.
  split; [exact Fs|]. rewrite Vs. nia.
Qed.

Lemma ema_between_step lo hi s p :
  0 <= lo -> lo <= s <= hi -> hi <= 65535 ->
  ema_bounds_ok lo = true -> ema_bounds_ok hi = true ->
  ema_between lo hi p -> ema_between lo hi (ema_blend EMA_ALPHA s p).
Proof.
  intros Hlo Hs Hhi Klo Khi (Fp & Hpl & Hph).
  destruct (ema_bounds_spec lo ltac:(lia) Klo) as (_ & Ffl & _ & _ & _ & Hfl & _).
  destruct (ema_bounds_spec hi ltac:(lia) Khi) as (Fce & _ & _ & Bce & Hce & _).
  destruct (ema_blend_mono s hi p (ema_ceiling hi) ltac:(lia) Hhi Fp Fce Hph Bce)
    as (Fb & Hup & _).
  destruct (ema_blend_mono lo s (ema_floor lo) p ltac:(lia) ltac:(lia) Ffl Fp Hpl ltac:(lia))
    as (_ & Hdown & _).
  split; [exact Fb|]. lia.
Qed.

Lemma loop_smooth_between lo hi s st :
  0 <= lo -> lo <= s <= hi -> hi <= 65535 ->
  ema_bounds_ok lo = true -> ema_bounds_ok hi = true ->
  fltb (emaRaw st) f_zero = true \/ ema_between lo hi (emaRaw st) ->
  ema_between lo hi (emaRaw (loop_smooth s st)).
Proof.
  intros Hlo Hs Hhi Klo Khi [Hneg|Hb].
  - rewrite loop_smooth_first by exact Hneg.
    apply ema_between_step; try assumption. apply ema_between_seed; assumption.
  - rewrite loop_smooth_next by (apply finite_nn_not_negative, Hb).
    apply ema_between_step; assumption.
Qed.

Lemma ema_between_rounds lo hi x :
  0 <= lo -> lo <= hi -> hi <= 65535 ->
  ema_bounds_ok lo = true -> ema_bounds_ok hi = true ->
  ema_between lo hi x ->
  exists r, float_to_u16 (fadd x f_half) = Some r /\ lo <= r <= hi.
Proof.
  intros Hlo Hlh Hhi Klo Khi (Fx & Hxl & Hxh).
  destruct (ema_bounds_spec lo ltac:(lia) Klo) as (_ & Ffl & _ & _ & _ & _ & _ & Rfl).
  destruct (ema_bounds_spec hi ltac:(lia) Khi) as (Fce & _ & _ & Bce & _ & _ & Rce & _).
  assert (Hh : finite_nn f_half) by (simpl; lia).
  assert (Eh : fval f_half = 2 ^ 399) by reflexivity.
  assert (PT : 0 < 2 ^ 400) by reflexivity.
  assert (E500 : 2 ^ 500 = 2 ^ 100 * 2 ^ 400) by reflexivity.
  assert (E400 : 2 ^ 400 = 2 * 2 ^ 399) by reflexivity.
  assert (B100 : 65537 < 2 ^ 100) by reflexivity.
  pose proof (fval_nonneg (ema_floor lo)) as Nf.
  assert (Sce : fval (ema_ceiling hi) + fval f_half < 2 ^ 500) by (rewrite Eh; nia).
  assert (Sx : fval x + fval f_half < 2 ^ 500) by lia.
  assert (Sfl : fval (ema_floor lo) + fval f_half < 2 ^ 500) by lia.
  destruct (fadd_value x f_half Fx Hh Sx) as [Fr _].
  destruct (fadd_value (ema_floor lo) f_half Ffl Hh Sfl) as [Frl _].
  destruct (fadd_value (ema_ceiling hi) f_half Fce Hh Sce) as [Frh _].
  pose proof (fadd_mono _ _ _ _ Ffl Hh Fx Hh Hxl ltac:(lia) Sx) as Mlo.
  pose proof (fadd_mono _ _ _ _ Fx Hh Fce Hh Hxh ltac:(lia) Sce) as Mhi.
  destruct (float_to_u16_bounds _ _ Frl Rfl) as [_ [Blo _]].
  destruct (float_to_u16_bounds _ _ Frh Rce) as [_ [_ Bhi]].
  set (v := fval (fadd x f_half)) in *.
  pose proof (Z.div_mod v (2 ^ 400) ltac:(lia)) as Hdm.
  pose proof (Z.mod_pos_bound v (2 ^ 400) PT) as Hrem.
  assert (Hr : lo <= v / 2 ^ 400 <= hi).
  { split; [apply Z.div_le_lower_bound; lia|].
    assert (v / 2 ^ 400 < hi + 1) by (apply Z.div_lt_upper_bound; lia). lia. }
  exists (v / 2 ^ 400). split; [|exact Hr].
  apply float_to_u16_value; [exact Fr | lia | fold v; lia].
Qed.

(** X24: the smoothed reading stays within the samples.  From the
    uninitialised state and for samples between lo and hi, within the
    range 0..4095 of the 12-bit ADC, the reading logged after any number
    of samples, (uint16_t)(emaRaw + 0.5f), is defined and lies between lo
    and hi: the rounding of binary32 never carries the filter out of the
    range of its inputs. *)
Theorem smoother_stays_within_samples (st : State) (samples : list Z) (lo hi : Z) :
  fltb (emaRaw st) f_zero = true -> samples <> [] ->
  0 <= lo -> hi <= 4095 -> Forall (fun s => lo <= s <= hi) samples ->
  exists r, float_to_u16 (fadd (emaRaw (smooth_all samples st)) f_half) = Some r
    /\ lo <= r <= hi.
Proof.
  intros Hneg Hne Hlo Hhi Hall.
  assert (Hlh : lo <= hi).
  { destruct samples as [|s l]; [congruence|]. apply Forall_inv in Hall. lia. }
  pose proof (all_from_spec _ _ 0 lo ema_bounds_adc ltac:(lia)) as Klo.
  pose proof (all_from_spec _ _ 0 hi ema_bounds_adc ltac:(lia)) as Khi.
  assert (Hb : ema_between lo hi (emaRaw (smooth_all samples st))).
  { induction samples as [|s l IH] using rev_ind; [congruence|].
    apply Forall_app in Hall as [Hl Hs]. apply Forall_inv in Hs.
    rewrite smooth_all_snoc.
    apply loop_smooth_between; try assumption; try lia.
    destruct l as [|s' l']; [left; exact Hneg | right].
    apply IH; [discriminate | exact Hl]. }
  apply (ema_between_rounds lo hi); try assumption; lia.
Qed.

Lemma smoother_stays_within_samples_witness :
  exists r, float_to_u16 (fadd (emaRaw (smooth_all [300; 320; 310] (power_on blank_eeprom)))
                               f_half) = Some r
    /\ 300 <= r <= 320.
Proof.
  apply smoother_stays_within_samples; try reflexivity; try lia; [discriminate|].
  repeat constructor; lia.
Defined.

(* ====================================================================== *)
(** * The main loop is defined *)
(* ====================================================================== *)

Lemma loop_calibration_emaRaw b adc st : emaRaw (loop_calibration b adc st) = emaRaw st.
Proof.
  unfold loop_calibration, saveCalibration. cbv zeta.
  destruct (negb (calLoaded st) && _), b; try reflexivity;
    cbn; destruct (calStage st); reflexivity.
Qed.

Lemma updateLed_emaRaw PIN_LED idx now st : emaRaw (updateLed PIN_LED idx now st) = emaRaw st.
Proof. unfold updateLed. case_ifs; reflexivity. Qed.

Lemma setup_emaRaw st : emaRaw (setup st) = emaRaw st.
Proof. unfold setup, loadCalibration. cbv zeta. case_ifs; reflexivity. Qed.

(** One iteration from a state whose calibration, after the calibration
    block, is not degenerate. *)
Lemma loop_step_defined PIN_LED inp st :
  ema_ok st -> cal_fields_u16 st ->
  (calLoaded (loop_calibration (longPress inp) (calBurst inp) st) = true ->
   clearRaw (cal (loop_calibration (longPress inp) (calBurst inp) st))
   <> cloudyRaw (cal (loop_calibration (longPress inp) (calBurst inp) st))) ->
  exists st' row, loop PIN_LED inp st = Some (st', row)
    /\ ema_ok st' /\ cal_fields_u16 st' /\ row_ok row
    /\ row_raw_median row = readTurbidityMedian (burst inp)
    /\ row_cal_loaded row = calLoaded st'.
Proof.
  intros Hema Hcal Hne. unfold loop. cbv zeta.
  set (stc := loop_calibration (longPress inp) (calBurst inp) st) in *.
  set (m := readTurbidityMedian (burst inp)).
  set (sts := loop_smooth m stc).
  pose proof (readTurbidityMedian_u16 (burst inp)) as Hm. fold m in Hm.
  assert (Hcalc : cal_fields_u16 stc) by (apply loop_calibration_cal_fields, Hcal).
  assert (Hemac : ema_ok stc).
  { unfold ema_ok, stc. rewrite loop_calibration_emaRaw. exact Hema. }
  assert (K0 : ema_bounds_ok 0 = true) by reflexivity.
  assert (Hb : ema_between 0 65535 (emaRaw sts)).
  { apply loop_smooth_between; try exact ema_bounds_max; try assumption;
      unfold is_u16 in Hm; lia. }
  destruct (ema_between_rounds 0 65535 _ ltac:(lia) ltac:(lia) ltac:(lia) K0 ema_bounds_max Hb)
    as (r & -> & Hr).
  destruct (loop_smooth_calibration m stc) as (Ec & El & _ & _). fold sts in Ec, El.
  assert (Hidx : exists idx, computeTurbidityIndex sts r = Some idx /\ 0 <= idx <= 100).
  { destruct (calLoaded sts) eqn:Hl.
    - destruct (computeTurbidityIndex_calibrated sts r Hl) as (idx & E & Hi & _).
      + unfold is_u16; lia.
      + rewrite Ec. apply Hcalc.
      + rewrite Ec. apply Hcalc.
      + rewrite Ec. apply Hne. congruence.
      + exists idx. split; assumption.
    - apply computeTurbidityIndex_uncalibrated. exact Hl. }
  destruct Hidx as (idx & -> & Hi).
  destruct (updateLed_calibration PIN_LED idx (now inp) sts) as (Uc & Ul & _ & _).
  eexists _, _. split; [reflexivity|]. split; [|split; [|split; [|split]]].
  - right. rewrite updateLed_emaRaw. exact Hb.
  - unfold cal_fields_u16. rewrite Uc, Ec. exact Hcalc.
  - unfold row_ok. cbn. repeat split; try (unfold is_u16 in *; lia).
  - reflexivity.
  - reflexivity.
Qed.

(** X25: one iteration is defined unless the calibration is degenerate.
    From a state whose smoother is unseeded or within 0..65535 and whose
    references are 16-bit values, loop returns a row when the calibration
    in force after its calibration block is absent or has two different
    references.  The row holds the median of the burst, a 16-bit smoothed
    value, an index in 0..100, the status of that index and the loaded
    flag; calibration record, flag and EEPROM are those the calibration
    block left, and the next state satisfies the same conditions on
    smoother and references. *)
Theorem loop_defined_unless_degenerate (PIN_LED : Z) (inp : LoopInput) (st : State) :
  ema_ok st -> cal_fields_u16 st ->
  (calLoaded (loop_calibration (longPress inp) (calBurst inp) st) = true ->
   clearRaw (cal (loop_calibration (longPress inp) (calBurst inp) st))
   <> cloudyRaw (cal (loop_calibration (longPress inp) (calBurst inp) st))) ->
  exists st' row, loop PIN_LED inp st = Some (st', row)
    /\ ema_ok st' /\ cal_fields_u16 st' /\ row_ok row
    /\ row_raw_median row = readTurbidityMedian (burst inp)
    /\ row_cal_loaded row = calLoaded (loop_calibration (longPress inp) (calBurst inp) st)
    /\ cal st' = cal (loop_calibration (longPress inp) (calBurst inp) st)
    /\ calLoaded st' = calLoaded (loop_calibration (longPress inp) (calBurst inp) st)
    /\ eeprom st' = eeprom (loop_calibration (longPress inp) (calBurst inp) st).
Proof.
  intros Hema Hcal Hne.
  destruct (loop_step_defined PIN_LED inp st Hema Hcal Hne)
    as (st' & row & E & Hema' & Hcal' & Hrow & Hmed & Hflag).
  destruct (loop_calibration_part PIN_LED inp st st' row E) as (Pc & Pl & _ & Pe).
  exists st', row. rewrite Hflag. repeat (split; [assumption|]). exact Pe.
Qed.

Lemma loop_defined_unless_degenerate_witness :
  exists st' row,
    loop 13 (mkLoopInput false (fun _ => 0) (fun i => 400 + Z.of_nat i) 1000)
         (setup (power_on blank_eeprom)) = Some (st', row)
    /\ row_ok row /\ row_raw_median row = readTurbidityMedian (fun i => 400 + Z.of_nat i).
Proof.
  destruct (loop_defined_unless_degenerate 13
              (mkLoopInput false (fun _ => 0) (fun i => 400 + Z.of_nat i) 1000)
              (setup (power_on blank_eeprom)))
    as (st' & row & E & _ & _ & Hrow & Hmed & _).
  - left. reflexivity.
  - apply setup_cal_fields.
  - vm_compute. discriminate.
  - exists st', row. split; [exact E|]. split; [exact Hrow | exact Hmed].
Defined.

(** The invariant of normal operation. *)
Lemma run_loop_idle PIN_LED inputs : forall st,
  Forall (fun inp => longPress inp = false) inputs ->
  ema_ok st -> cal_fields_u16 st ->
  (calLoaded st = true -> clearRaw (cal st) <> cloudyRaw (cal st)) ->
  exists st' rows, run_loop PIN_LED inputs st = Some (st', rows)
    /\ length rows = length inputs /\ Forall row_ok rows
    /\ cal st' = cal st /\ calLoaded st' = calLoaded st /\ eeprom st' = eeprom st.
Proof.
  induction inputs as [|inp rest IH]; intros st Hall Hema Hcal Hne.
  - exists st, []. repeat split. constructor.
  - apply Forall_cons in Hall as [Hp Hall]. cbn [run_loop].
    assert (Hidle : cal (loop_calibration (longPress inp) (calBurst inp) st) = cal st
                    /\ calLoaded (loop_calibration (longPress inp) (calBurst inp) st)
                       = calLoaded st
                    /\ eeprom (loop_calibration (longPress inp) (calBurst inp) st)
                       = eeprom st).
    { rewrite Hp. unfold loop_calibration. case_ifs; repeat split. }
    destruct Hidle as (Ic & Il & Ie).
    destruct (loop_step_defined PIN_LED inp st Hema Hcal)
      as (st1 & row & E & Hema1 & Hcal1 & Hrow & _).
    { rewrite Ic, Il. exact Hne. }
    rewrite E.
    destruct (loop_calibration_part PIN_LED inp st st1 row E) as (Pc & Pl & _ & Pe).
    destruct (IH st1 Hall Hema1 Hcal1) as (st2 & rows & -> & Hlen & Hrows & Rc & Rl & Re).
    { rewrite Pc, Pl, Ic, Il. exact Hne. }
    exists st2, (row :: rows). split; [reflexivity|].
    split; [cbn; lia|]. split; [constructor; assumption|].
    rewrite Rc, Rl, Re, Pc, Pl, Pe, Ic, Il, Ie. repeat split.
Qed.

(** X26: normal operation never leaves defined behaviour.  Whatever the
    EEPROM holds at power-on and whatever the sensor and the clock
    deliver, as long as no long press occurs every iteration of loop is
    defined: one well-formed row per iteration, and calibration record,
    loaded flag and EEPROM stay as setup left them. *)
Theorem normal_operation_is_defined (PIN_LED : Z) (e : nat -> byte) (inputs : list LoopInput) :
  Forall (fun inp => longPress inp = false) inputs ->
  exists st rows, run_loop PIN_LED inputs (setup (power_on e)) = Some (st, rows)
    /\ length rows = length inputs /\ Forall row_ok rows
    /\ cal st = cal (setup (power_on e))
    /\ calLoaded st = calLoaded (setup (power_on e))
    /\ eeprom st = e.
Proof.
  intros Hall.
  destruct (run_loop_idle PIN_LED inputs (setup (power_on e)) Hall)
    as (st & rows & E & Hlen & Hrows & Hc & Hl & He).
  - left. rewrite setup_emaRaw. reflexivity.
  - apply setup_cal_fields.
  - intros Hld. apply setup_calLoaded in Hld. rewrite setup_cal. apply Hld.
  - exists st, rows. rewrite setup_eeprom in He. repeat split; assumption.
Qed.

Lemma normal_operation_is_defined_witness :
  exists st rows,
    run_loop 13 [mkLoopInput false (fun _ => 0) (fun _ => 512) 0;
                 mkLoopInput false (fun _ => 0) (fun _ => 600) 100]
             (setup (power_on blank_eeprom)) = Some (st, rows)
    /\ length rows = 2%nat /\ Forall row_ok rows
    /\ cal st = cal (setup (power_on blank_eeprom))
    /\ calLoaded st = calLoaded (setup (power_on blank_eeprom))
    /\ eeprom st = blank_eeprom.
Proof.
  apply (normal_operation_is_defined 13 blank_eeprom
           [mkLoopInput false (fun _ => 0) (fun _ => 512) 0;
            mkLoopInput false (fun _ => 0) (fun _ => 600) 100]).
  repeat constructor.
Defined.

(* ====================================================================== *)
(** * The simpler sketch: filter and voltage *)
(* ====================================================================== *)

Lemma simple_fixed_all : all_from simple_fixed 0 (Z.to_nat 1024) = true.
Proof. vm_compute. reflexivity. Qed.

Lemma simple_smooth_blend x s :
  finite_nn x ->
  Simple.smooth x s
  = fadd (fmul Simple.EMA_ALPHA (of_int s)) (fmul (S754_finite false 12582912 (-24)) x).
Proof. destruct x as [| | |[] m e]; simpl; intros H; try tauto; reflexivity. Qed.

Lemma simple_smooth_between lo hi s x :
  0 <= lo -> lo <= s <= hi -> hi <= 1023 ->
  x = S754_nan \/ (finite_nn x /\ fval (of_int lo) <= fval x <= fval (of_int hi)) ->
  finite_nn (Simple.smooth x s)
  /\ fval (of_int lo) <= fval (Simple.smooth x s) <= fval (of_int hi).
Proof.
  intros Hlo Hs Hhi Hx.
  destruct (of_int_value lo ltac:(lia)) as [Fl Vl].
  destruct (of_int_value hi ltac:(lia)) as [Fh Vh].
  destruct (of_int_value s ltac:(lia)) as [Fs Vs].
  assert (PT : 0 < 2 ^ 400) by reflexivity.
  destruct Hx as [->|(Fx & Hxl & Hxh)].
  { change (Simple.smooth S754_nan s) with (of_int s). split; [exact Fs|].
    rewrite Vl, Vh, Vs. nia. }
  assert (Ha : finite_nn Simple.EMA_ALPHA) by (simpl; lia).
  assert (Hb : finite_nn (S754_finite false 12582912 (-24))) by (simpl; lia).
  assert (Hfix : forall M, 0 <= M <= 1023 ->
            fval (Simple.smooth (of_int M) M) = fval (of_int M)).
  { intros M HM. destruct (of_int_value M ltac:(lia)) as [FM VM].
    pose proof (all_from_spec _ _ 0 M simple_fixed_all ltac:(lia)) as Hok.
    unfold simple_fixed in Hok. cbv zeta in Hok. apply andb_true_iff in Hok as [H1 H2].
    assert (Fy : finite_nn (Simple.smooth (of_int M) M)).
    { rewrite simple_smooth_blend by exact FM.
      apply (blend_mono _ _ M M (of_int M) (of_int M)); try assumption; try reflexivity;
        lia. }
    apply fval_leb_spec in H1; [|assumption|assumption].
    apply fval_leb_spec in H2; [|assumption|assumption]. lia. }
  pose proof (Hfix lo ltac:(lia)) as Elo. pose proof (Hfix hi ltac:(lia)) as Ehi.
  rewrite simple_smooth_blend in Elo, Ehi |- * by assumption.
  destruct (blend_mono Simple.EMA_ALPHA (S754_finite false 12582912 (-24))
              s hi x (of_int hi)) as (F1 & Hup & _);
    try assumption; try reflexivity; try lia.
  destruct (blend_mono Simple.EMA_ALPHA (S754_finite false 12582912 (-24))
              lo s (of_int lo) x) as (_ & Hdown & _);
    try assumption; try reflexivity; try lia.
  split; [exact F1|]. lia.
Qed.

(** X27: the filter of the simpler sketch stays within its readings.  After
    any number of averaged readings between lo and hi (10-bit values), the
    filtered value is a finite number between lo and hi: it is never NaN
    again, so the seeding branch runs once, and rounding never carries it
    out of the range of the readings. *)
Theorem simple_filter_stays_within_readings (samples : list Z) (lo hi : Z) :
  samples <> [] -> 0 <= lo -> hi <= 1023 -> Forall (fun s => lo <= s <= hi) samples ->
  finite_nn (simple_smooth_all samples S754_nan)
  /\ fval (of_int lo) <= fval (simple_smooth_all samples S754_nan) <= fval (of_int hi).
Proof.
  intros Hne Hlo Hhi Hall.
  induction samples as [|s l IH] using rev_ind; [congruence|].
  apply Forall_app in Hall as [Hl Hs]. apply Forall_inv in Hs.
  rewrite simple_smooth_all_snoc. apply simple_smooth_between; try assumption.
  destruct l as [|s' l']; [left; reflexivity | right].
  apply IH; [discriminate | exact Hl].
Qed.

Lemma simple_filter_stays_within_readings_witness :
  finite_nn (simple_smooth_all [500; 520; 510] S754_nan)
  /\ fval (of_int 500) <= fval (simple_smooth_all [500; 520; 510] S754_nan)
     <= fval (of_int 520).
Proof.
  apply simple_filter_stays_within_readings; try lia; [discriminate|].
  repeat constructor; lia.
Defined.

Lemma fmul_mono_l x y c :
  finite_nn x -> finite_nn y -> finite_nn c -> fval x <= fval y ->
  fval y * fval c < 2 ^ 900 ->
  fval (fmul x c) <= fval (fmul y c).
Proof.
  intros Hx Hy Hc Hle Hb.
  pose proof (fval_nonneg c). pose proof (fval_nonneg x).
  assert (Hb1 : fval x * fval c < 2 ^ 900) by nia.
  destruct (fmul_value x c Hx Hc Hb1) as (_ & V1 & E1 & R1).
  destruct (fmul_value y c Hy Hc Hb) as (_ & V2 & E2 & R2).
  apply (rounded_value_mono V1 V2); [|assumption|assumption].
  assert (P : 0 < 2 ^ 400) by reflexivity. nia.
Qed.

(** X28: the voltage shown grows with the reading and spans 0 V to 5 V.
    For readings 0 <= r <= r' <= 1023, adcToVoltage r is a finite number
    not above adcToVoltage r', which is not above 5.0; the ends are exact:
    0.0 at 0 and 5.0 at 1023. *)
Theorem adcToVoltage_monotone (r r' : Z) :
  0 <= r <= r' -> r' <= 1023 ->
  finite_nn (Simple.adcToVoltage r)
  /\ fval (Simple.adcToVoltage r) <= fval (Simple.adcToVoltage r')
  /\ fval (Simple.adcToVoltage r') <= fval (of_int 5)
  /\ Simple.adcToVoltage 0 = S754_zero false
  /\ Simple.adcToVoltage 1023 = of_int 5.
Proof.
  intros Hr Hr'. unfold Simple.adcToVoltage.
  change (fdiv (of_int 5) (of_int 1023)) with (S754_finite false 10496010 (-31)).
  set (c := S754_finite false 10496010 (-31)).
  assert (Hc : finite_nn c) by (simpl; lia).
  assert (Vc : fval c < 2 ^ 400) by reflexivity.
  destruct (of_int_value r ltac:(lia)) as [Fr Vr].
  destruct (of_int_value r' ltac:(lia)) as [Fr' Vr'].
  destruct (of_int_value 1023 ltac:(lia)) as [Fm Vm].
  pose proof (fval_nonneg c) as Nc.
  assert (E900 : 2 ^ 900 = 2 ^ 100 * 2 ^ 400 * 2 ^ 400) by reflexivity.
  assert (B100 : 1024 < 2 ^ 100) by reflexivity.
  assert (PT : 0 < 2 ^ 400) by reflexivity.
  set (T := 2 ^ 400) in *. set (T9 := 2 ^ 900) in *. set (T1 := 2 ^ 100) in *.
  assert (Pb : forall v, 0 <= v <= 1023 * T -> v * fval c < T9)
    by (intros v Hv; clearbody T T9 T1; nia).
  assert (Br : 0 <= fval (of_int r) <= 1023 * T) by (rewrite Vr; clearbody T; nia).
  assert (Br' : 0 <= fval (of_int r') <= 1023 * T) by (rewrite Vr'; clearbody T; nia).
  assert (Bm : 0 <= fval (of_int 1023) <= 1023 * T) by (rewrite Vm; clearbody T; nia).
  split; [apply (fmul_value (of_int r) c Fr Hc (Pb _ Br))|]. split; [|split].
  - assert (Hle : fval (of_int r) <= fval (of_int r')) by (rewrite Vr, Vr'; clearbody T; nia).
    exact (fmul_mono_l _ _ c Fr Fr' Hc Hle (Pb _ Br')).
  - assert (Hle : fval (of_int r') <= fval (of_int 1023))
      by (rewrite Vr', Vm; clearbody T; nia).
    change (of_int 5) with (fmul (of_int 1023) c).
    exact (fmul_mono_l _ _ c Fr' Fm Hc Hle (Pb _ Bm)).
  - split; reflexivity.
Qed.

Lemma adcToVoltage_monotone_witness :
  fval (Simple.adcToVoltage 511) <= fval (Simple.adcToVoltage 512).
Proof. apply (adcToVoltage_monotone 511 512); lia. Defined.

(* ====================================================================== *)
(** * Index mapper: distance from round-half-up *)
(* ====================================================================== *)

(** Rounding a significand of at least 24 bits, whatever is known of the
    bits already dropped, returns the truncated significand or the next
    one. *)
Lemma binary_round_aux_near mx ex l d :
  Zpos (digits2_pos mx) = d -> 24 <= d -> -149 <= ex + d - 24 -> ex + d - 24 < 104 ->
  finite_nn (binary_round_aux 24 128 false (Zpos mx) ex l)
  /\ exists m2, (m2 = Zpos mx / 2 ^ (d - 24) \/ m2 = Zpos mx / 2 ^ (d - 24) + 1)
       /\ 2 ^ 23 <= Zpos mx / 2 ^ (d - 24)
       /\ fval (binary_round_aux 24 128 false (Zpos mx) ex l) = m2 * 2 ^ (ex + d - 24 + 400).
Proof.
  intros Hd H24 Hmin Hmax. unfold binary_round_aux.
  destruct (shr_fexp_normal (Zpos mx) ex l d) as (r1 & -> & Hr1); try lia; [exact Hd|].
  apply digits2_pos_bounds in Hd.
  assert (Hp : 2 ^ (d - 1) = 2 ^ (d - 24) * 2 ^ 23)
    by (rewrite <- Z.pow_add_r by lia; f_equal; lia).
  assert (Hq : 2 ^ d = 2 ^ (d - 24) * 2 ^ 24)
    by (rewrite <- Z.pow_add_r by lia; f_equal; lia).
  assert (H2n : 0 < 2 ^ (d - 24)) by (apply Z.pow_pos_nonneg; lia).
  assert (Hm1 : 2 ^ 23 <= shr_m r1 < 2 ^ 24).
  { rewrite Hr1. split.
    - apply Z.div_le_lower_bound; lia.
    - apply Z.div_lt_upper_bound; lia. }
  set (m2 := round_nearest_even (shr_m r1) (loc_of_shr_record r1)).
  assert (Hm2 : m2 = shr_m r1 \/ m2 = shr_m r1 + 1) by apply round_nearest_even_cases.
  clearbody m2.
  destruct (shr_fexp_second m2 (ex + d - 24) ltac:(lia) ltac:(lia))
    as (r2 & e2 & -> & He2 & Hv2 & Hlt2).
  assert (PE : 0 < 2 ^ (e2 - (ex + d - 24))) by (apply Z.pow_pos_nonneg; lia).
  cbn [fst snd].
  destruct (shr_m r2) as [|q|q] eqn:Eq2; try nia.
  replace (e2 <=? 128 - 24) with true by (symmetry; apply Z.leb_le; lia).
  split; [simpl; lia|].
  exists m2. rewrite <- Hr1. split; [exact Hm2|]. split; [lia|].
  rewrite fval_finite by lia. rewrite <- Hv2.
  rewrite <- Z.mul_assoc, <- Z.pow_add_r by lia. f_equal. f_equal. lia.
Qed.

(** The quotient of two positive normal floats is within one unit in the
    last place of the exact quotient: with [U] that unit,
    [|fdiv x y * y - x| <= U * y], and the quotient is at least [2^23 U]. *)
Lemma fdiv_near mx ex my ey :
  normal24 mx -> normal24 my -> -60 <= ex - ey <= 60 -> -149 <= ey -> -149 <= ex ->
  finite_nn (fdiv (S754_finite false mx ex) (S754_finite false my ey))
  /\ exists U, 0 < U
       /\ 2 ^ 23 * U <= fval (fdiv (S754_finite false mx ex) (S754_finite false my ey))
       /\ - (U * fval (S754_finite false my ey))
          <= fval (fdiv (S754_finite false mx ex) (S754_finite false my ey))
             * fval (S754_finite false my ey)
             - fval (S754_finite false mx ex) * 2 ^ 400
          <= U * fval (S754_finite false my ey).
Proof.
  intros Hx Hy He Hey Hex.
  assert (Hdx : Zdigits2 (Zpos mx) = 24) by (apply Zdigits2_bounds; [lia | exact Hx]).
  assert (Hdy : Zdigits2 (Zpos my) = 24) by (apply Zdigits2_bounds; [lia | exact Hy]).
  unfold normal24 in Hx, Hy.
  rewrite !fval_finite by lia.
  unfold fdiv, SFdiv, SFdiv_core_binary. cbv zeta. rewrite Hdx, Hdy. unfold fexp, emin.
  replace (Z.min (Z.max (24 + ex - (24 + ey) - 24) (3 - 128 - 24)) (ex - ey))
    with (ex - ey - 24) by lia.
  replace (ex - ey - (ex - ey - 24)) with 24 by lia.
  rewrite Z.shiftl_mul_pow2 by lia.
  pose proof (Z_div_mod (Zpos mx * 2 ^ 24) (Zpos my) ltac:(lia)) as Hdm.
  destruct (Z.div_eucl (Zpos mx * 2 ^ 24) (Zpos my)) as [q r].
  destruct Hdm as [Hq Hr]. cbn [xorb].
  change (2 ^ 24) with 16777216 in *. change (2 ^ 23) with 8388608 in *.
  assert (Hq1 : 8388608 <= q < 33554432) by nia.
  destruct q as [|pq|pq]; try lia.
  (* the value bounds, from the truncated significand [q'] and the shift [k] *)
  assert (Hfin : forall k R,
            (k = 0 \/ k = 1) ->
            finite_nn R ->
            (exists m2, (m2 = Zpos pq / 2 ^ k \/ m2 = Zpos pq / 2 ^ k + 1)
               /\ 8388608 <= Zpos pq / 2 ^ k
               /\ fval R = m2 * 2 ^ (ex - ey - 24 + k + 400)) ->
            finite_nn R
            /\ exists U, 0 < U /\ 8388608 * U <= fval R
                 /\ - (U * (Zpos my * 2 ^ (ey + 400)))
                    <= fval R * (Zpos my * 2 ^ (ey + 400)) - Zpos mx * 2 ^ (ex + 400) * 2 ^ 400
                    <= U * (Zpos my * 2 ^ (ey + 400))).
  { intros k R Hk HR (m2 & Hm2 & Hq23 & Hv). split; [exact HR|].
    exists (2 ^ (ex - ey - 24 + k + 400)).
    assert (PU : 0 < 2 ^ (ex - ey - 24 + k + 400)) by (apply Z.pow_pos_nonneg; lia).
    split; [exact PU|]. rewrite Hv. split; [nia|].
    assert (PK : 0 < 2 ^ k) by (apply Z.pow_pos_nonneg; lia).
    pose proof (Z.div_mod (Zpos pq) (2 ^ k) ltac:(lia)) as Hdk.
    pose proof (Z.mod_pos_bound (Zpos pq) (2 ^ k) PK) as Hrk.
    set (P := 2 ^ (ex - 24 + 800)).
    assert (PP : 0 < P) by (apply Z.pow_pos_nonneg; lia).
    assert (E1 : 2 ^ (ex - ey - 24 + k + 400) * 2 ^ (ey + 400) = 2 ^ k * P).
    { unfold P. rewrite <- !Z.pow_add_r by lia. f_equal. lia. }
    assert (E2 : 2 ^ (ex + 400) * 2 ^ 400 = 16777216 * P).
    { unfold P. change 16777216 with (2 ^ 24). rewrite <- !Z.pow_add_r by lia. f_equal. lia. }
    replace (m2 * 2 ^ (ex - ey - 24 + k + 400) * (Zpos my * 2 ^ (ey + 400)))
      with (m2 * Zpos my * (2 ^ (ex - ey - 24 + k + 400) * 2 ^ (ey + 400))) by ring.
    replace (2 ^ (ex - ey - 24 + k + 400) * (Zpos my * 2 ^ (ey + 400)))
      with (Zpos my * (2 ^ (ex - ey - 24 + k + 400) * 2 ^ (ey + 400))) by ring.
    replace (Zpos mx * 2 ^ (ex + 400) * 2 ^ 400)
      with (Zpos mx * (2 ^ (ex + 400) * 2 ^ 400)) by ring.
    rewrite E1, E2.
    set (K := 2 ^ k) in *. set (q' := Zpos pq / K) in *. set (rk := Zpos pq mod K) in *.
    clearbody K q' rk P.
    (* q' K my <= mx 2^24 < (q' + 1) K my *)
    assert (L1 : q' * K * Zpos my <= Zpos mx * 16777216) by nia.
    assert (L2 : Zpos mx * 16777216 < (q' + 1) * K * Zpos my) by nia.
    destruct Hm2 as [-> | ->]; nia. }
  destruct (Z_lt_le_dec (Zpos pq) 16777216) as [Hlt|Hge].
  - destruct (binary_round_aux_near pq (ex - ey - 24) (new_location (Zpos my) r) 24)
      as (HR & m2 & Hm2 & H23 & Hv); try lia.
    { apply digits2_pos_bounds. change (2 ^ (24 - 1)) with 8388608.
      change (2 ^ 24) with 16777216. lia. }
    apply (Hfin 0); [left; reflexivity | exact HR |].
    exists m2. change (24 - 24) with 0 in *. change (2 ^ 23) with 8388608 in H23.
    split; [exact Hm2|]. split; [exact H23|]. rewrite Hv. f_equal. f_equal. lia.
  - destruct (binary_round_aux_near pq (ex - ey - 24) (new_location (Zpos my) r) 25)
      as (HR & m2 & Hm2 & H23 & Hv); try lia.
    { apply digits2_pos_bounds. change (2 ^ (25 - 1)) with 16777216.
      change (2 ^ 25) with 33554432. lia. }
    apply (Hfin 1); [right; reflexivity | exact HR |].
    exists m2. change (25 - 24) with 1 in *. change (2 ^ 23) with 8388608 in H23.
    split; [exact Hm2|]. split; [exact H23|]. rewrite Hv. f_equal. f_equal. lia.
Qed.

Lemma rounded_value_error V R M :
  rounded_value V R -> 0 <= V < 2 ^ (M + 400) -> -125 <= M ->
  - 2 ^ (M - 24 + 400) <= 2 * (R - V) <= 2 ^ (M - 24 + 400).
Proof.
  intros [[-> ->]|(mag & r & Hm & Hb & -> & Hr)] HV HM.
  - assert (0 < 2 ^ (M - 24 + 400)) by (apply Z.pow_pos_nonneg; lia). lia.
  - assert (Hmag : mag <= M).
    { assert (H : 2 ^ (mag - 1 + 400) < 2 ^ (M + 400)) by lia.
      apply Z.pow_lt_mono_r_iff in H; lia. }
    assert (HU : 2 ^ (Z.max (mag - 24) (-149) + 400) <= 2 ^ (M - 24 + 400))
      by (apply Z.pow_le_mono_r; lia).
    destruct Hr as (H1 & _). lia.
Qed.

Lemma float_to_int_value x :
  finite_nn x -> fval x < 2 ^ 31 * 2 ^ 400 -> float_to_int x = Some (fval x / 2 ^ 400).
Proof.
  intros Hx Hv. unfold float_to_int. rewrite ftrunc_value by exact Hx.
  pose proof (fval_nonneg x) as Hn.
  assert (H0 : 0 <= fval x / 2 ^ 400) by (apply Z.div_pos; [exact Hn | reflexivity]).
  assert (H1 : fval x / 2 ^ 400 < 2 ^ 31) by (apply Z.div_lt_upper_bound; [reflexivity | lia]).
  change (2 ^ 31) with 2147483648 in H1.
  replace (INT_MIN <=? fval x / 2 ^ 400) with true
    by (symmetry; apply Z.leb_le; unfold INT_MIN; lia).
  replace (fval x / 2 ^ 400 <=? INT_MAX) with true
    by (symmetry; apply Z.leb_le; unfold INT_MAX; lia).
  reflexivity.
Qed.

(** Between the references the index is the integer part of a number
    within [328 * 2^-24] of [100 n/d + 1/2]: the quotient is off by at most
    one unit in its last place, the product and the sum by half a unit of
    theirs. *)
Lemma index_of_int_ratio_near n d :
  0 < n < d -> d <= 65535 ->
  exists idx, index_of_ratio (fdiv (of_int n) (of_int d)) = Some idx
    /\ 2 ^ 24 * d * idx <= 2 ^ 23 * (200 * n + d) + 328 * d
    /\ 2 ^ 23 * (200 * n + d) - 328 * d < 2 ^ 24 * d * (idx + 1).
Proof.
  intros Hn Hd.
  destruct (of_int_value n ltac:(lia)) as [_ Vn].
  destruct (of_int_value d ltac:(lia)) as [_ Vd].
  rewrite !of_int_canon in * by lia.
  pose proof (Zdigits2_small n ltac:(lia)) as Hdn.
  pose proof (Zdigits2_small d ltac:(lia)) as Hdd.
  pose proof (Zdigits2_mono n d ltac:(lia)) as Hmono.
  destruct (canon_finite n) as (mn & En & _ & Hnn); [lia|].
  destruct (canon_finite d) as (md & Ed & _ & Hnd); [lia|].
  rewrite En, Ed in *.
  replace (n <? 0) with false in * by (symmetry; apply Z.ltb_ge; lia).
  replace (d <? 0) with false in * by (symmetry; apply Z.ltb_ge; lia).
  set (en := Zdigits2 n - 24) in *. set (ed := Zdigits2 d - 24) in *.
  destruct (fdiv_normal false mn en false md ed) as (m & e & Et & Hm & He & _);
    [exact Hnn | exact Hnd | lia |].
  destruct (fdiv_near mn en md ed) as (Ft & U & PU & HU & Hq);
    [exact Hnn | exact Hnd | lia | lia | lia |].
  cbn [xorb] in Et. rewrite Et in *. rewrite Vn, Vd in Hq.
  set (t1 := S754_finite false m e) in *.
  set (a := fval t1) in *.
  assert (PT : 0 < 2 ^ 400) by reflexivity.
  assert (H1 : - (U * d) <= a * d - n * 2 ^ 400 <= U * d).
  { set (T := 2 ^ 400) in *. clearbody T a. nia. }
  assert (HaT : a <= 2 ^ 400).
  { change (2 ^ 23) with 8388608 in HU. set (T := 2 ^ 400) in *. clearbody T a.
    destruct (Z_le_gt_dec a T) as [|Hc]; [assumption|exfalso]. nia. }
  (* no clamping: t1 is not above 1.0f *)
  assert (Hclamp : fltb f_one t1 = false).
  { apply not_true_is_false. intros Hc. unfold f_one, t1 in Hc.
    apply fltb_finite_pos in Hc. unfold a, t1 in HaT. rewrite fval_finite in HaT by lia.
    unfold normal24 in Hm. change (2 ^ 23) with 8388608 in Hm.
    destruct Hc as [Hc|[<- Hc]].
    - assert (2 ^ (-22 + 400) <= 2 ^ (e + 400)) by (apply Z.pow_le_mono_r; lia).
      change (2 ^ 400) with (4194304 * 2 ^ (-22 + 400)) in HaT.
      assert (0 < 2 ^ (-22 + 400)) by reflexivity. nia.
    - change (2 ^ 400) with (8388608 * 2 ^ (-23 + 400)) in HaT.
      assert (0 < 2 ^ (-23 + 400)) by reflexivity. nia. }
  unfold index_of_ratio.
  change (fltb t1 f_zero) with false. cbv iota. rewrite Hclamp.
  (* t2 = t1 * 100 *)
  assert (Fh : finite_nn f_hundred) by (simpl; lia).
  assert (Vh : fval f_hundred = 100 * 2 ^ 400) by reflexivity.
  pose proof (fval_nonneg t1) as Na. fold a in Na.
  assert (Hb900 : a * fval f_hundred < 2 ^ 900).
  { rewrite Vh. change (2 ^ 900) with (2 ^ 100 * 2 ^ 400 * 2 ^ 400).
    assert (100 < 2 ^ 100) by reflexivity.
    set (T := 2 ^ 400) in *. set (T1 := 2 ^ 100) in *. clearbody T T1 a. nia. }
  destruct (fmul_value t1 f_hundred Ft Fh Hb900) as (F2 & V2 & EV2 & R2).
  fold a in EV2. rewrite Vh in EV2.
  assert (EV2' : V2 = 100 * a).
  { set (T := 2 ^ 400) in *. clearbody T a. nia. }
  subst V2.
  set (t2 := fmul t1 f_hundred) in *. set (b := fval t2) in *.
  pose proof (rounded_value_error (100 * a) b 7 R2) as Eb.
  change (2 ^ (7 + 400)) with (128 * 2 ^ 400) in Eb.
  change (2 ^ (7 - 24 + 400)) with (2 ^ 383) in Eb.
  specialize (Eb ltac:(lia) ltac:(lia)).
  (* t3 = t2 + 0.5 *)
  assert (Fhalf : finite_nn f_half) by (simpl; lia).
  assert (Vhalf : fval f_half = 2 ^ 399) by reflexivity.
  assert (E400 : 2 ^ 400 = 16777216 * 2 ^ 376) by reflexivity.
  assert (E383 : 2 ^ 383 = 128 * 2 ^ 376) by reflexivity.
  assert (E399 : 2 ^ 399 = 8388608 * 2 ^ 376) by reflexivity.
  assert (E500 : 2 ^ 500 = 2 ^ 124 * 2 ^ 376) by reflexivity.
  assert (B124 : 2 ^ 40 < 2 ^ 124) by reflexivity.
  assert (PW : 0 < 2 ^ 376) by reflexivity.
  assert (Hs : b + fval f_half < 2 ^ 500).
  { rewrite Vhalf, E500, E399. rewrite E400 in HaT. rewrite E383 in Eb.
    change (2 ^ 40) with 1099511627776 in B124.
    set (W := 2 ^ 376) in *. set (T1 := 2 ^ 124) in *. clearbody W T1 a b. nia. }
  destruct (fadd_value t2 f_half F2 Fhalf Hs) as (F3 & R3).
  fold b in R3. rewrite Vhalf in R3.
  set (t3 := fadd t2 f_half) in *. set (c := fval t3) in *.
  pose proof (fval_nonneg t2) as Nb. fold b in Nb.
  pose proof (rounded_value_error (b + 2 ^ 399) c 7 R3) as Ec.
  change (2 ^ (7 + 400)) with (128 * 2 ^ 400) in Ec.
  change (2 ^ (7 - 24 + 400)) with (2 ^ 383) in Ec.
  assert (Hb128 : 0 <= b + 2 ^ 399 < 128 * 2 ^ 400).
  { rewrite E399, E400. rewrite E400 in HaT. rewrite E383 in Eb.
    set (W := 2 ^ 376) in *. clearbody W a b. lia. }
  specialize (Ec Hb128 ltac:(lia)).
  (* the conversion *)
  pose proof (fval_nonneg t3) as Nc. fold c in Nc.
  assert (Hc31 : c < 2 ^ 31 * 2 ^ 400).
  { change (2 ^ 31) with 2147483648. rewrite E400. rewrite E399, E400 in Hb128.
    rewrite E383, E399 in Ec.
    set (W := 2 ^ 376) in *. clearbody W a b c. lia. }
  rewrite (float_to_int_value t3 F3 Hc31). fold c.
  set (v := c / 2 ^ 400).
  pose proof (Z.div_mod c (2 ^ 400) ltac:(lia)) as Hdm.
  pose proof (Z.mod_pos_bound c (2 ^ 400) PT) as Hrem.
  fold v in Hdm.
  assert (Hv0 : 0 <= v) by (apply Z.div_pos; lia).
  (* everything in units of W = 2^376 *)
  change (2 ^ 23) with 8388608 in HU.
  change (2 ^ 24) with 16777216. change (2 ^ 23) with 8388608.
  rewrite E400 in H1, HaT, Hdm, Hrem. rewrite E383 in Eb. rewrite E383, E399 in Ec.
  set (W := 2 ^ 376) in *. set (rem := c mod (16777216 * W)) in *.
  clearbody W rem v a b c t1 t2 t3.
  assert (HUW : U <= 2 * W) by nia.
  assert (Had1 : a * d <= n * (16777216 * W) + 2 * W * d) by nia.
  assert (Had2 : n * (16777216 * W) - 2 * W * d <= a * d) by nia.
  assert (Hcd1 : c * d <= W * (1677721600 * n + 8388608 * d + 328 * d)) by nia.
  assert (Hcd2 : W * (1677721600 * n + 8388608 * d - 328 * d) <= c * d) by nia.
  assert (Hv1 : 16777216 * d * v <= 1677721600 * n + 8388608 * d + 328 * d) by nia.
  assert (Hv2 : 1677721600 * n + 8388608 * d - 328 * d < 16777216 * d * (v + 1)) by nia.
  assert (Hv100 : v <= 100) by nia.
  exists v. split.
  - replace (v <? 0) with false by (symmetry; apply Z.ltb_ge; lia).
    replace (100 <? v) with false by (symmetry; apply Z.ltb_ge; lia). reflexivity.
  - split; nia.
Qed.

(** What the error bound leaves of round-half-up. *)
Lemma near_half_up n d idx :
  0 < n < d ->
  2 ^ 24 * d * idx <= 2 ^ 23 * (200 * n + d) + 328 * d ->
  2 ^ 23 * (200 * n + d) - 328 * d < 2 ^ 24 * d * (idx + 1) ->
  let s := (200 * n + d) / (2 * d) in
  (2 ^ 16 * d * idx <= 2 ^ 15 * (200 * n + d) + 2 * d
   /\ 2 ^ 15 * (200 * n + d) < 2 ^ 16 * d * (idx + 1) + 2 * d)
  /\ s - 1 <= idx <= s + 1
  /\ ((200 * n + d) mod (2 * d) = 0 -> idx <= s)
  /\ (d <= 16384 -> (200 * n + d) mod (2 * d) <> 0 -> idx = s).
Proof.
  intros Hn H1 H2 s.
  pose proof (Z.div_mod (200 * n + d) (2 * d) ltac:(lia)) as Hdm.
  pose proof (Z.mod_pos_bound (200 * n + d) (2 * d) ltac:(lia)) as Hr.
  fold s in Hdm. set (r := (200 * n + d) mod (2 * d)) in *.
  change (2 ^ 24) with 16777216 in *. change (2 ^ 23) with 8388608 in *.
  change (2 ^ 16) with 65536. change (2 ^ 15) with 32768.
  clearbody s r.
  split; [split; lia|].
  split; [split; nia|].
  split; [intros ->; nia|].
  intros Hd Hne. nia.
Qed.

Lemma spec_index_low clear cloudy raw :
  clear <> cloudy ->
  (if clear <? cloudy then raw - clear else clear - raw) <= 0 ->
  spec_index clear cloudy raw = 0.
Proof.
  intros Hne Hn. unfold spec_index. cbv zeta.
  destruct (Z.ltb_spec clear cloudy) as [Hlt|Hge].
  - rewrite (Z.min_l clear cloudy), (Z.max_r clear cloudy) by lia.
    replace (Z.max 0 (Z.min (cloudy - clear) (raw - clear))) with 0 by lia.
    apply Z.div_small. lia.
  - rewrite (Z.min_r clear cloudy), (Z.max_l clear cloudy) by lia.
    replace (Z.max 0 (Z.min (clear - cloudy) (clear - raw))) with 0 by lia.
    apply Z.div_small. lia.
Qed.

Lemma spec_index_high clear cloudy raw :
  clear <> cloudy ->
  Z.abs (cloudy - clear) <= (if clear <? cloudy then raw - clear else clear - raw) ->
  spec_index clear cloudy raw = 100.
Proof.
  intros Hne Hn. unfold spec_index. cbv zeta.
  destruct (Z.ltb_spec clear cloudy) as [Hlt|Hge].
  - rewrite (Z.min_l clear cloudy), (Z.max_r clear cloudy) by lia.
    replace (Z.max 0 (Z.min (cloudy - clear) (raw - clear))) with (cloudy - clear) by lia.
    symmetry. apply (Z.div_unique _ _ 100 (cloudy - clear)); lia.
  - rewrite (Z.min_r clear cloudy), (Z.max_l clear cloudy) by lia.
    replace (Z.max 0 (Z.min (clear - cloudy) (clear - raw))) with (clear - cloudy) by lia.
    symmetry. apply (Z.div_unique _ _ 100 (clear - cloudy)); lia.
Qed.

Lemma spec_index_between clear cloudy raw :
  let num := if clear <? cloudy then raw - clear else clear - raw in
  let den := Z.abs (cloudy - clear) in
  0 < num < den ->
  spec_index clear cloudy raw = (200 * num + den) / (2 * den).
Proof.
  cbv zeta. intros Hn. unfold spec_index. cbv zeta.
  destruct (Z.ltb_spec clear cloudy) as [Hlt|Hge].
  - rewrite (Z.min_l clear cloudy), (Z.max_r clear cloudy) by lia.
    replace (Z.abs (cloudy - clear)) with (cloudy - clear) in * by lia.
    replace (Z.max 0 (Z.min (cloudy - clear) (raw - clear))) with (raw - clear) by lia.
    reflexivity.
  - rewrite (Z.min_r clear cloudy), (Z.max_l clear cloudy) by lia.
    replace (Z.abs (cloudy - clear)) with (clear - cloudy) in * by lia.
    replace (Z.max 0 (Z.min (clear - cloudy) (clear - raw))) with (clear - raw) by lia.
    reflexivity.
Qed.

(** The mapper on a loaded calibration, against the exact ratio. *)
Lemma computeTurbidityIndex_near st raw :
  calLoaded st = true ->
  is_u16 raw -> is_u16 (clearRaw (cal st)) -> is_u16 (cloudyRaw (cal st)) ->
  clearRaw (cal st) <> cloudyRaw (cal st) ->
  let num := if clearRaw (cal st) <? cloudyRaw (cal st)
             then raw - clearRaw (cal st) else clearRaw (cal st) - raw in
  let den := Z.abs (cloudyRaw (cal st) - clearRaw (cal st)) in
  exists idx, computeTurbidityIndex st raw = Some idx
    /\ (num <= 0 -> idx = 0)
    /\ (den <= num -> idx = 100)
    /\ (0 < num < den ->
          2 ^ 24 * den * idx <= 2 ^ 23 * (200 * num + den) + 328 * den
          /\ 2 ^ 23 * (200 * num + den) - 328 * den < 2 ^ 24 * den * (idx + 1)).
Proof.
  intros Hc Hr Hcl Hcy Hne. cbv zeta.
  rewrite computeTurbidityIndex_ratio by assumption.
  unfold is_u16 in Hr, Hcl, Hcy.
  set (clear := clearRaw (cal st)) in *. set (cloudy := cloudyRaw (cal st)) in *.
  clearbody clear cloudy.
  assert (Hcases : forall n d, 0 < d <= 65535 -> -65535 <= n <= 65535 ->
    exists idx, index_of_ratio (fdiv (of_int n) (of_int d)) = Some idx
      /\ (n <= 0 -> idx = 0) /\ (d <= n -> idx = 100)
      /\ (0 < n < d ->
            2 ^ 24 * d * idx <= 2 ^ 23 * (200 * n + d) + 328 * d
            /\ 2 ^ 23 * (200 * n + d) - 328 * d < 2 ^ 24 * d * (idx + 1))).
  { intros n d Hd Hn.
    destruct (Z_lt_le_dec 0 n) as [Hpos|Hnp]; [destruct (Z_lt_le_dec n d) as [Hlt|Hge]|].
    - destruct (index_of_int_ratio_near n d) as (idx & E & B1 & B2); [lia | lia |].
      exists idx. split; [exact E|]. split; [lia|]. split; [lia|]. intros _. split; assumption.
    - destruct (index_of_int_ratio n d) as (idx & E & _ & _ & Hhi);
        [change (2 ^ 24) with 16777216; lia | change (2 ^ 24) with 16777216; lia |].
      exists idx. split; [exact E|]. split; [lia|]. split; [intros _; apply Hhi; lia | lia].
    - destruct (index_of_int_ratio n d) as (idx & E & _ & Hlo & _);
        [change (2 ^ 24) with 16777216; lia | change (2 ^ 24) with 16777216; lia |].
      exists idx. split; [exact E|]. split; [intros _; apply Hlo; lia|]. split; lia. }
  destruct (Z.ltb_spec clear cloudy) as [Hlt|Hge].
  - replace (Z.abs (cloudy - clear)) with (cloudy - clear) by lia.
    apply Hcases; lia.
  - replace (Z.abs (cloudy - clear)) with (clear - cloudy) by lia.
    apply Hcases; lia.
Qed.

(** C6 (counterexample): the scaling is not round-half-up.  With clear
    = 0 and cloudy = 200 the raw value 59 has t = 0.295 and 100 t = 29.5,
    which rounds half-up to 30; the code computes 29, because the binary32
    quotient is below 0.295 and t*100 + 0.5 rounds to a value just under
    30.  The same happens for 53 (26 for 27) and 105 (52 for 53), and with
    clear = 300, cloudy = 340 at 321 (52 for 53).  At 59 the two values lie
    on opposite sides of the threshold between CLEAR and MODERATE. *)
Lemma computeTurbidityIndex_not_round_half_up :
  computeTurbidityIndex (calibrated 0 200) 59 = Some 29
  /\ spec_index 0 200 59 = 30
  /\ computeTurbidityIndex (calibrated 0 200) 53 = Some 26
  /\ spec_index 0 200 53 = 27
  /\ computeTurbidityIndex (calibrated 0 200) 105 = Some 52
  /\ spec_index 0 200 105 = 53
  /\ computeTurbidityIndex (calibrated 300 340) 321 = Some 52
  /\ spec_index 300 340 321 = 53
  /\ classifyStatus 29 = "CLEAR"
  /\ classifyStatus 30 = "MODERATE".
Proof.
  repeat split; reflexivity.
Qed.

(** C6 (amended): with a loaded calibration whose references differ, the
    mapper reads the direction off the comparison of cloudyRaw with
    clearRaw and always returns an index.  With num = raw - clear, den =
    cloudy - clear when cloudy is the higher reference, and num = clear -
    raw, den = clear - cloudy otherwise (so that t = num/den):
    - at or beyond the clear reference (num <= 0) the index is 0, at or
      beyond the cloudy reference (den <= num) it is 100, and both agree
      with the round-half-up value;
    - in between, the index is the integer part of a binary32 number
      within 2^-15 of 100 t + 1/2, so it differs from the round-half-up
      value by at most 1;
    - when 100 t + 1/2 is an integer (an exact tie) the index is the
      round-half-up value or one below it;
    - when the references are at most 16384 apart and there is no exact
      tie, the index is the round-half-up value.
    With clear = 900 and cloudy = 300: 900 gives 0, 300 gives 100 and 600
    gives 50.  With clear = 300 and cloudy = 900: 300 gives 0 and 900
    gives 100. *)
Theorem computeTurbidityIndex_two_point (st : State) (raw : Z) :
  (calLoaded st = true ->
   is_u16 raw -> is_u16 (clearRaw (cal st)) -> is_u16 (cloudyRaw (cal st)) ->
   clearRaw (cal st) <> cloudyRaw (cal st) ->
   let clear := clearRaw (cal st) in
   let cloudy := cloudyRaw (cal st) in
   let num := if clear <? cloudy then raw - clear else clear - raw in
   let den := Z.abs (cloudy - clear) in
   exists idx,
     computeTurbidityIndex st raw = Some idx
     /\ (num <= 0 -> idx = 0 /\ spec_index clear cloudy raw = 0)
     /\ (den <= num -> idx = 100 /\ spec_index clear cloudy raw = 100)
     /\ (0 < num < den ->
           2 ^ 16 * den * idx <= 2 ^ 15 * (200 * num + den) + 2 * den
           /\ 2 ^ 15 * (200 * num + den) < 2 ^ 16 * den * (idx + 1) + 2 * den)
     /\ spec_index clear cloudy raw - 1 <= idx <= spec_index clear cloudy raw + 1
     /\ ((200 * num + den) mod (2 * den) = 0 -> idx <= spec_index clear cloudy raw)
     /\ (den <= 16384 -> (200 * num + den) mod (2 * den) <> 0 ->
           idx = spec_index clear cloudy raw))
  /\ computeTurbidityIndex (calibrated 900 300) 900 = Some 0
  /\ computeTurbidityIndex (calibrated 900 300) 300 = Some 100
  /\ computeTurbidityIndex (calibrated 900 300) 600 = Some 50
  /\ computeTurbidityIndex (calibrated 300 900) 300 = Some 0
  /\ computeTurbidityIndex (calibrated 300 900) 900 = Some 100.
Proof.
  split; [|repeat split; reflexivity].
  intros Hc Hr Hcl Hcy Hne clear cloudy num den.
  destruct (computeTurbidityIndex_near st raw Hc Hr Hcl Hcy Hne)
    as (idx & E & Hlo & Hhi & Hmid).
  fold clear cloudy in Hlo, Hhi, Hmid, Hne. fold num den in Hlo, Hhi, Hmid.
  pose proof (spec_index_low clear cloudy raw Hne) as Slo.
  pose proof (spec_index_high clear cloudy raw Hne) as Shi.
  pose proof (spec_index_between clear cloudy raw) as Smid.
  cbv zeta in Smid. fold num den in Slo, Shi, Smid.
  assert (Hden : 0 < den) by (unfold den; lia).
  exists idx. split; [exact E|].
  destruct (Z_lt_le_dec 0 num) as [Hpos|Hnp]; [destruct (Z_lt_le_dec num den) as [Hlt|Hge]|].
  - destruct (Hmid (conj Hpos Hlt)) as [B1 B2].
    rewrite (Smid (conj Hpos Hlt)).
    destruct (near_half_up num den idx (conj Hpos Hlt) B1 B2) as (N1 & N2 & N3 & N4).
    split; [lia|]. split; [lia|]. split; [intros _; exact N1|].
    split; [exact N2|]. split; assumption.
  - rewrite (Shi Hge), (Hhi Hge).
    split; [lia|]. split; [intros _; split; reflexivity|]. split; [lia|].
    split; [lia|]. split; [lia|]. reflexivity.
  - rewrite (Slo Hnp), (Hlo Hnp).
    split; [intros _; split; reflexivity|]. split; [lia|]. split; [lia|].
    split; [lia|]. split; [lia|]. reflexivity.
Qed.

Lemma computeTurbidityIndex_two_point_witness :
  exists idx,
    computeTurbidityIndex (calibrated 0 200) 59 = Some idx
    /\ spec_index 0 200 59 - 1 <= idx <= spec_index 0 200 59.
Proof.
  assert (U : forall z, 0 <= z < 65536 -> is_u16 z) by (intros z Hz; exact Hz).
  destruct (proj1 (computeTurbidityIndex_two_point (calibrated 0 200) 59)
              eq_refl (U 59 ltac:(lia)) (U 0 ltac:(lia)) (U 200 ltac:(lia))
              ltac:(discriminate))
    as (idx & E & _ & _ & _ & B & T & _).
  exists idx. split; [exact E|]. split; [exact (proj1 B) | exact (T eq_refl)].
Defined.
